(** * DendroBLAST distance matrices of OrthoFinder ([scripts/orthologues.py])

    A shallow embedding of the distance-matrix part of [orthologues.py]:
    [OrthoGroupsSet.OGs], [lil_minmax], the scatter worker
    [Worker_OGMatrices_ReadBLASTAndUpdateDistances], the transform
    [CompleteOGMatrices] / [CompleteAndWriteOGMatrices], the serializer
    [WritePhylipMatrix], and the species-level aggregation
    [SpeciesTreeDistances] / [PrepareSpeciesTreeCommand].

    Numbers.  The program computes with IEEE doubles.  They are modelled by
    the type [float] below: an exact rational, or one of the three special
    values the program relies on (plus infinity from a division by zero,
    minus infinity from the logarithm, not-a-number).  Rounding, overflow
    and the sign of zero are not modelled; every operation on the special
    values follows IEEE 754 with a zero read as [+0].  The natural logarithm
    of a positive rational is a parameter [ln] of the development.

    Exceptions.  A function that can raise returns an [option]; [None] is
    the exception, whatever its kind.

    Processes.  The worker processes of the scatter phase share the
    matrices and take their work from a queue.  The queue is drained item
    by item here, and every store into a matrix is recorded in a trace, so
    that the cells written by each unit of work can be compared. *)

From Stdlib Require Import QArith Qabs Qcanon ZArith Lia.
From stdpp Require Import base numbers strings pretty option list sorting gmap.

(** ** Numbers *)

Inductive float : Type :=
  | NaN
  | NInf
  | Fin (q : Qc)
  | PInf.

#[global] Instance float_eq_dec : EqDecision float.
Proof. solve_decision. Defined.

#[global] Instance Qc_inhabited : Inhabited Qc := populate 0%Qc.

#[global] Instance float_inhabited : Inhabited float := populate (Fin 0).

Definition Qcltb (a b : Qc) : bool :=
  match (a ?= b)%Qc with Lt => true | _ => false end.

Definition Qceqb (a b : Qc) : bool :=
  match (a ?= b)%Qc with Eq => true | _ => false end.

(** Equalities between numbers given by different computations: canonical
    rationals are equal when they are equal as fractions. *)
Ltac canon :=
  repeat first [ reflexivity
               | apply Qc_is_canon; reflexivity
               | progress f_equal ].

Module F.

Local Open Scope Qc_scope.

(** Literals of the source. *)
Definition zero : float := Fin 0.
Definition one : float := Fin 1.
Definition half : float := Fin (Q2Qc 0.5).
Definition big : float := Fin (Q2Qc 9e99).          (* 9e99 *)
Definition neg_big : float := Fin (Q2Qc (-9e99)).    (* -9e99 *)
Definition sliver : float := Fin (Q2Qc 1e-6).        (* 1e-6 *)
Definition one_point_one : float := Fin (Q2Qc 1.1).  (* 1.1 *)

(** [a < b]; false as soon as one side is not a number. *)
Definition ltb (a b : float) : bool :=
  match a, b with
  | NaN, _ | _, NaN => false
  | NInf, NInf => false
  | NInf, _ => true
  | _, NInf => false
  | PInf, _ => false
  | Fin _, PInf => true
  | Fin x, Fin y => Qcltb x y
  end.

(** [a > b] *)
Definition gtb (a b : float) : bool := ltb b a.


Definition neg (a : float) : float :=
  match a with
  | NaN => NaN
  | NInf => PInf
  | PInf => NInf
  | Fin x => Fin (- x)
  end.

Definition add (a b : float) : float :=
  match a, b with
  | NaN, _ | _, NaN => NaN
  | PInf, NInf | NInf, PInf => NaN
  | PInf, _ | _, PInf => PInf
  | NInf, _ | _, NInf => NInf
  | Fin x, Fin y => Fin (x + y)
  end.

(** An infinity of the sign of [x] times the sign given by [pos]. *)
Definition signed_inf (pos : bool) (x : Qc) : float :=
  if Qceqb x 0 then NaN
  else if Qcltb 0 x then (if pos then PInf else NInf)
  else (if pos then NInf else PInf).

Definition mul (a b : float) : float :=
  match a, b with
  | NaN, _ | _, NaN => NaN
  | Fin x, Fin y => Fin (x * y)
  | PInf, PInf | NInf, NInf => PInf
  | PInf, NInf | NInf, PInf => NInf
  | PInf, Fin x | Fin x, PInf => signed_inf true x
  | NInf, Fin x | Fin x, NInf => signed_inf false x
  end.

(** Division as numpy does it with the divide warning ignored:
    a nonzero number over zero is an infinity, zero over zero is
    not-a-number. *)
Definition div (a b : float) : float :=
  match a, b with
  | NaN, _ | _, NaN => NaN
  | Fin x, Fin y => if Qceqb y 0 then signed_inf true x else Fin (x / y)
  | Fin _, (PInf | NInf) => Fin 0
  | (PInf | NInf), (PInf | NInf) => NaN
  | PInf, Fin y => if Qcltb y 0 then NInf else PInf
  | NInf, Fin y => if Qcltb y 0 then PInf else NInf
  end.

(** The builtin [max(a, b)] of Python: [b] when [b > a], else [a]. *)
Definition max (a b : float) : float := if gtb b a then b else a.

(** The builtin [min(a, b)] of Python: [b] when [b < a], else [a]. *)
Definition min (a b : float) : float := if ltb b a then b else a.

(** The builtin [min(l)] / [max(l)] on a list; [ValueError] on []. *)
Definition min_list (l : list float) : option float :=
  match l with
  | [] => None
  | x :: l' => Some (foldl min x l')
  end.

Definition max_list (l : list float) : option float :=
  match l with
  | [] => None
  | x :: l' => Some (foldl max x l')
  end.

Definition is_nan (a : float) : bool :=
  match a with NaN => true | _ => false end.

(** [np.minimum] / [np.maximum] on scalars: not-a-number propagates. *)
Definition np_minimum (a b : float) : float :=
  if is_nan a then a else if is_nan b then b
  else if ltb b a then b else a.

Definition np_maximum (a b : float) : float :=
  if is_nan a then a else if is_nan b then b
  else if ltb a b then b else a.

End F.

(** ** Genes and orthogroups *)

(** [class Seq]: a gene is a species index and a sequence index. *)
Record Seq : Type := mkSeq { iSp : nat; iSeq : nat }.

#[global] Instance Seq_eq_dec : EqDecision Seq.
Proof. solve_decision. Defined.

Abbreviation orthogroup := (list Seq) (only parsing).

(** ** [OrthoGroupsSet.OGs] *)

Module OrthoGroupsSet.

(** The fields [OGs] reads and writes.  [predicted] stands for what
    [MCL.GetPredictedOGs(self.clustersFN)] loads, each gene already passed
    through the [Seq] constructor. *)
Record t : Type := mk {
  predicted : list orthogroup;
  ogs_all : option (list orthogroup);
  iOgs4 : nat
}.

(** The object as [__init__] leaves it. *)
Definition init (loaded : list orthogroup) : t :=
  {| predicted := loaded; ogs_all := None; iOgs4 := 0 |}.

Definition small (og : orthogroup) : Prop := length og < 4.

#[global] Instance small_dec og : Decision (small og).
Proof. unfold small. apply _. Defined.

(** [len(ogs_all) if len(ogs_all[-1]) >= 4 else
     next(i for i, og in enumerate(ogs_all) if len(og) < 4)];
    [None] is the [IndexError] of [ogs_all[-1]] on an empty list (or the
    [StopIteration] of [next], which cannot happen). *)
Definition first_small_index (ogs : list orthogroup) : option nat :=
  match last ogs with
  | None => None
  | Some og_last =>
      if decide (4 ≤ length og_last) then Some (length ogs)
      else fst <$> list_find small ogs
  end.

(** [OGs(self, qInclAll)]: the value returned ([None] when the call
    raises) and the object afterwards. *)
Definition OGs (self : t) (qInclAll : bool) : option (list orthogroup) * t :=
  match ogs_all self with
  | Some ogs =>
      (Some (if qInclAll then ogs else take (iOgs4 self) ogs), self)
  | None =>
      let ogs := predicted self in
      let self1 := {| predicted := predicted self; ogs_all := Some ogs;
                      iOgs4 := iOgs4 self |} in
      match first_small_index ogs with
      | None => (None, self1)
      | Some k =>
          let self2 := {| predicted := predicted self; ogs_all := Some ogs;
                          iOgs4 := k |} in
          (Some (if qInclAll then ogs else take k ogs), self2)
      end
  end.

End OrthoGroupsSet.

(** Orthogroups sorted by size, largest first. *)
Definition size_sorted (ogs : list orthogroup) : Prop :=
  ∀ i j og1 og2, i ≤ j → ogs !! i = Some og1 → ogs !! j = Some og2 →
                 length og2 ≤ length og1.

(** ** Loops in the error monad

    A Python [for x in l: body] whose body may raise: the state is threaded
    through the iterations and the first exception ([None]) ends the loop. *)

Fixpoint for_ {A S : Type} (l : list A) (body : A → S → option S) (s : S)
    : option S :=
  match l with
  | [] => Some s
  | x :: l' =>
      match body x s with
      | Some s' => for_ l' body s'
      | None => None
      end
  end.

(** [enumerate(l)] *)
Definition enumerate {A : Type} (l : list A) : list (nat * A) :=
  imap (λ i x, (i, x)) l.

(** ** Dense matrices: a list of rows ([mp.Array] per row, or a numpy array) *)

Abbreviation matrix := (list (list float)) (only parsing).

(** [m[i][j]]; [IndexError] out of range. *)
Definition mget (m : matrix) (i j : nat) : option float :=
  match m !! i with
  | Some row => row !! j
  | None => None
  end.

(** [m[i][j] = v]; [IndexError] out of range. *)
Definition mset (m : matrix) (i j : nat) (v : float) : option matrix :=
  match m !! i with
  | Some row =>
      if decide (j < length row) then Some (<[i := <[j := v]> row]> m)
      else None
  | None => None
  end.

(** [np.zeros((n, n))], and the rows [mp.Array('d', n)] start at zero too. *)
Definition zeros (n : nat) : matrix := replicate n (replicate n F.zero).

Definition square (n : nat) (m : matrix) : Prop :=
  length m = n ∧ Forall (λ row, length row = n) m.

(** ** Sparse score matrices ([scipy.sparse.lil_matrix]) *)

Module lil.

(** Row [k] holds the stored entries of row [k] as (column, value), the
    way a [lil_matrix] keeps [rows[k]] and [data[k]]. *)
Record matrix : Type := mk {
  rows : list (list (nat * float));
  ncols : nat
}.

(** [M.shape[0]] *)
Definition shape0 (M : matrix) : nat := length (rows M).

(** [values.data[0]] of a row view: the stored values. *)
Definition data (row : list (nat * float)) : list float := row.*2.

(** [values.nnz]: the number of stored entries. *)
Definition nnz (row : list (nat * float)) : nat := length row.

(** The entry stored at column [j], [0.0] when there is none. *)
Definition entry (row : list (nat * float)) (j : nat) : float :=
  match list_find (λ e, e.1 = j) row with
  | Some (_, e) => e.2
  | None => F.zero
  end.

(** [M[i, j]]; [IndexError] out of range. *)
Definition getitem (M : matrix) (i j : nat) : option float :=
  match rows M !! i with
  | Some row => if decide (j < ncols M) then Some (entry row j) else None
  | None => None
  end.

End lil.

(** [lil_minmax(M)]: per row the smallest and the largest stored value;
    [9e99] and [0] for a row without stored entries. *)
Definition row_min (row : list (nat * float)) : float :=
  if decide (lil.nnz row = 0) then F.big
  else default F.big (F.min_list (lil.data row)).

Definition row_max (row : list (nat * float)) : float :=
  if decide (lil.nnz row = 0) then F.zero
  else default F.zero (F.max_list (lil.data row)).

Definition lil_minmax (M : lil.matrix) : list float * list float :=
  (row_min <$> lil.rows M, row_max <$> lil.rows M).

(** An elementwise numpy operation on two column vectors, with numpy's
    broadcasting of a vector of length one; [None] is the [ValueError] of
    shapes that do not match. *)
Definition np_elementwise (f : float → float → float) (a b : list float)
    : option (list float) :=
  if decide (length a = length b) then Some (zip_with f a b)
  else match a, b with
       | [x], _ => Some (f x <$> b)
       | _, [y] => Some ((λ x, f x y) <$> a)
       | _, _ => None
       end.

(** ** The scatter phase *)

(** A write [m[i][j] = v] into the matrix of orthogroup [iog], as recorded
    by the instrumented store below. *)
Record write : Type := mkWrite {
  w_og : nat;
  w_row : nat;
  w_col : nat;
  w_val : float
}.

(** The cell a write goes to. *)
Definition cell (w : write) : nat * nat * nat := (w_og w, w_row w, w_col w).

(** The shared matrices, and the trace of the writes made so far. *)
Record scatter_state : Type := mkState {
  ogMatrices : list (list (list float));
  trace : list write
}.

(** [m[i][j] = v] on the matrix of orthogroup [iog]. *)
Definition store (iog i j : nat) (v : float) (st : scatter_state)
    : option scatter_state :=
  match ogMatrices st !! iog with
  | Some m =>
      match mset m i j v with
      | Some m' =>
          Some {| ogMatrices := <[iog := m']> (ogMatrices st);
                  trace := trace st ++ [mkWrite iog i j v] |}
      | None => None
      end
  | None => None
  end.

(** [[[(g, i) for i, g in enumerate(og) if g.iSp == iSp]
      for iSp in speciesToUse] for og in ogs] *)
Definition genes_of_species (og : orthogroup) (sp : nat) : list (Seq * nat) :=
  omap (λ '(i, g), if decide (iSp g = sp) then Some (g, i) else None)
       (enumerate og).

Definition make_ogsPerSpecies (speciesToUse : list nat) (ogs : list orthogroup)
    : list (list (list (Seq * nat))) :=
  (λ og, genes_of_species og <$> speciesToUse) <$> ogs.

(** The matrices as [GetOGMatrices_FullParallel] allocates them,
    [[[mp.Array('d', n, lock=False) for _ in xrange(n)] for n in nGenes]]
    with [nGenes = [len(og) for og in ogs]], and no write made yet. *)
Definition initial_state (ogs : list orthogroup) : scatter_state :=
  {| ogMatrices := zeros <$> (length <$> ogs); trace := [] |}.

Section Scatter.

(** [BlastFileProcessor.GetBLAST6Scores(seqsInfo, fileInfo, sp1, sp2,
    qExcludeSelfHits = False, qDoubleBlast = qDoubleBlast)]: the reader of
    the score files is outside this file. *)
Variable GetBLAST6Scores : nat → nat → lil.matrix.

(** [seqsInfo.speciesToUse] and [seqsInfo.nSeqsPerSpecies] *)
Variable speciesToUse : list nat.
Variable nSeqsPerSpecies : nat → nat.

(** [Bs = [GetBLAST6Scores(..., sp1, sp2, ...) for sp2 in speciesToUse]] *)
Definition read_Bs (sp1 : nat) : list lil.matrix :=
  GetBLAST6Scores sp1 <$> speciesToUse.

(** The loop [for B in Bs: m0, m1 = lil_minmax(B); mins = np.minimum(mins,
    m0); maxes = np.maximum(maxes, m1)]. *)
Definition combine_minmax (B : lil.matrix) (acc : list float * list float)
    : option (list float * list float) :=
  let '(m0, m1) := lil_minmax B in
  match np_elementwise F.np_minimum acc.1 m0,
        np_elementwise F.np_maximum acc.2 m1 with
  | Some mins, Some maxes => Some (mins, maxes)
  | _, _ => None
  end.

Definition row_extremes (nSeqs_sp1 : nat) (Bs : list lil.matrix)
    : option (list float * list float) :=
  for_ Bs combine_minmax
       (replicate nSeqs_sp1 F.big, replicate nSeqs_sp1 F.zero).

(** [0.5*max(B[gi.iSeq, gj.iSeq], mins[gi.iSeq]) * maxes_inv[gi.iSeq]] *)
Definition contribution (B : lil.matrix) (mins maxes_inv : list float)
    (gi gj : Seq) : option float :=
  match lil.getitem B (iSeq gi) (iSeq gj),
        mins !! iSeq gi, maxes_inv !! iSeq gi with
  | Some b, Some mn, Some inv =>
      Some (F.mul (F.mul F.half (F.max b mn)) inv)
  | _, _, _ => None
  end.

(** One pass of the body of the worker's [while] loop, for the queue item
    [(iiSp, sp1, nSeqs_sp1)]. *)
Definition unit_of_work (ogsPerSpecies : list (list (list (Seq * nat))))
    (item : nat * nat * nat) (st : scatter_state) : option scatter_state :=
  let '(iiSp, sp1, nSeqs_sp1) := item in
  let Bs := read_Bs sp1 in
  match row_extremes nSeqs_sp1 Bs with
  | None => None
  | Some (mins, maxes) =>
      let maxes_inv := F.div F.one <$> maxes in
      for_ (enumerate Bs) (λ '(jjSp, B),
        for_ (enumerate (take (length (ogMatrices st)) ogsPerSpecies))
          (λ '(iog, og) st1,
            match og !! iiSp with
            | None => None
            | Some row_genes =>
                for_ row_genes (λ '(gi, i) st2,
                  match og !! jjSp with
                  | None => None
                  | Some col_genes =>
                      for_ col_genes (λ '(gj, j) st3,
                        match contribution B mins maxes_inv gi gj with
                        | Some v => store iog i j v st3
                        | None => None
                        end) st2
                  end) st1
            end)) st
  end.

(** The queue [GetOGMatrices_FullParallel] fills:
    [(iiSp, sp1, nSeqs[sp1]) for iiSp, sp1 in enumerate(speciesToUse)]. *)
Definition cmd_queue : list (nat * nat * nat) :=
  (λ '(iiSp, sp1), (iiSp, sp1, nSeqsPerSpecies sp1))
    <$> enumerate speciesToUse.

(** [Worker_OGMatrices_ReadBLASTAndUpdateDistances]: take items from the
    queue until it is empty. *)
Definition Worker_OGMatrices_ReadBLASTAndUpdateDistances
    (queue : list (nat * nat * nat))
    (ogsPerSpecies : list (list (list (Seq * nat))))
    (st : scatter_state) : option scatter_state :=
  for_ queue (unit_of_work ogsPerSpecies) st.

(** [GetOGMatrices_FullParallel], on the orthogroups [ogs = OGs()], with
    the queue drained item by item. *)
Definition GetOGMatrices_FullParallel (ogs : list orthogroup)
    : option scatter_state :=
  let ogsPerSpecies := make_ogsPerSpecies speciesToUse ogs in
  Worker_OGMatrices_ReadBLASTAndUpdateDistances cmd_queue ogsPerSpecies
    (initial_state ogs).

End Scatter.

(** ** Formatting *)

(** The line feed. *)
Definition nl : string := String (Ascii.ascii_of_nat 10) "".

(** The nearest integer to a nonnegative rational, ties to even: the
    rounding of [printf]. *)
Definition round_half_even (q : Q) : Z :=
  let n := Qnum q in
  let d := Z.pos (Qden q) in
  let k := (n / d)%Z in
  match (2 * (n mod d) ?= d)%Z with
  | Lt => k
  | Gt => (k + 1)%Z
  | Eq => if Z.even k then k else (k + 1)%Z
  end.

(** The last [width] decimal digits of [n]. *)
Fixpoint digits (width : nat) (n : Z) : string :=
  match width with
  | 0 => ""
  | S w => digits w (n / 10) +:+ pretty (Z.to_N (n mod 10))
  end.

(** ["%.6f" % v] *)
Definition fmt6 (v : float) : string :=
  match v with
  | NaN => "nan"
  | PInf => "inf"
  | NInf => "-inf"
  | Fin q =>
      let scaled := round_half_even (Qabs q * 1000000)%Q in
      (if Qcltb q 0 then "-" else "")
        +:+ pretty (Z.to_N (scaled / 1000000))
        +:+ "." +:+ digits 6 (scaled mod 1000000)
  end.

(** [Seq.ToString]: ["%d_%d" % (self.iSp, self.iSeq)] *)
Definition ToString (g : Seq) : string :=
  pretty (iSp g) +:+ "_" +:+ pretty (iSeq g).

(** ** Reading a written number back

    The number that a string of decimal digits stands for, to say what the
    text written by ["%.6f"] denotes. *)
Definition digit_of (c : Ascii.ascii) : option N :=
  let code := Ascii.N_of_ascii c in
  (* the characters 0 to 9 have the codes 48 to 57 *)
  if decide (48 ≤ code ≤ 57)%N then Some (code - 48)%N else None.

Fixpoint read_digits_from (acc : N) (s : string) : option N :=
  match s with
  | EmptyString => Some acc
  | String c s' =>
      match digit_of c with
      | Some d => read_digits_from (10 * acc + d) s'
      | None => None
      end
  end.

(** [None] for the empty string and for a string that holds anything but
    decimal digits (a sign, a point, an exponent). *)
Definition read_digits (s : string) : option N :=
  match s with
  | EmptyString => None
  | _ => read_digits_from 0 s
  end.

(** ** [WritePhylipMatrix] *)

(** [" ".join(["%.6f" % v for v in V])] *)
Definition join_values (V : list float) : string :=
  String.concat " " (fmt6 <$> V).

(** The text of a matrix file whose row [i] carries the label [label i] and
    the values [value i j]: the dimension, then one line per row. *)
Definition phylip_text (n : nat) (label : nat → string)
    (value : nat → nat → float) : string :=
  pretty n +:+ nl
  +:+ String.concat ""
        ((λ i, label i +:+ " " +:+ join_values (value i <$> seq 0 n) +:+ nl)
           <$> seq 0 n).

(** [sliver if 0 < v < sliver else v] *)
Definition floor_sliver (v : float) : float :=
  if F.ltb F.zero v && F.ltb v F.sliver then F.sliver else v.

(** [0. + (x if x > -9e99 else max_og)], [max_og] already scaled by 1.1. *)
Definition resolve (max_og : float) (x : float) : float :=
  F.add F.zero (if F.gtb x F.neg_big then x else max_og).

(** The values of row [i] as they are formatted:
    [V = [0. + (m[i][j] if m[i][j] > -9e99 else max_og) for j in range(n)]]
    then [V = [sliver if 0 < v < sliver else v for v in V]]. *)
Definition phylip_row_values (m : matrix) (n i : nat) (max_og : float)
    : option (list float) :=
  match mapM (λ j, resolve max_og <$> mget m i j) (seq 0 n) with
  | Some V => Some (floor_sliver <$> V)
  | None => None
  end.

(** What [WritePhylipMatrix(m, names, outFN, max_og)] writes to [outFN];
    [None] when it raises. *)
Definition WritePhylipMatrix (m : matrix) (names : list string)
    (max_og : float) : option string :=
  let max_og := F.mul F.one_point_one max_og in
  let n := length m in
  match mapM (λ i,
          match names !! i, phylip_row_values m n i max_og with
          | Some name, Some V => Some (name +:+ " " +:+ join_values V +:+ nl)
          | _, _ => None
          end) (seq 0 n) with
  | Some lines => Some (pretty n +:+ nl +:+ String.concat "" lines)
  | None => None
  end.

(** ** The transform phase *)

(** The index pairs [(i, j)], [j < i < n], in the order in which
    [for i in xrange(n): for j in xrange(i)] visits them. *)
Definition lower_pairs (n : nat) : list (nat * nat) :=
  i ← seq 0 n; pair i <$> seq 0 i.

(** A cell of a matrix known to hold one. *)
Definition cell_of (m : matrix) (i j : nat) : float :=
  default F.zero (mget m i j).

Section Transform.

(** The natural logarithm of a positive rational. *)
Variable ln : Qc → Qc.

(** [np.log], with the divide warning ignored: the logarithm of zero is
    minus infinity, that of a negative number is not a number. *)
Definition np_log (x : float) : float :=
  match x with
  | NaN | NInf => NaN
  | PInf => PInf
  | Fin q =>
      if Qcltb q 0 then NaN
      else if Qceqb q 0 then NInf
      else Fin (ln q)
  end.

(** The body shared by the loops of [CompleteAndWriteOGMatrices] and
    [CompleteOGMatrices]: the two raw values are read through [rd], from
    the matrix being written or from another one. *)
Definition complete_cell_with (rd : list (list float) → nat → nat → option float)
    (i j : nat) (s : list (list float) * float)
    : option (list (list float) * float) :=
  let '(m, max_og) := s in
  match rd m i j, rd m j i with
  | Some a, Some b =>
      match mset m i j (F.neg (np_log (F.add a b))) with
      | Some m1 =>
          match mget m1 i j with
          | Some c =>
              match mset m1 j i c with
              | Some m2 =>
                  match mget m2 i j with
                  | Some d => Some (m2, F.max max_og d)
                  | None => None
                  end
              | None => None
              end
          | None => None
          end
      | None => None
      end
  | _, _ => None
  end.

(** The distance that the transform stores in the cells [(a, b)] and
    [(b, a)], from the raw values [raw]: with [i] the larger and [j] the
    smaller index, [-np.log(raw[i][j] + raw[j][i])]. *)
Definition log_distance (raw : nat → nat → float) (a b : nat) : float :=
  F.neg (np_log (F.add (raw (a `max` b) (a `min` b))
                       (raw (a `min` b) (a `max` b)))).

(** The state of a matrix in the course of the transform: the pairs
    already visited hold the distance in both cells, the other cells still
    hold their first value. *)
Definition transformed (n : nat) (first raw : nat → nat → float)
    (done : list (nat * nat)) (s : list (list float) * float) : Prop :=
  square n s.1
  ∧ ∀ a b, a < n → b < n →
      mget s.1 a b
      = Some (if decide ((a, b) ∈ done ∨ (b, a) ∈ done)
              then log_distance raw a b else first a b).

(** The body of the loops of [CompleteAndWriteOGMatrices]:
    [m[i][j] = -np.log(m[i][j] + m[j][i]); m[j][i] = m[i][j];
     max_og = max(max_og, m[i][j])]. *)
Definition complete_cell (i j : nat) (s : list (list float) * float)
    : option (list (list float) * float) :=
  let '(m, max_og) := s in
  match mget m i j, mget m j i with
  | Some a, Some b =>
      match mset m i j (F.neg (np_log (F.add a b))) with
      | Some m1 =>
          match mget m1 i j with
          | Some c =>
              match mset m1 j i c with
              | Some m2 =>
                  match mget m2 i j with
                  | Some d => Some (m2, F.max max_og d)
                  | None => None
                  end
              | None => None
              end
          | None => None
          end
      | None => None
      end
  | _, _ => None
  end.

(** [for i in xrange(n): for j in xrange(i): ...] with [n = len(m)] and
    [max_og = -9e99]. *)
Definition complete_in_place (m : matrix) : option (list (list float) * float) :=
  for_ (seq 0 (length m))
       (λ i, for_ (seq 0 i) (complete_cell i)) (m, F.neg_big).

(** The files written so far, named by the orthogroup index that
    [files.FileHandler.GetOGsDistMatFN(iog)] turns into a path. *)
Definition CompleteAndWriteOGMatrices (ogs : list orthogroup)
    (ogMatrices : list (list (list float)))
    : option (list (list (list float)) * list (nat * string)) :=
  for_ (enumerate (zip ogs ogMatrices))
    (λ '(iog, (og, _)) '(mats, files),
      match mats !! iog with
      | None => None
      | Some m =>
          match complete_in_place m with
          | None => None
          | Some (m', max_og) =>
              match WritePhylipMatrix m' (ToString <$> og) max_og with
              | Some text =>
                  Some (<[iog := m']> mats, files ++ [(iog, text)])
              | None => None
              end
          end
      end) (ogMatrices, []).





End Transform.

(** ** Inputs of the scatter phase as the rest of the program delivers them *)

(** The matrix of [sp1] against [sp2] has a row per sequence of [sp1] and a
    column per sequence of [sp2]. *)
Definition scores_shaped (GetBLAST6Scores : nat → nat → lil.matrix)
    (nSeqsPerSpecies : nat → nat) (speciesToUse : list nat) : Prop :=
  ∀ sp1 sp2, sp1 ∈ speciesToUse → sp2 ∈ speciesToUse →
    lil.shape0 (GetBLAST6Scores sp1 sp2) = nSeqsPerSpecies sp1
    ∧ lil.ncols (GetBLAST6Scores sp1 sp2) = nSeqsPerSpecies sp2.

(** The genes of the orthogroups are sequences of species in use. *)
Definition genes_known (nSeqsPerSpecies : nat → nat) (speciesToUse : list nat)
    (ogs : list orthogroup) : Prop :=
  ∀ og g, og ∈ ogs → g ∈ og →
    iSp g ∈ speciesToUse ∧ iSeq g < nSeqsPerSpecies (iSp g).

(** There is a square matrix of the size of each orthogroup. *)
Definition allocated (ogs : list orthogroup) (st : scatter_state) : Prop :=
  Forall2 (λ og m, square (length og) m) ogs (ogMatrices st).

(** ** The writes of one unit of work, as a list

    The places where the body of the innermost loop of the worker is
    reached, in order: the index and matrix of the column species, the
    index of the orthogroup, the row gene and the column gene with their
    positions in the orthogroup. *)
Definition site : Type := nat * lil.matrix * nat * (Seq * nat) * (Seq * nat).

Definition sites_of_row_gene (jjSp : nat) (B : lil.matrix) (iog : nat)
    (og : list (list (Seq * nat))) (row_gene : Seq * nat) : list site :=
  (λ col_gene, (jjSp, B, iog, row_gene, col_gene)) <$> default [] (og !! jjSp).

Definition sites_of_orthogroup (iiSp jjSp : nat) (B : lil.matrix)
    (p : nat * list (list (Seq * nat))) : list site :=
  default [] (p.2 !! iiSp) ≫= sites_of_row_gene jjSp B p.1 p.2.

Definition sites_of_species (ogsPerSpecies : list (list (list (Seq * nat))))
    (iiSp : nat) (p : nat * lil.matrix) : list site :=
  enumerate ogsPerSpecies ≫= sites_of_orthogroup iiSp p.1 p.2.

Definition unit_sites (ogsPerSpecies : list (list (list (Seq * nat))))
    (iiSp : nat) (Bs : list lil.matrix) : list site :=
  enumerate Bs ≫= sites_of_species ogsPerSpecies iiSp.

(** The value computed at a site (zero stands for an exception, after which
    nothing is written), and the write made there. *)
Definition site_value (mins maxes_inv : list float) (x : site) : option float :=
  let '(_, B, _, (gi, _), (gj, _)) := x in
  contribution B mins maxes_inv gi gj.

Definition site_write (mins maxes_inv : list float) (x : site) : write :=
  let '(_, _, iog, (_, i), (_, j)) := x in
  mkWrite iog i j (default F.zero (site_value mins maxes_inv x)).

(** The writes made between two states of a run. *)
Definition written (st st' : scatter_state) : list write :=
  drop (length (trace st)) (trace st').

(** A number between [0] and [0.5], bounds included. *)
Definition within_half (v : float) : bool :=
  negb (F.ltb v F.zero) && negb (F.ltb F.half v) && negb (F.is_nan v).

(** Score matrices as the reader delivers them: the stored scores are
    positive numbers. *)
Definition positive_scores (B : lil.matrix) : Prop :=
  ∀ row e, row ∈ lil.rows B → e ∈ lil.data row → ∃ q, e = Fin q ∧ (0 < q)%Qc.

(** The scores stored in row [k] of the matrices [Bs]. *)
Definition row_scores (Bs : list lil.matrix) (k : nat) : list float :=
  B ← Bs; default [] (lil.data <$> lil.rows B !! k).

(** What the combined extremes [mn], [mx] of row [k] are to the scores of
    that row in the matrices [Bs]: bounds of every score, and the initial
    [9e99] and [0] when the row holds no score. *)
Definition extremes_of (Bs : list lil.matrix) (k : nat) (mn mx : Qc) : Prop :=
  (0 < mn)%Qc
  ∧ (∀ q, Fin q ∈ row_scores Bs k → (mn ≤ q)%Qc ∧ (q ≤ mx)%Qc)
  ∧ (row_scores Bs k = [] → Fin mn = F.big ∧ Fin mx = F.zero).

(** ** Example inputs

    Two species, [0] and [1], with one gene each, in one orthogroup.  The
    score matrices have one row and one column; [two_species_scores] takes
    the stored entries of that row for the four pairs of species. *)
Definition two_genes : list Seq := [mkSeq 0 0; mkSeq 1 0].

Definition two_species_scores (s00 s01 s10 s11 : list (nat * float))
    (sp1 sp2 : nat) : lil.matrix :=
  match sp1, sp2 with
  | 0, 0 => lil.mk [s00] 1
  | 0, _ => lil.mk [s01] 1
  | _, 0 => lil.mk [s10] 1
  | _, _ => lil.mk [s11] 1
  end.

Definition ten : float := Fin (Q2Qc 10).
Definition twenty : float := Fin (Q2Qc 20).

(** Score 10 between the two genes in both directions, no self hit. *)
Definition scores_10 : nat → nat → lil.matrix :=
  two_species_scores [] [(0, ten)] [(0, ten)] [].

(** The same with a self hit of score 20 for the gene of species 0. *)
Definition scores_10_self_20 : nat → nat → lil.matrix :=
  two_species_scores [(0, twenty)] [(0, ten)] [(0, ten)] [].

(** The gene of species 1 is hit by the gene of species 0 but, as a query,
    has no hit at all. *)
Definition scores_no_hit : nat → nat → lil.matrix :=
  two_species_scores [] [(0, ten)] [] [].

(** Stored entries that are positive numbers. *)
Definition positive_entries (row : list (nat * float)) : Prop :=
  Forall (λ e, ∃ q, e.2 = Fin q ∧ (0 < q)%Qc) row.

(** One sequence per species. *)
Definition one_seq (sp : nat) : nat := 1.

(** Four species with one gene each in one orthogroup.  The genes of the
    species 0 and 1 hit each other and the gene of species 2 hits that of
    species 0, all with score 10; the gene of species 3 has no hit at all,
    not even itself. *)
Definition four_genes : list Seq :=
  [mkSeq 0 0; mkSeq 1 0; mkSeq 2 0; mkSeq 3 0].

Definition scores_last_no_hit (sp1 sp2 : nat) : lil.matrix :=
  match sp1, sp2 with
  | 0, 1 | 1, 0 | 2, 0 => lil.mk [[(0, ten)]] 1
  | _, _ => lil.mk [[]] 1
  end.

(** A stand-in for the logarithm with which the examples are run: the
    tangent of [ln] at 1, which has the one value the examples need,
    [ln 1 = 0]. *)
Definition ln_tangent (q : Qc) : Qc := (q - 1)%Qc.

(** ** Species distances *)


(** [spDict = defaultdict(list);
     for i, g in enumerate(og): spDict[g.iSp].append(i)] *)
Definition make_spDict (og : orthogroup) : gmap nat (list nat) :=
  foldl (λ d '(i, g), <[iSp g := default [] (d !! iSp g) ++ [i]]> d)
        ∅ (enumerate og).




(** The positions in an orthogroup of the genes of a species: what
    [spDict[sp]] holds. *)
Definition indices_of (og : orthogroup) (sp : nat) : list nat :=
  omap (λ '(i, g), if decide (iSp g = sp) then Some i else None)
       (enumerate og).

(** The smallest distance in the matrix [m] of the orthogroup [og] between
    a gene of species [s] and a gene of species [t]; [None] when the
    orthogroup has no such pair of genes. *)
Definition closest_distance (s t : nat) (p : list Seq * list (list float))
    : option float :=
  F.min_list ((λ '(i, j), cell_of p.2 i j)
                <$> cprod (indices_of p.1 s) (indices_of p.1 t)).


Section SpeciesTree.

Variable speciesToUse : list nat.

(** [distances = [m[i][j] for i in spDict[sp1] for j in spDict[sp2]]] *)
Definition pair_distances (m : matrix) (spDict : gmap nat (list nat))
    (sp1 sp2 : nat) : option (list float) :=
  mapM (λ '(i, j), mget m i j)
       (cprod (default [] (spDict !! sp1)) (default [] (spDict !! sp2))).




(** The values of row [i] of the species matrix as they are formatted:
    [V = [(0. + M[i,j]) for j in range(n)]] then
    [V = [sliver if 0 < v < sliver else v for v in V]]. *)
Definition species_row_values (M : matrix) (n i : nat) : option (list float) :=
  match mapM (λ j, F.add F.zero <$> mget M i j) (seq 0 n) with
  | Some V => Some (floor_sliver <$> V)
  | None => None
  end.

(** What [PrepareSpeciesTreeCommand] writes to the species matrix file
    for the matrix [M], with the labels [str(speciesToUse[i])]. *)
Definition write_species_matrix (M : matrix) : option string :=
  let n := length speciesToUse in
  match mapM (λ i,
          match speciesToUse !! i, species_row_values M n i with
          | Some sp, Some V =>
              Some (pretty sp +:+ " " +:+ join_values V +:+ nl)
          | _, _ => None
          end) (seq 0 n) with
  | Some lines => Some (pretty n +:+ nl +:+ String.concat "" lines)
  | None => None
  end.


End SpeciesTree.

(** ** The matrices that the scatter phase leaves *)

(** The cell [c = (iog, i, j)] of the shared matrices: [ogMatrices[iog][i][j]]. *)
Definition cell_value (mats : list (list (list float))) (c : nat * nat * nat)
    : option float :=
  match mats !! c.1.1 with
  | Some m => mget m c.1.2 c.2
  | None => None
  end.

(** The value of the last write of a trace to the cell [c]. *)
Definition last_write (tr : list write) (c : nat * nat * nat) : option float :=
  w_val <$> last (filter (λ w, cell w = c) tr).

(** The matrices hold what the trace says: a cell that was written holds
    the value of its last write, another one its value in [mats0]. *)
Definition consistent (mats0 : list (list (list float))) (st : scatter_state)
    : Prop :=
  ∀ c, cell_value (ogMatrices st) c
       = match last_write (trace st) c with
         | Some v => Some v
         | None => cell_value mats0 c
         end.

(** The writes of concurrent workers reach the shared matrices one at a
    time, in some order [tr]. *)
Definition replay (tr : list write) (st : scatter_state)
    : option scatter_state :=
  for_ tr (λ w, store (w_og w) (w_row w) (w_col w) (w_val w)) st.

(** The entry of the docstring of [GetOGMatrices_FullParallel],
    [Mij = 0.5*max(Bij, Bmin_i)/Bmax_i], for the row gene [gi] and the
    column gene [gj]: the scores are those of the species of [gi] against
    the species of [gj], the extremes those of the row of [gi] over the
    matrices of its species against every species in use. *)
Definition scatter_value (GetBLAST6Scores : nat → nat → lil.matrix)
    (speciesToUse : list nat) (nSeqsPerSpecies : nat → nat) (gi gj : Seq)
    : option float :=
  match row_extremes (nSeqsPerSpecies (iSp gi))
          (read_Bs GetBLAST6Scores speciesToUse (iSp gi)) with
  | Some (mins, maxes) =>
      contribution (GetBLAST6Scores (iSp gi) (iSp gj)) mins
        (F.div F.one <$> maxes) gi gj
  | None => None
  end.

(** The writes of the unit of work for a queue item, in order. *)
Definition unit_writes (GetBLAST6Scores : nat → nat → lil.matrix)
    (speciesToUse : list nat) (ogs : list orthogroup)
    (item : nat * nat * nat) : list write :=
  let '(iiSp, sp1, nSeqs_sp1) := item in
  match row_extremes nSeqs_sp1 (read_Bs GetBLAST6Scores speciesToUse sp1) with
  | Some (mins, maxes) =>
      site_write mins (F.div F.one <$> maxes)
        <$> unit_sites (make_ogsPerSpecies speciesToUse ogs) iiSp
              (read_Bs GetBLAST6Scores speciesToUse sp1)
  | None => []
  end.

(** A write that carries the value of the docstring for its cell. *)
Definition carries_cell_value (GetBLAST6Scores : nat → nat → lil.matrix)
    (speciesToUse : list nat) (nSeqsPerSpecies : nat → nat)
    (ogs : list orthogroup) (w : write) : Prop :=
  ∃ og gi gj, ogs !! w_og w = Some og
              ∧ og !! w_row w = Some gi ∧ og !! w_col w = Some gj
              ∧ scatter_value GetBLAST6Scores speciesToUse nSeqsPerSpecies
                  gi gj = Some (w_val w).

(** ** [DendroBLASTTrees.EnoughOGsForSTAG] *)

(** [nSp = len(speciesToUse);
     nSp_perOG = [len(set([g.iSp for g in og])) for og in ogs];
     return (nSp_perOG.count(nSp) >= 100)] *)
Definition EnoughOGsForSTAG (ogs : list orthogroup) (speciesToUse : list nat)
    : bool :=
  let nSp := length speciesToUse in
  let nSp_perOG :=
    (λ og, size (list_to_set (iSp <$> og) : gset nat)) <$> ogs in
  bool_decide (100 ≤ length (filter (λ k, k = nSp) nSp_perOG)).

(** An orthogroup that holds a gene of every species of the list. *)
Definition has_all_species (species : list nat) (og : orthogroup) : Prop :=
  Forall (λ sp, Exists (λ g, iSp g = sp) og) species.

#[global] Instance has_all_species_dec species og :
  Decision (has_all_species species og).
Proof. unfold has_all_species. apply _. Defined.

(** ** User-supplied species trees *)

(** How a call ends. *)
Inductive outcome : Type :=
  | Returned   (* the function returns *)
  | Failed     (* [util.Fail()]: the program ends with an error message *)
  | Raised.    (* an exception that the function does not catch *)

(** What the functions read of the tree [tree.Tree(speciesTreeFN, format=1)]:
    [t.get_leaf_names()], which is also the order in which [for sp in t]
    visits the leaves, and [len(t.get_children())]. *)
Record species_tree : Type := mkTree {
  leaf_names : list string;
  n_children : nat
}.

(** [Counter(l).most_common()[0][1]]: the largest number of occurrences of
    an element of [l]; [IndexError] on the empty list. *)
Definition most_common_count (l : list string) : option nat :=
  match l with
  | [] => None
  | _ => Some (max_list ((λ x, length (filter (λ y, y = x) l)) <$> l))
  end.

(** [CheckUserSpeciesTree(speciesTreeFN, expSpecies)].  [file_exists] is
    [os.path.exists(speciesTreeFN)], and [parsed] the tree that
    [tree.Tree] reads, [None] when it raises.  The messages printed on the
    way are left out. *)
Definition CheckUserSpeciesTree (file_exists : bool)
    (parsed : option species_tree) (expSpecies : list string) : outcome :=
  if negb file_exists then Failed
  else match parsed with
  | None => Failed
  | Some t =>
      let actSpecies := leaf_names t in
      match most_common_count actSpecies with
      | None => Raised
      | Some n =>
          if decide (1 ≠ n) then Failed
          else
            (* for sp in expSpecies: if sp not in actSpecies: ok = False *)
            let ok1 :=
              forallb (λ sp, bool_decide (sp ∈ actSpecies)) expSpecies in
            match most_common_count expSpecies with
            | None => Raised
            | Some n' =>
                if decide (1 ≠ n') then Failed
                else
                  (* for sp in actSpecies: if sp not in expSpecies: ok = False *)
                  let ok2 :=
                    forallb (λ sp, bool_decide (sp ∈ expSpecies)) actSpecies in
                  if negb (ok1 && ok2) then Failed
                  else if decide (n_children t ≠ 2) then Failed
                  else Returned
            end
      end
  end.

(** [revDict = {v:k for k,v in speciesDict.items()}] *)
Definition revDict (speciesDict : gmap string string) : gmap string string :=
  foldl (λ acc kv, <[kv.2 := kv.1]> acc) ∅ (map_to_list speciesDict).

(** [ConvertUserSpeciesTree]: the names of the leaves after
    [for sp in t: sp.name = revDict[sp.name]], in the order of the leaves;
    [None] is the [KeyError] of a name that is not in [revDict].
    ([t.prune(t.get_leaf_names())] keeps every leaf.) *)
Definition ConvertUserSpeciesTree (t : species_tree)
    (speciesDict : gmap string string) : option (list string) :=
  mapM (λ name, revDict speciesDict !! name) (leaf_names t).

(** A tree and a dictionary of two species for the examples. *)
Definition two_names : gmap string string :=
  <["0" := "Homo_sapiens"]> (<["1" := "Mus_musculus"]> ∅).

Definition two_leaves : species_tree :=
  {| leaf_names := ["Mus_musculus"; "Homo_sapiens"]; n_children := 2 |}.

(** ** [lil_min] and [lil_max] *)

(** [lil_min(M)]: [mins] starts at [9e99]; a row with stored entries gets
    [min(values.data[0])]. *)
Definition lil_min (M : lil.matrix) : list float :=
  (λ row, if decide (lil.nnz row = 0) then F.big
          else default F.big (F.min_list (lil.data row))) <$> lil.rows M.

(** [lil_max(M)]: [maxes] starts at [0]; a row with stored entries gets
    [max(values.data[0])]. *)
Definition lil_max (M : lil.matrix) : list float :=
  (λ row, if decide (lil.nnz row = 0) then F.zero
          else default F.zero (F.max_list (lil.data row))) <$> lil.rows M.

(** * Properties *)

(** ** Comparisons of rationals *)

Lemma Qcltb_lt (a b : Qc) : Qcltb a b = true ↔ (a < b)%Qc.
Proof.
  unfold Qcltb. rewrite Qclt_alt. destruct (a ?= b)%Qc; split; congruence.
Qed.

Lemma Qceqb_eq (a b : Qc) : Qceqb a b = true ↔ a = b.
Proof.
  unfold Qceqb. rewrite Qceq_alt. destruct (a ?= b)%Qc; split; congruence.
Qed.

Lemma Qcltb_irrefl (a : Qc) : Qcltb a a = false.
Proof.
  destruct (Qcltb a a) eqn:E; [|done].
  apply Qcltb_lt in E. by apply Qclt_not_eq in E.
Qed.

Lemma Qcltb_ge (a b : Qc) : Qcltb a b = false ↔ (b ≤ a)%Qc.
Proof.
  rewrite <-not_true_iff_false, Qcltb_lt. split.
  - apply Qcnot_lt_le.
  - intros Hle Hlt. by apply Qcle_not_lt in Hle.
Qed.


(** ** The orthogroups returned by [OGs] *)

Section OGs_facts.

Import OrthoGroupsSet.

Lemma first_small_index_big_last ogs og :
  last ogs = Some og → 4 ≤ length og →
  first_small_index ogs = Some (length ogs).
Proof.
  intros Hl Hog. unfold first_small_index. rewrite Hl.
  by rewrite decide_True.
Qed.

Lemma first_small_index_small_last ogs og :
  last ogs = Some og → length og < 4 →
  ∃ k og', first_small_index ogs = Some k ∧ ogs !! k = Some og'
           ∧ length og' < 4
           ∧ ∀ j og'', j < k → ogs !! j = Some og'' → 4 ≤ length og''.
Proof.
  intros Hl Hog. unfold first_small_index. rewrite Hl.
  rewrite decide_False by lia.
  destruct (list_find small ogs) as [[k og']|] eqn:Hf.
  - apply list_find_Some in Hf as (Hk & Hs & Hbefore).
    exists k, og'. repeat split; [done|done|].
    intros j og'' Hj Hog''. specialize (Hbefore j og'' Hog'' Hj).
    unfold small in Hbefore. lia.
  - exfalso. rewrite list_find_None in Hf.
    apply last_Some in Hl as [l' ->].
    rewrite Forall_app, Forall_singleton in Hf. destruct Hf as [_ Hf].
    by apply Hf.
Qed.

Lemma filter_all (P : orthogroup → Prop) `{∀ x, Decision (P x)} ogs :
  Forall P ogs → filter P ogs = ogs.
Proof.
  induction 1 as [|og ogs Hog _ IH]; [done|].
  rewrite filter_cons_True by done. by rewrite IH.
Qed.

Lemma filter_none (P : orthogroup → Prop) `{∀ x, Decision (P x)} ogs :
  Forall (λ og, ¬ P og) ogs → filter P ogs = [].
Proof.
  induction 1 as [|og ogs Hog _ IH]; [done|].
  by rewrite filter_cons_False.
Qed.

Lemma take_first_small_filter ogs k og :
  size_sorted ogs → ogs !! k = Some og → length og < 4 →
  (∀ j og', j < k → ogs !! j = Some og' → 4 ≤ length og') →
  take k ogs = filter (λ og, 4 ≤ length og) ogs.
Proof.
  intros Hsort Hk Hog Hbefore.
  rewrite <-(take_drop k ogs) at 2. rewrite filter_app.
  rewrite (filter_none _ (drop k ogs)), app_nil_r.
  - symmetry. apply filter_all, Forall_forall.
    intros og' [i [Hi Hlt]%lookup_take_Some]%list_elem_of_lookup. eauto.
  - apply Forall_forall. intros og' [i Hi]%list_elem_of_lookup.
    rewrite lookup_drop in Hi.
    specialize (Hsort k (k + i) og og' ltac:(lia) Hk Hi). lia.
Qed.

Lemma big_last_filter ogs og :
  size_sorted ogs → last ogs = Some og → 4 ≤ length og →
  filter (λ og, 4 ≤ length og) ogs = ogs.
Proof.
  intros Hsort Hl Hog. apply filter_all, Forall_forall.
  intros og' [i Hi]%list_elem_of_lookup.
  apply last_Some in Hl as [l' ->].
  assert (i < length (l' ++ [og])) as Hlen by (by eapply lookup_lt_Some).
  rewrite length_app in Hlen. simpl in Hlen.
  assert ((l' ++ [og]) !! length l' = Some og) as Hlast.
  { rewrite lookup_app_r by lia. by rewrite Nat.sub_diag. }
  specialize (Hsort i (length l') og' og ltac:(lia) Hi Hlast). lia.
Qed.

(** C10.  On a loaded, non-empty list of orthogroups the first call
    [OGs()] returns the prefix that stops just before the first orthogroup
    with fewer than four genes, and the whole list when the last
    orthogroup has at least four; [OGs(qInclAll=True)] returns every
    orthogroup; a later call returns the same lists from the cache.  On an
    input sorted by size the default result is exactly the orthogroups
    with at least four genes. *)
Theorem OGs_prefix_before_first_small (loaded : list orthogroup) :
  loaded ≠ [] →
  let self := init loaded in
  (∃ k,
      (OGs self false).1 = Some (take k loaded)
      ∧ (OGs (OGs self false).2 false).1 = Some (take k loaded)
      ∧ (OGs (OGs self true).2 false).1 = Some (take k loaded)
      ∧ (∀ og, last loaded = Some og → 4 ≤ length og → k = length loaded)
      ∧ (∀ og, last loaded = Some og → length og < 4 →
           (∃ og', loaded !! k = Some og' ∧ length og' < 4)
           ∧ ∀ j og', j < k → loaded !! j = Some og' → 4 ≤ length og'))
  ∧ (OGs self true).1 = Some loaded
  ∧ (OGs (OGs self false).2 true).1 = Some loaded
  ∧ (size_sorted loaded →
       (OGs self false).1 = Some (filter (λ og, 4 ≤ length og) loaded)).
Proof.
  intros Hne self.
  destruct (last loaded) as [og|] eqn:Hl; [|by apply last_None in Hl].
  destruct (decide (4 ≤ length og)) as [Hbig|Hsmall].
  - pose proof (first_small_index_big_last _ _ Hl Hbig) as Hk.
    unfold OGs, self; simpl. rewrite Hk; simpl.
    split; [|split; [done|split; [done|]]].
    + exists (length loaded).
      split; [done|]. split; [done|]. split; [done|]. split; [done|].
      intros og' Heq ?; simplify_eq; lia.
    + intros Hsort. rewrite firstn_all.
      by rewrite (big_last_filter _ _ Hsort Hl Hbig).
  - destruct (first_small_index_small_last loaded og Hl ltac:(lia))
      as (k & og' & Hk & Hlk & Hog' & Hbefore).
    unfold OGs, self; simpl. rewrite Hk; simpl.
    split; [|split; [done|split; [done|]]].
    + exists k. split; [done|]. split; [done|]. split; [done|]. split.
      * intros og'' Heq ?; simplify_eq; lia.
      * intros og'' _ _. split; [eauto|done].
    + intros Hsort.
      by rewrite (take_first_small_filter _ _ _ Hsort Hlk Hog' Hbefore).
Qed.

End OGs_facts.

(** The call on an empty list raises ([ogs_all[-1]]); the claim is about
    lists that hold at least one orthogroup. *)
Lemma OGs_prefix_before_first_small_witness :
  [[mkSeq 0 0; mkSeq 1 0; mkSeq 0 1; mkSeq 1 1]; [mkSeq 0 2]] ≠ []
  ∧ (OrthoGroupsSet.OGs
       (OrthoGroupsSet.init
          [[mkSeq 0 0; mkSeq 1 0; mkSeq 0 1; mkSeq 1 1]; [mkSeq 0 2]])
       false).1
    = Some [[mkSeq 0 0; mkSeq 1 0; mkSeq 0 1; mkSeq 1 1]].
Proof.
  split; [done|].
  destruct (OGs_prefix_before_first_small
              [[mkSeq 0 0; mkSeq 1 0; mkSeq 0 1; mkSeq 1 1]; [mkSeq 0 2]]
              ltac:(done)) as (_ & _ & _ & Hsorted).
  rewrite Hsorted; [reflexivity|].
  intros i j og1 og2 Hij H1 H2.
  destruct i as [|[|i]], j as [|[|j]]; simplify_eq/=; lia.
Defined.

(** ** Loops *)

Section for_facts.

Context {A S : Type}.
Implicit Types (l : list A) (body : A → S → option S) (s : S).

Lemma for_app l1 l2 body s :
  for_ (l1 ++ l2) body s = for_ l1 body s ≫= for_ l2 body.
Proof.
  revert s. induction l1 as [|x l1 IH]; intros s; simpl; [done|].
  destruct (body x s); simpl; [apply IH|done].
Qed.

Lemma for_snoc l x body s :
  for_ (l ++ [x]) body s = for_ l body s ≫= body x.
Proof.
  rewrite for_app. destruct (for_ l body s) as [s'|]; simpl; [|done].
  by destruct (body x s').
Qed.

Lemma for_ext l body body' s :
  (∀ x s, body x s = body' x s) → for_ l body s = for_ l body' s.
Proof.
  intros Hext. revert s. induction l as [|x l IH]; intros s; simpl; [done|].
  rewrite Hext. destruct (body' x s); [apply IH|done].
Qed.

(** A loop that ends keeps an invariant indexed by the items done. *)
Lemma for_invariant (I : list A → S → Prop) l body s s' :
  I [] s →
  (∀ done x rest s1 s2,
      l = done ++ x :: rest → I done s1 → body x s1 = Some s2 →
      I (done ++ [x]) s2) →
  for_ l body s = Some s' → I l s'.
Proof.
  intros Hinit Hstep.
  assert (∀ rest done s1, l = done ++ rest → I done s1 →
                          for_ rest body s1 = Some s' → I l s') as Hgen.
  { induction rest as [|x rest IH]; intros done s1 Hl Hdone Hrun.
    - simpl in Hrun. rewrite app_nil_r in Hl. by simplify_eq.
    - simpl in Hrun. destruct (body x s1) as [s2|] eqn:Hb; [|done].
      apply (IH (done ++ [x]) s2); [by rewrite <-app_assoc| |done].
      by eapply Hstep. }
  by apply (Hgen l [] s).
Qed.

(** A loop whose body cannot fail under the invariant ends. *)
Lemma for_total (I : list A → S → Prop) l body s :
  I [] s →
  (∀ done x rest s1,
      l = done ++ x :: rest → I done s1 →
      ∃ s2, body x s1 = Some s2 ∧ I (done ++ [x]) s2) →
  ∃ s', for_ l body s = Some s' ∧ I l s'.
Proof.
  intros Hinit Hstep.
  assert (∀ rest done s1, l = done ++ rest → I done s1 →
                          ∃ s', for_ rest body s1 = Some s' ∧ I l s') as Hgen.
  { induction rest as [|x rest IH]; intros done s1 Hl Hdone.
    - rewrite app_nil_r in Hl. subst. by exists s1.
    - destruct (Hstep done x rest s1 Hl Hdone) as (s2 & Hb & Hs2).
      simpl. rewrite Hb. apply (IH (done ++ [x])); [|done].
      by rewrite <-app_assoc. }
  by apply (Hgen l [] s).
Qed.

End for_facts.

(** Two nested loops are one loop over the pairs of indices. *)
Lemma for_nested {A B S : Type} (l : list A) (inner : A → list B)
    (body : A → B → S → option S) (s : S) :
  for_ l (λ x, for_ (inner x) (body x)) s
  = for_ (x ← l; pair x <$> inner x) (λ p, body p.1 p.2) s.
Proof.
  revert s. induction l as [|x l IH]; intros s; simpl; [done|].
  rewrite for_app.
  assert (∀ k s, for_ k (body x) s = for_ (pair x <$> k) (λ p, body p.1 p.2) s)
    as Hin.
  { induction k as [|y k IHk]; intros s0; simpl; [done|].
    destruct (body x y s0); [apply IHk|done]. }
  rewrite <-Hin. destruct (for_ (inner x) (body x) s); simpl; [apply IH|done].
Qed.

(** ** Reading and writing matrix cells *)

Lemma mget_mset (m m' : list (list float)) i j v a b :
  mset m i j v = Some m' →
  mget m' a b = if decide (a = i ∧ b = j) then Some v else mget m a b.
Proof.
  unfold mset, mget. intros Hset.
  destruct (m !! i) as [row|] eqn:Hrow; [|done].
  case_decide as Hj; [|done]. simplify_eq.
  assert (i < length m) as Hi by (by eapply lookup_lt_Some).
  destruct (decide (a = i)) as [->|Hai].
  - rewrite list_lookup_insert_eq by done.
    destruct (decide (b = j)) as [->|Hbj].
    + rewrite list_lookup_insert_eq by done. by rewrite decide_True.
    + rewrite list_lookup_insert_ne by done. rewrite Hrow.
      rewrite decide_False; [done|]. intros [_ ?]; done.
  - rewrite list_lookup_insert_ne by done.
    rewrite decide_False; [done|]. intros [? _]; done.
Qed.

Lemma mget_Forall (P : float → Prop) (m : list (list float)) :
  Forall (Forall P) m → ∀ i j x, mget m i j = Some x → P x.
Proof.
  intros Hm i j x. unfold mget.
  destruct (m !! i) as [row|] eqn:Hrow; [|done]. intros Hx.
  eapply Forall_lookup_1 in Hm; [|done]. by eapply Forall_lookup_1 in Hm.
Qed.

Lemma mset_square n (m : list (list float)) i j v :
  square n m → i < n → j < n →
  ∃ m', mset m i j v = Some m' ∧ square n m'.
Proof.
  intros [Hlen Hrows] Hi Hj. unfold mset.
  destruct (m !! i) as [row|] eqn:Hrow.
  - assert (length row = n) as Hr.
    { eapply Forall_forall in Hrows; [done|]. by eapply list_elem_of_lookup_2. }
    rewrite decide_True by lia. eexists; split; [done|]. split.
    + by rewrite length_insert.
    + apply Forall_insert; [done|]. by rewrite length_insert.
  - apply lookup_ge_None in Hrow. lia.
Qed.

Lemma mget_square n (m : list (list float)) i j :
  square n m → i < n → j < n → is_Some (mget m i j).
Proof.
  intros [Hlen Hrows] Hi Hj. unfold mget.
  destruct (m !! i) as [row|] eqn:Hrow.
  - assert (length row = n) as Hr.
    { eapply Forall_forall in Hrows; [done|]. by eapply list_elem_of_lookup_2. }
    apply lookup_lt_is_Some. lia.
  - apply lookup_ge_None in Hrow. lia.
Qed.

Lemma mset_preserves_square n (m m' : list (list float)) i j v :
  square n m → mset m i j v = Some m' → square n m'.
Proof.
  intros [Hlen Hrows]. unfold mset.
  destruct (m !! i) as [row|] eqn:Hrow; [|done].
  case_decide; [|done]. intros [= <-]. split.
  - by rewrite length_insert.
  - apply Forall_insert; [done|]. rewrite length_insert.
    eapply Forall_forall in Hrows; [done|]. by eapply list_elem_of_lookup_2.
Qed.

(** ** The transform phase *)

Lemma elem_of_lower_pairs n i j : (i, j) ∈ lower_pairs n ↔ j < i < n.
Proof.
  unfold lower_pairs. rewrite list_elem_of_bind. split.
  - intros (i' & Hin & Hi'). apply list_elem_of_fmap in Hin as (j' & [= -> ->] & Hj').
    apply elem_of_seq in Hi', Hj'. lia.
  - intros [Hj Hi]. exists i. split; [|apply elem_of_seq; lia].
    apply list_elem_of_fmap. exists j. split; [done|]. apply elem_of_seq. lia.
Qed.

Lemma NoDup_lower_pairs n : NoDup (lower_pairs n).
Proof.
  unfold lower_pairs. apply NoDup_bind.
  - intros i1 i2 p _ _ Hp1 Hp2.
    apply list_elem_of_fmap in Hp1 as (j1 & -> & _).
    apply list_elem_of_fmap in Hp2 as (j2 & [= ? ?] & _). done.
  - intros i _. apply NoDup_fmap_2; [|apply NoDup_seq].
    intros ?? [= ?]; done.
  - apply NoDup_seq.
Qed.

Section Transform_facts.

Variable ln : Qc → Qc.

Lemma complete_cell_with_loop n rd first raw (m0 : list (list float)) mx0 :
  square n m0 →
  (∀ a b, a < n → b < n → mget m0 a b = Some (first a b)) →
  (∀ m' i j, i < n → j < n → mget m' i j = Some (first i j) →
             rd m' i j = Some (raw i j)) →
  ∃ s, for_ (lower_pairs n) (λ p, complete_cell_with ln rd p.1 p.2) (m0, mx0)
       = Some s
       ∧ transformed ln n first raw (lower_pairs n) s.
Proof.
  intros Hsq Hfirst Hrd.
  apply (for_total (transformed ln n first raw)).
  - split; [done|]. intros a b Ha Hb. cbn [fst]. rewrite Hfirst by done.
    case_decide as H; [|done]. destruct H as [H|H]; inversion H.
  - intros done [i j] rest [m mx] Hl [Hsqm Hcells]. simpl in *.
    assert ((i, j) ∈ lower_pairs n) as Hij.
    { rewrite Hl. apply elem_of_app. right. left. }
    apply elem_of_lower_pairs in Hij.
    pose proof (NoDup_lower_pairs n) as Hnd. rewrite Hl in Hnd.
    apply NoDup_app in Hnd as (_ & Hnotin & _).
    assert ((i, j) ∉ done) as Hnew.
    { intros Hin. apply (Hnotin _ Hin). left. }
    assert ((j, i) ∉ done) as Hnew'.
    { intros Hin. assert ((j, i) ∈ lower_pairs n) as Hji.
      { rewrite Hl. apply elem_of_app. by left. }
      apply elem_of_lower_pairs in Hji. lia. }
    assert (mget m i j = Some (first i j)) as Hmij.
    { rewrite Hcells by lia. rewrite decide_False; [done|]. intros [?|?]; done. }
    assert (mget m j i = Some (first j i)) as Hmji.
    { rewrite Hcells by lia. rewrite decide_False; [done|]. intros [?|?]; done. }
    rewrite (Hrd m i j) by (done || lia). rewrite (Hrd m j i) by (done || lia).
    set (v := F.neg (np_log ln (F.add (raw i j) (raw j i)))).
    destruct (mset_square n m i j v Hsqm) as (m1 & Hm1 & Hsq1); [lia..|].
    rewrite Hm1. rewrite (mget_mset _ _ _ _ _ _ _ Hm1).
    rewrite decide_True by done.
    destruct (mset_square n m1 j i v Hsq1) as (m2 & Hm2 & Hsq2); [lia..|].
    rewrite Hm2. rewrite (mget_mset _ _ _ _ _ _ _ Hm2).
    rewrite decide_False by lia.
    rewrite (mget_mset _ _ _ _ _ _ _ Hm1). rewrite decide_True by done.
    eexists; split; [done|]. split; [done|]. simpl.
    intros a b Ha Hb.
    rewrite (mget_mset _ _ _ _ _ _ _ Hm2), (mget_mset _ _ _ _ _ _ _ Hm1).
    assert (log_distance ln raw i j = v) as Hv1.
    { unfold log_distance, v. by rewrite Nat.max_l, Nat.min_r by lia. }
    assert (log_distance ln raw j i = v) as Hv2.
    { unfold log_distance, v. by rewrite Nat.max_r, Nat.min_l by lia. }
    destruct (decide (a = j ∧ b = i)) as [[-> ->]|Hne1].
    { rewrite decide_True; [by rewrite Hv2|].
      right. apply elem_of_app. right. left. }
    destruct (decide (a = i ∧ b = j)) as [[-> ->]|Hne2].
    { rewrite decide_True; [by rewrite Hv1|].
      left. apply elem_of_app. right. left. }
    rewrite Hcells by done. f_equal.
    apply decide_ext. rewrite !elem_of_app, !list_elem_of_singleton.
    split; intros [H|H]; try tauto; destruct H as [H|H]; try tauto;
      simplify_eq; tauto.
Qed.

(** What the invariant gives once every pair has been visited. *)
Lemma transformed_all n first raw s a b :
  transformed ln n first raw (lower_pairs n) s → a < n → b < n →
  mget s.1 a b
  = Some (if decide (a = b) then first a a else log_distance ln raw a b).
Proof.
  intros [_ Hcells] Ha Hb. rewrite Hcells by done. f_equal.
  destruct (decide (a = b)) as [->|Hne].
  - rewrite decide_False; [done|].
    rewrite !elem_of_lower_pairs. lia.
  - rewrite decide_True; [done|].
    rewrite !elem_of_lower_pairs. lia.
Qed.

Lemma log_distance_sym raw a b :
  log_distance ln raw a b = log_distance ln raw b a.
Proof. unfold log_distance. by rewrite (Nat.max_comm a b), (Nat.min_comm a b). Qed.

Lemma log_distance_lower raw i j :
  j < i →
  log_distance ln raw i j = F.neg (np_log ln (F.add (raw i j) (raw j i))).
Proof. intros Hji. unfold log_distance. by rewrite Nat.max_l, Nat.min_r by lia. Qed.

Lemma mget_cell_of n (m : list (list float)) i j :
  square n m → i < n → j < n → mget m i j = Some (cell_of m i j).
Proof.
  intros Hsq Hi Hj. unfold cell_of.
  by destruct (mget_square n m i j Hsq Hi Hj) as [v ->].
Qed.

(** The transform in place, on one square matrix. *)
Lemma complete_in_place_spec n (m : list (list float)) :
  square n m →
  ∃ m' max_og,
    complete_in_place ln m = Some (m', max_og)
    ∧ square n m'
    ∧ ∀ a b, a < n → b < n →
        mget m' a b
        = Some (if decide (a = b) then cell_of m a a
                else log_distance ln (cell_of m) a b).
Proof.
  intros Hsq. unfold complete_in_place. rewrite for_nested.
  destruct Hsq as [Hlen Hrows]. rewrite Hlen. fold (lower_pairs n).
  destruct (complete_cell_with_loop n mget (cell_of m) (cell_of m) m F.neg_big)
    as ([m' mx] & Hrun & Hinv).
  - done.
  - intros a b Ha Hb. by eapply mget_cell_of.
  - intros m0 i j _ _ H. done.
  - exists m', mx. split; [|split].
    + rewrite <-Hrun. apply for_ext. intros [i j] [m0 mx0]. reflexivity.
    + apply Hinv.
    + intros a b Ha Hb. by apply (transformed_all n _ _ (m', mx)).
Qed.




End Transform_facts.

(** ** The serializer *)

Lemma mapM_pure {A B : Type} (f : A → option B) (g : A → B) (l : list A) :
  (∀ x, x ∈ l → f x = Some (g x)) → mapM f l = Some (g <$> l).
Proof.
  intros Hf. apply mapM_Some_2. induction l as [|x l IH]; simpl.
  - constructor.
  - constructor; [apply Hf; left|]. apply IH. intros y Hy. apply Hf. by right.
Qed.

Lemma phylip_row_values_spec n (m : list (list float)) i max_og :
  square n m → i < n →
  phylip_row_values m n i max_og
  = Some ((λ j, floor_sliver (resolve max_og (cell_of m i j))) <$> seq 0 n).
Proof.
  intros Hsq Hi. unfold phylip_row_values.
  rewrite (mapM_pure _ (λ j, resolve max_og (cell_of m i j))).
  - by rewrite <-list_fmap_compose.
  - intros j [_ Hj]%elem_of_seq. by rewrite (mget_cell_of n) by (done || lia).
Qed.

Lemma WritePhylipMatrix_spec n (m : list (list float)) names max_og :
  square n m → length names = n →
  WritePhylipMatrix m names max_og
  = Some (phylip_text n (λ i, default "" (names !! i))
            (λ i j, floor_sliver
                      (resolve (F.mul F.one_point_one max_og) (cell_of m i j)))).
Proof.
  intros Hsq Hnames. unfold WritePhylipMatrix, phylip_text.
  destruct Hsq as [Hlen Hrows]. rewrite Hlen.
  erewrite mapM_pure; [done|].
  intros i [_ Hi]%elem_of_seq. simpl in Hi.
  destruct (lookup_lt_is_Some_2 names i) as [name Hname]; [lia|].
  rewrite Hname. simpl.
  by rewrite (phylip_row_values_spec n) by done.
Qed.

(** ** [enumerate] *)

Lemma enumerate_lookup {A : Type} (l : list A) i :
  enumerate l !! i = pair i <$> l !! i.
Proof. unfold enumerate. apply list_lookup_imap. Qed.


Lemma elem_of_enumerate {A : Type} (l : list A) k x :
  (k, x) ∈ enumerate l ↔ l !! k = Some x.
Proof.
  rewrite list_elem_of_lookup. split.
  - intros [i Hi]. rewrite enumerate_lookup in Hi.
    destruct (l !! i) eqn:?; simplify_eq/=. done.
  - intros Hk. exists k. rewrite enumerate_lookup. by rewrite Hk.
Qed.


Section Finalize_facts.

Variable ln : Qc → Qc.




End Finalize_facts.


(** ** The values [WritePhylipMatrix] writes *)

Lemma floor_sliver_never_between v :
  F.ltb F.zero (floor_sliver v) && F.ltb (floor_sliver v) F.sliver = false.
Proof.
  unfold floor_sliver.
  destruct (F.ltb F.zero v && F.ltb v F.sliver) eqn:Hv; [|done].
  unfold F.sliver at 2 3. simpl. rewrite Qcltb_irrefl.
  by rewrite ?andb_false_r.
Qed.

Lemma floor_sliver_NInf v : floor_sliver v = NInf → v = NInf.
Proof.
  unfold floor_sliver.
  destruct (F.ltb F.zero v && F.ltb v F.sliver); [done|done].
Qed.

Lemma resolve_not_NInf max_og x :
  max_og ≠ NInf → resolve (F.mul F.one_point_one max_og) x ≠ NInf.
Proof.
  intros Hmax. unfold resolve.
  destruct (F.gtb x F.neg_big) eqn:Hx.
  - destruct x; try done.
  - destruct max_og; try done.
Qed.

Lemma string_length_app (s1 s2 : string) :
  String.length (s1 +:+ s2) = String.length s1 + String.length s2.
Proof. induction s1 as [|c s1 IH]; simpl; [done|]. by rewrite IH. Qed.

Lemma length_digits width n : String.length (digits width n) = width.
Proof.
  revert n. induction width as [|w IH]; intros n; simpl; [done|].
  rewrite string_length_app, IH.
  assert (0 ≤ n mod 10 < 10)%Z as Hd by (apply Z.mod_pos_bound; lia).
  assert (∃ k : nat, k < 10 ∧ Z.to_N (n mod 10) = N.of_nat k) as (k & Hk & ->).
  { exists (Z.to_nat (n mod 10)). split; lia. }
  do 10 (destruct k as [|k]; [simpl; lia|]). lia.
Qed.

Lemma max_keeps_number mx d :
  mx ≠ NInf → mx ≠ NaN → F.max mx d ≠ NInf ∧ F.max mx d ≠ NaN.
Proof.
  intros H1 H2. unfold F.max, F.gtb.
  destruct (F.ltb mx d) eqn:Hlt; [|done].
  destruct mx, d; done.
Qed.

(** The [max_og] that [CompleteAndWriteOGMatrices] hands to
    [WritePhylipMatrix] is a number or plus infinity. *)
Lemma complete_in_place_max_og ln (m m' : list (list float)) mx :
  complete_in_place ln m = Some (m', mx) → mx ≠ NInf ∧ mx ≠ NaN.
Proof.
  unfold complete_in_place. rewrite for_nested.
  apply (for_invariant (λ _ s, s.2 ≠ NInf ∧ s.2 ≠ NaN)); [done|].
  intros _ [i j] _ [m1 mx1] [m2 mx2] _ [H1 H2] Hbody. simpl in *.
  repeat case_match; simplify_eq. by apply max_keeps_number.
Qed.

Lemma digit_of_pretty_N_char (d : N) :
  (d < 10)%N → digit_of (pretty_N_char d) = Some d.
Proof.
  intros Hd.
  assert (d = 0 ∨ d = 1 ∨ d = 2 ∨ d = 3 ∨ d = 4 ∨ d = 5 ∨ d = 6 ∨ d = 7
          ∨ d = 8 ∨ d = 9)%N as Hcases by lia.
  repeat (destruct Hcases as [->|Hcases]; [reflexivity|]).
  by subst.
Qed.

Lemma read_digits_from_app acc s1 s2 :
  read_digits_from acc (s1 +:+ s2)
  = match read_digits_from acc s1 with
    | Some a => read_digits_from a s2
    | None => None
    end.
Proof.
  revert acc. induction s1 as [|c s1 IH]; intros acc; [done|].
  change (read_digits_from acc (String c (s1 +:+ s2))
          = match read_digits_from acc (String c s1) with
            | Some a => read_digits_from a s2
            | None => None
            end).
  simpl. destruct (digit_of c); [apply IH|done].
Qed.

Lemma string_app_assoc (s1 s2 s3 : string) :
  (s1 +:+ s2) +:+ s3 = s1 +:+ (s2 +:+ s3).
Proof.
  induction s1 as [|c s1 IH]; [done|].
  change (String c ((s1 +:+ s2) +:+ s3) = String c (s1 +:+ s2 +:+ s3)).
  by rewrite IH.
Qed.

Lemma string_app_nil_r (s : string) : s +:+ "" = s.
Proof.
  induction s as [|c s IH]; [done|].
  change (String c (s +:+ "") = String c s). by rewrite IH.
Qed.

(** The digits that [pretty] puts in front of [s] stand for [x]. *)
Lemma pretty_N_go_digits (x : N) (s : string) :
  ∃ t, pretty_N_go x s = t +:+ s
       ∧ ((0 < x)%N → t ≠ "")
       ∧ ∀ acc, read_digits_from acc t
                = Some (acc * 10 ^ N.of_nat (String.length t) + x)%N.
Proof.
  revert s. induction (N.lt_wf_0 x) as [x _ IH]; intros s.
  destruct (decide (x = 0%N)) as [->|Hx].
  - exists "". rewrite pretty_N_go_0. split; [done|]. split; [lia|].
    intros acc. simpl. f_equal. lia.
  - rewrite pretty_N_go_step by lia.
    destruct (IH (x `div` 10)%N ltac:(apply N.div_lt; lia)
                (String (pretty_N_char (x `mod` 10)) s))
      as (t & Ht & _ & Hread).
    exists (t +:+ String (pretty_N_char (x `mod` 10)) "").
    split; [by rewrite Ht, string_app_assoc|]. split.
    + intros _. destruct t; done.
    + intros acc. rewrite read_digits_from_app, Hread. simpl.
      rewrite digit_of_pretty_N_char by (apply N.mod_lt; lia).
      f_equal. rewrite string_length_app. simpl.
      replace (N.of_nat (String.length t + 1))
        with (N.succ (N.of_nat (String.length t))) by lia.
      rewrite N.pow_succ_r'.
      pose proof (N.div_mod x 10 ltac:(lia)) as Hdm. lia.
Qed.

(** What [pretty] writes for a natural number reads back as the number. *)
Lemma read_digits_pretty (x : N) : read_digits (pretty x) = Some x.
Proof.
  unfold pretty, pretty_N. case_decide as Hx; [by subst|].
  destruct (pretty_N_go_digits x "") as (t & Ht & Hne & Hread).
  rewrite string_app_nil_r in Ht. rewrite Ht.
  unfold read_digits. destruct t as [|c t]; [by destruct Hne; [lia|]|].
  by rewrite Hread.
Qed.

Lemma pretty_digit (d : N) :
  (d < 10)%N → pretty d = String (pretty_N_char d) "".
Proof.
  intros Hd.
  assert (d = 0 ∨ d = 1 ∨ d = 2 ∨ d = 3 ∨ d = 4 ∨ d = 5 ∨ d = 6 ∨ d = 7
          ∨ d = 8 ∨ d = 9)%N as Hcases by lia.
  repeat (destruct Hcases as [->|Hcases]; [reflexivity|]).
  by subst.
Qed.

(** The [width] digits of [digits] stand for the number modulo
    [10 ^ width]. *)
Lemma read_digits_from_digits (width : nat) (n : Z) (acc : N) :
  (0 ≤ n)%Z →
  read_digits_from acc (digits width n)
  = Some (acc * 10 ^ N.of_nat width
          + Z.to_N (n `mod` 10 ^ Z.of_nat width))%N.
Proof.
  revert n acc. induction width as [|w IH]; intros n acc Hn.
  - simpl. f_equal. rewrite Z.mod_1_r. lia.
  - simpl digits. rewrite read_digits_from_app, IH by (apply Z.div_pos; lia).
    assert (0 ≤ n `mod` 10 < 10)%Z as Hd by (apply Z.mod_pos_bound; lia).
    rewrite pretty_digit by lia. simpl.
    rewrite digit_of_pretty_N_char by lia. f_equal.
    replace (N.of_nat (S w)) with (N.succ (N.of_nat w)) by lia.
    rewrite N.pow_succ_r'.
    replace (Z.of_nat (S w)) with (Z.succ (Z.of_nat w)) by lia.
    rewrite Z.pow_succ_r by lia.
    assert (0 < 10 ^ Z.of_nat w)%Z as Hp by (apply Z.pow_pos_nonneg; lia).
    rewrite (Z.rem_mul_r n 10 (10 ^ Z.of_nat w)) by lia.
    assert (0 ≤ (n `div` 10) `mod` 10 ^ Z.of_nat w)%Z
      by (apply Z.mod_pos_bound; lia).
    lia.
Qed.

(** ** The text of a number *)

Lemma round_half_even_nearest (x : Q) :
  (Qabs (inject_Z (round_half_even x) - x) <= 1 # 2)%Q.
Proof.
  destruct x as [n d]. unfold round_half_even. simpl.
  pose proof (Z.div_mod n (Z.pos d) ltac:(lia)) as Hdm.
  pose proof (Z.mod_pos_bound n (Z.pos d) ltac:(lia)) as Hr.
  set (k := (n `div` Z.pos d)%Z) in *. set (r := (n `mod` Z.pos d)%Z) in *.
  clearbody k r.
  assert (∀ z e : Z, (z * Z.pos d - n)%Z = e → (Z.abs e * 2 ≤ Z.pos d)%Z →
            (Qabs (inject_Z z - (n # d)) <= 1 # 2)%Q) as Hle.
  { intros z e <- Hz. unfold Qle, Qabs, Qminus, Qplus, Qopp, inject_Z. simpl.
    rewrite Pos.mul_1_l.
    replace (z * Z.pos d + - n * 1)%Z with (z * Z.pos d - n)%Z by lia. lia. }
  destruct (2 * r ?= Z.pos d)%Z eqn:Hcmp.
  - apply Z.compare_eq in Hcmp. destruct (Z.even k).
    + apply (Hle k (- r)%Z); [subst n; ring|lia].
    + apply (Hle (k + 1)%Z (Z.pos d - r)%Z); [subst n; ring|lia].
  - rewrite Z.compare_lt_iff in Hcmp.
    apply (Hle k (- r)%Z); [subst n; ring|lia].
  - rewrite Z.compare_gt_iff in Hcmp.
    apply (Hle (k + 1)%Z (Z.pos d - r)%Z); [subst n; ring|lia].
Qed.

Lemma round_half_even_nonneg (x : Q) :
  (0 <= x)%Q → (0 ≤ round_half_even x)%Z.
Proof.
  destruct x as [n d]. unfold Qle, round_half_even. simpl. intros Hn.
  assert (0 ≤ n `div` Z.pos d)%Z by (apply Z.div_pos; lia).
  destruct (2 * (n `mod` Z.pos d) ?= Z.pos d)%Z; [|lia..].
  destruct (Z.even _); lia.
Qed.

(** A number at least 1 is not rounded to 0. *)
Lemma round_half_even_ge_1 (x : Q) :
  (1 <= x)%Q → (1 ≤ round_half_even x)%Z.
Proof.
  destruct x as [n d]. unfold Qle, round_half_even. simpl. intros Hn.
  assert (1 ≤ n `div` Z.pos d)%Z.
  { apply Z.div_le_lower_bound; lia. }
  destruct (2 * (n `mod` Z.pos d) ?= Z.pos d)%Z; [|lia..].
  destruct (Z.even _); lia.
Qed.

Lemma string_app_cons c (s1 s2 : string) :
  String c s1 +:+ s2 = String c (s1 +:+ s2).
Proof. reflexivity. Qed.

(** ["%.6f"] of a number: an optional minus sign, the digits of the whole
    part, a point and six digits; read as one integer, the digits are the
    number times [10^6] rounded to the nearest integer. *)
Lemma fmt6_Fin (q : Qc) :
  ∃ (whole decimals : string) (a b : N),
    fmt6 (Fin q)
    = (if Qcltb q 0 then "-" else "") +:+ whole +:+ "." +:+ decimals
    ∧ read_digits whole = Some a
    ∧ String.length decimals = 6 ∧ read_digits decimals = Some b
    ∧ Z.of_N (a * 1000000 + b) = round_half_even (Qabs q * 1000000)
    ∧ (Qabs (inject_Z (round_half_even (Qabs q * 1000000))
             - Qabs q * 1000000) <= 1 # 2)%Q.
Proof.
  set (scaled := round_half_even (Qabs q * 1000000)).
  assert (0 ≤ scaled)%Z as Hscaled.
  { apply round_half_even_nonneg. apply Qmult_le_0_compat; [|done].
    apply Qabs_nonneg. }
  exists (pretty (Z.to_N (scaled `div` 1000000))),
         (digits 6 (scaled `mod` 1000000)),
         (Z.to_N (scaled `div` 1000000)), (Z.to_N (scaled `mod` 1000000)).
  split; [reflexivity|]. split; [apply read_digits_pretty|].
  split; [apply length_digits|]. split; [|split].
  - pose proof (length_digits 6 (scaled `mod` 1000000)) as Hlen.
    pose proof (read_digits_from_digits 6 (scaled `mod` 1000000) 0
                  ltac:(apply Z.mod_pos_bound; lia)) as Hread.
    destruct (digits 6 (scaled `mod` 1000000)) as [|c s] eqn:Hd; [done|].
    unfold read_digits. rewrite Hread. f_equal.
    change (10 ^ Z.of_nat 6)%Z with 1000000%Z.
    rewrite Z.mod_mod by lia. lia.
  - clearbody scaled.
    pose proof (Z.div_mod scaled 1000000 ltac:(lia)).
    pose proof (Z.mod_pos_bound scaled 1000000 ltac:(lia)).
    assert (0 ≤ scaled `div` 1000000)%Z by (apply Z.div_pos; lia).
    rewrite N2Z.inj_add, N2Z.inj_mul, !Z2N.id by lia. lia.
  - apply round_half_even_nearest.
Qed.

Lemma read_digits_first c s a :
  read_digits (String c s) = Some a → is_Some (digit_of c).
Proof.
  unfold read_digits. simpl. destruct (digit_of c); [eauto|done].
Qed.

(** Only minus infinity is written ["-inf"]. *)
Lemma fmt6_minus_inf v : fmt6 v = "-inf" → v = NInf.
Proof.
  destruct v as [| |q|]; [done|done| |done].
  destruct (fmt6_Fin q) as (whole & decimals & a & b & -> & Hw & _).
  destruct whole as [|c whole]; [done|].
  apply read_digits_first in Hw as [d Hd]. intros Htext. exfalso.
  destruct (Qcltb q 0).
  - rewrite string_app_cons in Htext.
    change ("" +:+ ?s) with s in Htext. rewrite string_app_cons in Htext.
    injection Htext as Hc _. subst c. vm_compute in Hd. discriminate Hd.
  - change ("" +:+ ?s) with s in Htext. rewrite string_app_cons in Htext.
    injection Htext as Hc _. subst c. vm_compute in Hd. discriminate Hd.
Qed.

(** A positive number that is at least [1e-6] is not written as zero: its
    digits stand for an integer that is at least 1. *)
Lemma scaled_ge_1 (q : Qc) :
  (Q2Qc 1e-6 ≤ q)%Qc → (1 ≤ round_half_even (Qabs q * 1000000))%Z.
Proof.
  intros Hq. apply round_half_even_ge_1.
  destruct q as [[n d] Hcanon]. unfold Qcle, Qle in Hq. simpl in Hq.
  unfold Qle, Qabs, Qmult. simpl. lia.
Qed.

(** The value written is never strictly between [0] and [1e-6]: when it is
    a positive number, it is at least [1e-6]. *)
Lemma floor_sliver_positive v (q : Qc) :
  floor_sliver v = Fin q → (0 < q)%Qc → (Q2Qc 1e-6 ≤ q)%Qc.
Proof.
  intros Hv Hq. pose proof (floor_sliver_never_between v) as Hnb.
  rewrite Hv in Hnb. unfold F.ltb, F.zero, F.sliver in Hnb.
  apply andb_false_iff in Hnb as [Hnb|Hnb].
  - apply Qcltb_ge in Hnb. by apply Qcle_not_lt in Hnb.
  - by apply Qcltb_ge in Hnb.
Qed.

(** The file that [WritePhylipMatrix] writes, character by character: the
    dimension, then for every row its label, a space, the values of the row
    formatted by ["%.6f"] and separated by single spaces, and a line feed. *)
Lemma WritePhylipMatrix_text n (m : list (list float)) names max_og :
  square n m → length names = n →
  WritePhylipMatrix m names max_og
  = Some (pretty n +:+ nl
          +:+ String.concat ""
                ((λ i, default "" (names !! i) +:+ " "
                       +:+ String.concat " "
                             (fmt6 <$> ((λ j, floor_sliver
                                 (resolve (F.mul F.one_point_one max_og)
                                          (cell_of m i j))) <$> seq 0 n))
                       +:+ nl) <$> seq 0 n)).
Proof. intros Hsq Hnames. by rewrite (WritePhylipMatrix_spec n). Qed.

Lemma inf_has_no_point (s1 s2 : string) : "inf" ≠ s1 +:+ "." +:+ s2.
Proof.
  destruct s1 as [|c1 [|c2 [|c3 [|c4 s1]]]];
    rewrite ?string_app_cons; change ("" +:+ ?s) with s;
    rewrite ?string_app_cons; intros H; injection H; intros; discriminate.
Qed.

(** C5, as the code has it.  For a square matrix and as many labels,
    [WritePhylipMatrix] writes the dimension and then one line per row: the
    label, a space, and the values of the row formatted by ["%.6f"] and
    separated by single spaces.  The value written for the cell
    [x = m[i][j]] is obtained by these substitutions, in this order: [x] not
    greater than [-9e99] is replaced by [1.1 * max_og]; a result strictly
    between [0] and [1e-6] is replaced by [1e-6].  So no written value lies
    strictly between [0] and [1e-6] (a positive number is at least [1e-6],
    and the integer its digits stand for is at least 1), and none is minus
    infinity, nor written ["-inf"], unless [max_og] itself is, which the
    [max_og] of [CompleteAndWriteOGMatrices] never is.  A number is written
    in six-decimal form: an optional minus sign, the digits of the whole
    part, a point and six digits, which together stand for the number times
    [10^6] rounded to the nearest integer.  Plus infinity, minus infinity
    and not-a-number are written ["inf"], ["-inf"] and ["nan"]. *)
Theorem WritePhylipMatrix_substitutions n (m : list (list float))
    (names : list string) (max_og : float) :
  square n m → length names = n →
  ∃ V : nat → nat → float,
    WritePhylipMatrix m names max_og
    = Some (pretty n +:+ nl
            +:+ String.concat ""
                  ((λ i, default "" (names !! i) +:+ " "
                         +:+ String.concat " " (fmt6 <$> (V i <$> seq 0 n))
                         +:+ nl) <$> seq 0 n))
    ∧ (∀ i j x, i < n → j < n → mget m i j = Some x →
         let y := if F.gtb x F.neg_big then x
                  else F.mul F.one_point_one max_og in
         let v := F.add F.zero y in
         V i j = (if F.ltb F.zero v && F.ltb v F.sliver then F.sliver else v)
         ∧ F.ltb F.zero (V i j) && F.ltb (V i j) F.sliver = false
         ∧ (max_og ≠ NInf → V i j ≠ NInf ∧ fmt6 (V i j) ≠ "-inf")
         ∧ (∀ qx qm, x = Fin qx → max_og = Fin qm → ∃ q, V i j = Fin q)
         ∧ (∀ q, V i j = Fin q → (0 < q)%Qc →
              (Q2Qc 1e-6 ≤ q)%Qc
              ∧ (1 ≤ round_half_even (Qabs q * 1000000))%Z))
    ∧ (∀ ln m0 m' mx, complete_in_place ln m0 = Some (m', mx) → mx ≠ NInf)
    ∧ (∀ q : Qc, ∃ (whole decimals : string) (a b : N),
         fmt6 (Fin q)
         = (if Qcltb q 0 then "-" else "") +:+ whole +:+ "." +:+ decimals
         ∧ read_digits whole = Some a
         ∧ String.length decimals = 6 ∧ read_digits decimals = Some b
         ∧ Z.of_N (a * 1000000 + b) = round_half_even (Qabs q * 1000000)
         ∧ (Qabs (inject_Z (round_half_even (Qabs q * 1000000))
                  - Qabs q * 1000000) <= 1 # 2)%Q)
    ∧ fmt6 PInf = "inf" ∧ fmt6 NInf = "-inf" ∧ fmt6 NaN = "nan".
Proof.
  intros Hsq Hnames.
  exists (λ i j, floor_sliver
                   (resolve (F.mul F.one_point_one max_og) (cell_of m i j))).
  split; [by apply WritePhylipMatrix_text|]. split; [|split; [|split]].
  - intros i j x Hi Hj Hx y v. unfold cell_of. rewrite Hx. simpl.
    split; [done|]. split; [apply floor_sliver_never_between|].
    assert (max_og ≠ NInf →
            floor_sliver (resolve (F.mul F.one_point_one max_og) x) ≠ NInf)
      as Hninf.
    { intros Hmax Hninf. apply floor_sliver_NInf in Hninf.
      by apply resolve_not_NInf in Hninf. }
    split; [|split].
    + intros Hmax. split; [by apply Hninf|].
      intros Htext%fmt6_minus_inf. by apply Hninf.
    + intros qx qm -> ->. unfold floor_sliver, resolve.
      destruct (F.gtb (Fin qx) F.neg_big); simpl;
        case_match; unfold F.sliver; eauto.
    + intros q Hq Hpos.
      pose proof (floor_sliver_positive _ _ Hq Hpos) as Hge.
      split; [exact Hge|]. by apply scaled_ge_1.
  - intros ln m0 m' mx Hc. by apply complete_in_place_max_og in Hc as [? _].
  - apply fmt6_Fin.
  - done.
Qed.

Lemma WritePhylipMatrix_substitutions_witness :
  square 2 [[F.zero; NInf]; [Fin (Q2Qc 1e-7); Fin (Q2Qc 0.25)]]
  ∧ length ["0_0"; "1_0"] = 2
  ∧ WritePhylipMatrix [[F.zero; NInf]; [Fin (Q2Qc 1e-7); Fin (Q2Qc 0.25)]]
      ["0_0"; "1_0"] (Fin (Q2Qc 2))
    = Some ("2" +:+ nl +:+ "0_0 0.000000 2.200000" +:+ nl
            +:+ "1_0 0.000001 0.250000" +:+ nl).
Proof.
  assert (square 2 [[F.zero; NInf]; [Fin (Q2Qc 1e-7); Fin (Q2Qc 0.25)]])
    as Hsq.
  { split; [done|]. by repeat constructor. }
  split; [done|]. split; [done|].
  destruct (WritePhylipMatrix_substitutions 2 _ ["0_0"; "1_0"] (Fin (Q2Qc 2))
              Hsq eq_refl) as (V & Htext & Hval & _).
  rewrite Htext.
  destruct (Hval 0 0 F.zero ltac:(lia) ltac:(lia) eq_refl) as [H00 _].
  destruct (Hval 0 1 NInf ltac:(lia) ltac:(lia) eq_refl) as [H01 _].
  destruct (Hval 1 0 (Fin (Q2Qc 1e-7)) ltac:(lia) ltac:(lia) eq_refl)
    as [H10 _].
  destruct (Hval 1 1 (Fin (Q2Qc 0.25)) ltac:(lia) ltac:(lia) eq_refl)
    as [H11 _].
  cbn [fmap list_fmap seq]. rewrite H00, H01, H10, H11.
  vm_compute. reflexivity.
Defined.

(** C5, as the claim has it, fails: a value that is plus infinity is not
    written in six-decimal form but as ["inf"], a text without a point.  The
    program writes it: the gene of species 3 has no hit, so the scatter
    phase fills its row with plus infinity; the transform turns the cells
    off the diagonal into minus infinity, which the writer replaces, and
    leaves the cell of the diagonal, which the writer copies. *)
Lemma gene_without_hit_written_inf :
  (st ← GetOGMatrices_FullParallel scores_last_no_hit [0; 1; 2; 3] one_seq
          [four_genes];
   snd <$> CompleteAndWriteOGMatrices ln_tangent [four_genes] (ogMatrices st))
  = Some [(0, "4" +:+ nl
              +:+ "0_0 0.500000 0.000000 0.000000 0.000000" +:+ nl
              +:+ "1_0 0.000000 0.500000 0.000000 0.000000" +:+ nl
              +:+ "2_0 0.000000 0.000000 0.500000 0.000000" +:+ nl
              +:+ "3_0 0.000000 0.000000 0.000000 inf" +:+ nl)]
  ∧ WritePhylipMatrix [[PInf]] ["0_0"] (Fin (Q2Qc 2))
    = Some ("1" +:+ nl +:+ "0_0 inf" +:+ nl)
  ∧ fmt6 PInf = "inf"
  ∧ ¬ ∃ sign whole decimals : string,
        fmt6 PInf = sign +:+ whole +:+ "." +:+ decimals.
Proof.
  split; [by vm_compute|]. split; [by vm_compute|]. split; [done|].
  intros (sign & whole & decimals & H). simpl in H.
  rewrite <-string_app_assoc in H. by apply inf_has_no_point in H.
Qed.

(** ** The species matrix file *)

Lemma phylip_text_ext n label label' V V' :
  (∀ i, i < n → label i = label' i) →
  (∀ i j, i < n → j < n → V i j = V' i j) →
  phylip_text n label V = phylip_text n label' V'.
Proof.
  intros Hlabel HV. unfold phylip_text. do 3 f_equal.
  apply list_fmap_ext. intros k i [-> Hi]%lookup_seq. simpl.
  rewrite Hlabel by lia. do 3 f_equal. unfold join_values. do 2 f_equal.
  apply list_fmap_ext. intros k' j [-> Hj]%lookup_seq. simpl.
  apply HV; lia.
Qed.

Lemma species_row_values_spec n (M : list (list float)) i :
  square n M → i < n →
  species_row_values M n i
  = Some ((λ j, floor_sliver (F.add F.zero (cell_of M i j))) <$> seq 0 n).
Proof.
  intros Hsq Hi. unfold species_row_values.
  rewrite (mapM_pure _ (λ j, F.add F.zero (cell_of M i j))).
  - by rewrite <-list_fmap_compose.
  - intros j [_ Hj]%elem_of_seq. by rewrite (mget_cell_of n) by (done || lia).
Qed.

Lemma write_species_matrix_spec speciesToUse (M : list (list float)) :
  square (length speciesToUse) M →
  write_species_matrix speciesToUse M
  = Some (phylip_text (length speciesToUse)
            (λ i, default "" ((pretty <$> speciesToUse) !! i))
            (λ i j, floor_sliver (F.add F.zero (cell_of M i j)))).
Proof.
  intros Hsq. unfold write_species_matrix, phylip_text.
  erewrite mapM_pure; [done|].
  intros i [_ Hi]%elem_of_seq. simpl in Hi.
  destruct (lookup_lt_is_Some_2 speciesToUse i) as [sp Hsp]; [lia|].
  rewrite list_lookup_fmap, Hsp. simpl.
  by rewrite (species_row_values_spec (length speciesToUse)) by done.
Qed.

(** C9, as the code has it.  The species matrix is written by a copy of the
    serializer that floors at [1e-6] and formats alike but replaces no
    sentinel: on a square matrix whose values are all greater than [-9e99]
    it writes the very text [WritePhylipMatrix] writes for the same values
    and labels, whatever [max_og] is. *)
Theorem species_writer_agrees_above_sentinel speciesToUse
    (M : list (list float)) (max_og : float) :
  square (length speciesToUse) M →
  (∀ i j x, mget M i j = Some x → F.gtb x F.neg_big = true) →
  is_Some (write_species_matrix speciesToUse M)
  ∧ write_species_matrix speciesToUse M
    = WritePhylipMatrix M (pretty <$> speciesToUse) max_og.
Proof.
  intros Hsq Habove.
  rewrite (WritePhylipMatrix_spec (length speciesToUse))
    by (done || by rewrite length_fmap).
  rewrite write_species_matrix_spec by done. split; [done|]. f_equal.
  apply phylip_text_ext; [done|]. intros i j Hi Hj.
  unfold resolve. rewrite (Habove i j (cell_of M i j)); [done|].
  by eapply mget_cell_of.
Qed.

Lemma species_writer_agrees_above_sentinel_witness :
  square (length [0; 1]) [[F.zero; F.one]; [F.one; F.zero]]
  ∧ (∀ i j x, mget [[F.zero; F.one]; [F.one; F.zero]] i j = Some x →
              F.gtb x F.neg_big = true)
  ∧ write_species_matrix [0; 1] [[F.zero; F.one]; [F.one; F.zero]]
    = WritePhylipMatrix [[F.zero; F.one]; [F.one; F.zero]]
        (pretty <$> [0; 1]) (Fin (Q2Qc 2)).
Proof.
  assert (square (length [0; 1]) [[F.zero; F.one]; [F.one; F.zero]]) as Hsq.
  { split; [done|]. by repeat constructor. }
  assert (∀ i j x, mget [[F.zero; F.one]; [F.one; F.zero]] i j = Some x →
                   F.gtb x F.neg_big = true) as Habove.
  { apply mget_Forall. repeat constructor. }
  split; [done|]. split; [done|].
  apply (species_writer_agrees_above_sentinel [0; 1] _ (Fin (Q2Qc 2)) Hsq Habove).
Defined.

(** C9, as the claim has it, fails: a minus infinity in the matrix is
    written as ["-inf"] to the species file, where [WritePhylipMatrix]
    writes [1.1 * max_og]. *)
Lemma species_writer_keeps_sentinel :
  write_species_matrix [0; 1] [[F.zero; NInf]; [NInf; F.zero]]
  = Some ("2" +:+ nl +:+ "0 0.000000 -inf" +:+ nl +:+ "1 -inf 0.000000" +:+ nl)
  ∧ WritePhylipMatrix [[F.zero; NInf]; [NInf; F.zero]] (pretty <$> [0; 1])
      (Fin (Q2Qc 2))
    = Some ("2" +:+ nl +:+ "0 0.000000 2.200000" +:+ nl
            +:+ "1 2.200000 0.000000" +:+ nl)
  ∧ write_species_matrix [0; 1] [[F.zero; NInf]; [NInf; F.zero]]
    ≠ WritePhylipMatrix [[F.zero; NInf]; [NInf; F.zero]] (pretty <$> [0; 1])
        (Fin (Q2Qc 2)).
Proof.
  split; [by vm_compute|]. split; [by vm_compute|]. by vm_compute.
Qed.

(** ** The trace of the scatter phase *)

Lemma store_trace iog i j v st st' :
  store iog i j v st = Some st' →
  trace st' = trace st ++ [mkWrite iog i j v].
Proof.
  unfold store. intros H. repeat case_match; simplify_eq. done.
Qed.

Lemma bind_singleton_fmap {A B : Type} (f : A → B) (l : list A) :
  l ≫= (λ x, [f x]) = f <$> l.
Proof. induction l as [|x l IH]; csimpl; [done|]. by rewrite IH. Qed.

Section Trace.

Variables mins maxes_inv : list float.

(** A loop whose passes append the writes of their sites appends the
    writes of all the sites, and every site had a value. *)
Lemma for_sites {A : Type} (l : list A)
    (body : A → scatter_state → option scatter_state)
    (sites : A → list site) st st' :
  (∀ x s s', x ∈ l → body x s = Some s' →
             trace s' = trace s ++ (site_write mins maxes_inv <$> sites x)
             ∧ Forall (λ x, is_Some (site_value mins maxes_inv x)) (sites x)) →
  for_ l body st = Some st' →
  trace st' = trace st ++ (site_write mins maxes_inv <$> (l ≫= sites))
  ∧ Forall (λ x, is_Some (site_value mins maxes_inv x)) (l ≫= sites).
Proof.
  revert st. induction l as [|x l IH]; intros st Hbody Hrun; simpl in *.
  - simplify_eq. by rewrite app_nil_r.
  - destruct (body x st) as [s1|] eqn:Hx; [|done].
    destruct (Hbody x st s1 ltac:(left) Hx) as [Ht Hok].
    destruct (IH s1) as [Ht' Hok']; [|done|].
    { intros y s s' Hy. apply Hbody. by right. }
    split.
    + by rewrite Ht', Ht, fmap_app, app_assoc.
    + by apply Forall_app.
Qed.

Lemma unit_loops_trace (ogsPerSpecies : list (list (list (Seq * nat))))
    (iiSp : nat) (Bs : list lil.matrix) st st' :
  for_ (enumerate Bs) (λ '(jjSp, B),
    for_ (enumerate ogsPerSpecies)
      (λ '(iog, og) st1,
        match og !! iiSp with
        | None => None
        | Some row_genes =>
            for_ row_genes (λ '(gi, i) st2,
              match og !! jjSp with
              | None => None
              | Some col_genes =>
                  for_ col_genes (λ '(gj, j) st3,
                    match contribution B mins maxes_inv gi gj with
                    | Some v => store iog i j v st3
                    | None => None
                    end) st2
              end) st1
        end)) st = Some st' →
  trace st' = trace st
              ++ (site_write mins maxes_inv <$> unit_sites ogsPerSpecies iiSp Bs)
  ∧ Forall (λ x, is_Some (site_value mins maxes_inv x))
      (unit_sites ogsPerSpecies iiSp Bs).
Proof.
  apply for_sites. intros [jjSp B] s1 s1' _.
  apply for_sites. intros [iog og] s2 s2' _.
  destruct (og !! iiSp) as [row_genes|] eqn:Hrow; [|done]. simpl.
  unfold sites_of_orthogroup. simpl. rewrite Hrow. simpl.
  apply for_sites. intros [gi i] s3 s3' _.
  destruct (og !! jjSp) as [col_genes|] eqn:Hcol; [|done].
  unfold sites_of_row_gene. rewrite Hcol. simpl.
  intros Hrun.
  eapply (for_sites _ _ (λ cg, [(jjSp, B, iog, (gi, i), cg)])) in Hrun.
  { by rewrite bind_singleton_fmap in Hrun. }
  intros [gj j] s4 s4' _.
  destruct (contribution B mins maxes_inv gi gj) as [v|] eqn:Hv; [|done].
  intros Hst%store_trace. split.
  - rewrite Hst. simpl. by rewrite Hv.
  - constructor; [|done]. simpl. by rewrite Hv.
Qed.

End Trace.

(** ** Where one unit of work writes *)

Lemma elem_of_genes_of_species (og : orthogroup) sp g i :
  (g, i) ∈ genes_of_species og sp ↔ og !! i = Some g ∧ iSp g = sp.
Proof.
  unfold genes_of_species. rewrite list_elem_of_omap. split.
  - intros ([k g'] & Hin & Hsome). apply elem_of_enumerate in Hin.
    case_decide; simplify_eq. done.
  - intros [Hi Hsp]. exists (i, g). split; [by apply elem_of_enumerate|].
    by rewrite decide_True.
Qed.

Lemma lookup_take_make_ogsPerSpecies sps (ogs : list orthogroup) nm iog ogp :
  take nm (make_ogsPerSpecies sps ogs) !! iog = Some ogp
  ↔ iog < nm ∧ ∃ og, ogs !! iog = Some og ∧ ogp = genes_of_species og <$> sps.
Proof.
  rewrite lookup_take_Some. unfold make_ogsPerSpecies.
  rewrite list_lookup_fmap. split.
  - intros [H Hlt]. split; [done|].
    destruct (ogs !! iog) as [og|]; simplify_eq/=. eauto.
  - intros [Hlt (og & -> & ->)]. done.
Qed.

Section Unit_facts.

Variable GetBLAST6Scores : nat → nat → lil.matrix.
Variable speciesToUse : list nat.
Variable nSeqsPerSpecies : nat → nat.
Variable ogs : list orthogroup.

(** The sites of the unit for the species at [iiSp]: one for every column
    species, orthogroup, gene of the unit's species and gene of the column
    species. *)
Lemma elem_of_unit_sites nm iiSp sp1 (x : site) :
  x ∈ unit_sites (take nm (make_ogsPerSpecies speciesToUse ogs)) iiSp
        (read_Bs GetBLAST6Scores speciesToUse sp1)
  ↔ ∃ jjSp sp2 sp_ii iog og gi i gj j,
      x = (jjSp, GetBLAST6Scores sp1 sp2, iog, (gi, i), (gj, j))
      ∧ speciesToUse !! jjSp = Some sp2
      ∧ speciesToUse !! iiSp = Some sp_ii
      ∧ iog < nm ∧ ogs !! iog = Some og
      ∧ og !! i = Some gi ∧ iSp gi = sp_ii
      ∧ og !! j = Some gj ∧ iSp gj = sp2.
Proof.
  unfold unit_sites, read_Bs. rewrite list_elem_of_bind. split.
  - intros ([jjSp B] & Hx & HB). apply elem_of_enumerate in HB.
    rewrite list_lookup_fmap in HB.
    destruct (speciesToUse !! jjSp) as [sp2|] eqn:Hsp2; simplify_eq/=.
    unfold sites_of_species in Hx. simpl in Hx.
    apply list_elem_of_bind in Hx as ([iog ogp] & Hx & Hog).
    apply elem_of_enumerate, lookup_take_make_ogsPerSpecies in Hog
      as (Hlt & og & Hog & ->).
    unfold sites_of_orthogroup in Hx. simpl in Hx.
    rewrite list_lookup_fmap in Hx.
    destruct (speciesToUse !! iiSp) as [sp_ii|] eqn:Hii; simpl in Hx;
      [|by apply elem_of_nil in Hx].
    apply list_elem_of_bind in Hx as ([gi i] & Hx & Hgi).
    apply elem_of_genes_of_species in Hgi as [Hi Hspi].
    unfold sites_of_row_gene in Hx. rewrite list_lookup_fmap, Hsp2 in Hx.
    simpl in Hx. apply list_elem_of_fmap in Hx as ([gj j] & -> & Hgj).
    apply elem_of_genes_of_species in Hgj as [Hj Hspj].
    exists jjSp, sp2, sp_ii, iog, og, gi, i, gj, j. done.
  - intros (jjSp & sp2 & sp_ii & iog & og & gi & i & gj & j
            & -> & Hsp2 & Hii & Hlt & Hog & Hi & Hspi & Hj & Hspj).
    exists (jjSp, GetBLAST6Scores sp1 sp2). split.
    + unfold sites_of_species. simpl. apply list_elem_of_bind.
      exists (iog, genes_of_species og <$> speciesToUse). split.
      * unfold sites_of_orthogroup. simpl. rewrite list_lookup_fmap, Hii. simpl.
        apply list_elem_of_bind. exists (gi, i).
        split; [|by apply elem_of_genes_of_species].
        unfold sites_of_row_gene. rewrite list_lookup_fmap, Hsp2. simpl.
        apply list_elem_of_fmap. exists (gj, j).
        split; [done|]. by apply elem_of_genes_of_species.
      * apply elem_of_enumerate, lookup_take_make_ogsPerSpecies. eauto.
    + apply elem_of_enumerate. by rewrite list_lookup_fmap, Hsp2.
Qed.

(** A unit of work that runs to its end has computed the row extremes and
    made one write per site, each with the value computed there. *)
Lemma unit_of_work_written iiSp sp1 nSeqs_sp1 st st' :
  unit_of_work GetBLAST6Scores speciesToUse
    (make_ogsPerSpecies speciesToUse ogs)
    (iiSp, sp1, nSeqs_sp1) st = Some st' →
  ∃ mins maxes,
    row_extremes nSeqs_sp1 (read_Bs GetBLAST6Scores speciesToUse sp1)
    = Some (mins, maxes)
    ∧ written st st'
      = site_write mins (F.div F.one <$> maxes)
          <$> unit_sites (take (length (ogMatrices st))
                          (make_ogsPerSpecies speciesToUse ogs)) iiSp
                (read_Bs GetBLAST6Scores speciesToUse sp1)
    ∧ Forall (λ x, is_Some (site_value mins (F.div F.one <$> maxes) x))
        (unit_sites (take (length (ogMatrices st))
                          (make_ogsPerSpecies speciesToUse ogs)) iiSp
           (read_Bs GetBLAST6Scores speciesToUse sp1)).
Proof.
  unfold unit_of_work.
  destruct (row_extremes _ _) as [[mins maxes]|]; [|done].
  intros [Ht Hok]%unit_loops_trace. exists mins, maxes.
  split; [done|]. split; [|done].
  unfold written. rewrite Ht. by rewrite drop_app_length.
Qed.

End Unit_facts.

Lemma elem_of_cmd_queue speciesToUse nSeqsPerSpecies iiSp sp1 n :
  (iiSp, sp1, n) ∈ cmd_queue speciesToUse nSeqsPerSpecies
  ↔ speciesToUse !! iiSp = Some sp1 ∧ n = nSeqsPerSpecies sp1.
Proof.
  unfold cmd_queue. rewrite list_elem_of_fmap. split.
  - intros ([k sp] & [= -> -> ->] & Hin). by apply elem_of_enumerate in Hin.
  - intros [Hsp ->]. exists (iiSp, sp1). by rewrite elem_of_enumerate.
Qed.

(** The cells one unit writes: those whose row gene is of its species. *)
Lemma unit_cells GetBLAST6Scores speciesToUse (ogs : list orthogroup)
    iiSp sp1 n st st' iog i j :
  speciesToUse !! iiSp = Some sp1 →
  unit_of_work GetBLAST6Scores speciesToUse
    (make_ogsPerSpecies speciesToUse ogs) (iiSp, sp1, n) st = Some st' →
  (iog, i, j) ∈ cell <$> written st st'
  ↔ ∃ og gi gj, iog < length (ogMatrices st) ∧ ogs !! iog = Some og
                ∧ og !! i = Some gi ∧ iSp gi = sp1
                ∧ og !! j = Some gj ∧ iSp gj ∈ speciesToUse.
Proof.
  intros Hsp1 Hrun.
  destruct (unit_of_work_written _ _ _ _ _ _ _ _ Hrun)
    as (mins & maxes & _ & -> & _).
  rewrite <-list_fmap_compose, list_elem_of_fmap. split.
  - intros (x & Hc & Hx). apply elem_of_unit_sites in Hx
      as (jjSp & sp2 & sp_ii & iog' & og & gi & i' & gj & j'
          & -> & Hsp2 & Hii & Hlt & Hog & Hi & Hspi & Hj & Hspj).
    simpl in Hc. unfold cell in Hc. simpl in Hc. simplify_eq.
    exists og, gi, gj. repeat split; try done.
    by eapply list_elem_of_lookup_2.
  - intros (og & gi & gj & Hlt & Hog & Hi & Hspi & Hj & Hspj).
    apply list_elem_of_lookup in Hspj as [jjSp Hjj].
    exists (jjSp, GetBLAST6Scores sp1 (iSp gj), iog, (gi, i), (gj, j)).
    split; [done|]. apply elem_of_unit_sites.
    exists jjSp, (iSp gj), sp1, iog, og, gi, i, gj, j. done.
Qed.

(** Two units that have run to their end, for distinct species: the cells
    of each are those whose row gene is of its species, and no cell is
    written by both. *)
Lemma unit_cells_disjoint GetBLAST6Scores speciesToUse nSeqsPerSpecies
    (ogs : list orthogroup) iiSp1 s1 n1 iiSp2 s2 n2 st1 st1' st2 st2' :
  (∀ og g, og ∈ ogs → g ∈ og → iSp g ∈ speciesToUse) →
  length (ogMatrices st1) = length ogs →
  (iiSp1, s1, n1) ∈ cmd_queue speciesToUse nSeqsPerSpecies →
  (iiSp2, s2, n2) ∈ cmd_queue speciesToUse nSeqsPerSpecies →
  s1 ≠ s2 →
  unit_of_work GetBLAST6Scores speciesToUse
    (make_ogsPerSpecies speciesToUse ogs) (iiSp1, s1, n1) st1 = Some st1' →
  unit_of_work GetBLAST6Scores speciesToUse
    (make_ogsPerSpecies speciesToUse ogs) (iiSp2, s2, n2) st2 = Some st2' →
  (∀ iog i j,
      (iog, i, j) ∈ cell <$> written st1 st1'
      ↔ ∃ og gi, ogs !! iog = Some og ∧ og !! i = Some gi ∧ iSp gi = s1
                 ∧ j < length og)
  ∧ (∀ c, c ∈ cell <$> written st1 st1' → c ∉ cell <$> written st2 st2').
Proof.
  intros Hwf Hlen1 [Hs1 _]%elem_of_cmd_queue [Hs2 _]%elem_of_cmd_queue
    Hne Hrun1 Hrun2.
  split.
  - intros iog i j. rewrite (unit_cells _ _ _ _ _ _ _ _ _ _ _ Hs1 Hrun1). split.
    + intros (og & gi & gj & _ & Hog & Hi & Hsp & Hj & _).
      exists og, gi. repeat split; try done. by eapply lookup_lt_Some.
    + intros (og & gi & Hog & Hi & Hsp & Hj).
      destruct (lookup_lt_is_Some_2 og j Hj) as [gj Hgj].
      exists og, gi, gj. repeat split; try done.
      * rewrite Hlen1. by eapply lookup_lt_Some.
      * apply (Hwf og); by eapply list_elem_of_lookup_2.
  - intros [[iog i] j] Hc1 Hc2.
    apply (unit_cells _ _ _ _ _ _ _ _ _ _ _ Hs1 Hrun1) in Hc1
      as (og & gi & _ & _ & Hog & Hi & Hsp & _).
    apply (unit_cells _ _ _ _ _ _ _ _ _ _ _ Hs2 Hrun2) in Hc2
      as (og' & gi' & _ & _ & Hog' & Hi' & Hsp' & _).
    simplify_eq.
Qed.

(** ** Row extremes *)

Lemma min_Fin (a b : Qc) :
  ∃ c, F.min (Fin a) (Fin b) = Fin c ∧ (c = a ∨ c = b) ∧ (c ≤ a)%Qc ∧ (c ≤ b)%Qc.
Proof.
  unfold F.min. simpl. destruct (Qcltb b a) eqn:Hlt.
  - apply Qcltb_lt in Hlt. exists b.
    split; [done|]. split; [by right|]. split; [by apply Qclt_le_weak|].
    apply Qcle_refl.
  - apply Qcltb_ge in Hlt. exists a.
    split; [done|]. split; [by left|]. split; [apply Qcle_refl|done].
Qed.

Lemma max_Fin (a b : Qc) :
  ∃ c, F.max (Fin a) (Fin b) = Fin c ∧ (c = a ∨ c = b) ∧ (a ≤ c)%Qc ∧ (b ≤ c)%Qc.
Proof.
  unfold F.max, F.gtb. simpl. destruct (Qcltb a b) eqn:Hlt.
  - apply Qcltb_lt in Hlt. exists b.
    split; [done|]. split; [by right|]. split; [by apply Qclt_le_weak|].
    apply Qcle_refl.
  - apply Qcltb_ge in Hlt. exists a.
    split; [done|]. split; [by left|]. split; [apply Qcle_refl|done].
Qed.

Lemma np_minimum_Fin (a b : Qc) :
  ∃ c, F.np_minimum (Fin a) (Fin b) = Fin c ∧ (c = a ∨ c = b)
       ∧ (c ≤ a)%Qc ∧ (c ≤ b)%Qc.
Proof. apply min_Fin. Qed.

Lemma np_maximum_Fin (a b : Qc) :
  ∃ c, F.np_maximum (Fin a) (Fin b) = Fin c ∧ (c = a ∨ c = b)
       ∧ (a ≤ c)%Qc ∧ (b ≤ c)%Qc.
Proof. apply max_Fin. Qed.

(** The smallest and the largest of a non-empty list of numbers. *)
Lemma foldl_min_Fin (qs : list Qc) (x : Qc) :
  ∃ c, foldl F.min (Fin x) (Fin <$> qs) = Fin c
       ∧ c ∈ x :: qs ∧ ∀ q, q ∈ x :: qs → (c ≤ q)%Qc.
Proof.
  revert x. induction qs as [|y qs IH]; intros x; cbn [foldl fmap list_fmap].
  - exists x. split; [done|]. split; [left|].
    intros q ->%list_elem_of_singleton. apply Qcle_refl.
  - destruct (min_Fin x y) as (c & -> & Hc & Hcx & Hcy).
    destruct (IH c) as (d & -> & Hd & Hmin). exists d. split; [done|]. split.
    + apply elem_of_cons in Hd as [->|Hd].
      * destruct Hc as [->| ->]; [left|right; left].
      * by do 2 right.
    + intros q Hq. assert (d ≤ c)%Qc as Hdc by (apply Hmin; left).
      apply elem_of_cons in Hq as [->|Hq]; [by eapply Qcle_trans|].
      apply elem_of_cons in Hq as [->|Hq]; [by eapply Qcle_trans|].
      apply Hmin. by right.
Qed.

Lemma foldl_max_Fin (qs : list Qc) (x : Qc) :
  ∃ c, foldl F.max (Fin x) (Fin <$> qs) = Fin c
       ∧ c ∈ x :: qs ∧ ∀ q, q ∈ x :: qs → (q ≤ c)%Qc.
Proof.
  revert x. induction qs as [|y qs IH]; intros x; cbn [foldl fmap list_fmap].
  - exists x. split; [done|]. split; [left|].
    intros q ->%list_elem_of_singleton. apply Qcle_refl.
  - destruct (max_Fin x y) as (c & -> & Hc & Hcx & Hcy).
    destruct (IH c) as (d & -> & Hd & Hmax). exists d. split; [done|]. split.
    + apply elem_of_cons in Hd as [->|Hd].
      * destruct Hc as [->| ->]; [left|right; left].
      * by do 2 right.
    + intros q Hq. assert (c ≤ d)%Qc as Hdc by (apply Hmax; left).
      apply elem_of_cons in Hq as [->|Hq]; [by eapply Qcle_trans|].
      apply elem_of_cons in Hq as [->|Hq]; [by eapply Qcle_trans|].
      apply Hmax. by right.
Qed.

Lemma positive_row_data (B : lil.matrix) row :
  positive_scores B → row ∈ lil.rows B →
  ∃ qs, lil.data row = Fin <$> qs ∧ Forall (λ q, (0 < q)%Qc) qs.
Proof.
  intros Hpos Hrow.
  assert (Forall (λ e, ∃ q, e = Fin q ∧ (0 < q)%Qc) (lil.data row)) as Hall.
  { apply Forall_forall. intros e He. by apply (Hpos row). }
  clear Hrow Hpos. induction Hall as [|e es (q & -> & Hq) _ (qs & -> & Hqs)].
  - by exists [].
  - exists (q :: qs). split; [done|]. by constructor.
Qed.

Lemma row_min_spec row (qs : list Qc) :
  lil.data row = Fin <$> qs →
  (qs = [] → row_min row = F.big)
  ∧ (qs ≠ [] → ∃ c, row_min row = Fin c ∧ c ∈ qs ∧ ∀ q, q ∈ qs → (c ≤ q)%Qc).
Proof.
  intros Hdata. unfold row_min, lil.nnz.
  assert (length row = length qs) as Hlen.
  { unfold lil.data in Hdata.
    by rewrite <-(length_fmap snd row), Hdata, length_fmap. }
  split.
  - intros ->. by rewrite decide_True.
  - intros Hne. destruct qs as [|x qs]; [done|].
    rewrite decide_False by (simpl in Hlen; lia).
    rewrite Hdata, fmap_cons. unfold F.min_list.
    destruct (foldl_min_Fin qs x) as (c & -> & Hc & Hmin). simpl. eauto.
Qed.

Lemma row_max_spec row (qs : list Qc) :
  lil.data row = Fin <$> qs →
  (qs = [] → row_max row = F.zero)
  ∧ (qs ≠ [] → ∃ c, row_max row = Fin c ∧ c ∈ qs ∧ ∀ q, q ∈ qs → (q ≤ c)%Qc).
Proof.
  intros Hdata. unfold row_max, lil.nnz.
  assert (length row = length qs) as Hlen.
  { unfold lil.data in Hdata.
    by rewrite <-(length_fmap snd row), Hdata, length_fmap. }
  split.
  - intros ->. by rewrite decide_True.
  - intros Hne. destruct qs as [|x qs]; [done|].
    rewrite decide_False by (simpl in Hlen; lia).
    rewrite Hdata, fmap_cons. unfold F.max_list.
    destruct (foldl_max_Fin qs x) as (c & -> & Hc & Hmax). simpl. eauto.
Qed.

Lemma np_elementwise_same_length f (a b : list float) :
  length a = length b → np_elementwise f a b = Some (zip_with f a b).
Proof. intros Hlen. unfold np_elementwise. by rewrite decide_True. Qed.

Lemma row_scores_snoc Bs B k :
  row_scores (Bs ++ [B]) k
  = row_scores Bs k ++ default [] (lil.data <$> lil.rows B !! k).
Proof. unfold row_scores. rewrite bind_app. csimpl. by rewrite app_nil_r. Qed.

Lemma big_pos : (0 < Q2Qc 9e99)%Qc.
Proof. by vm_compute. Qed.

Lemma extremes_of_step Bs B k row mn mx (c d : Qc) :
  positive_scores B → lil.rows B !! k = Some row →
  extremes_of Bs k mn mx →
  F.np_minimum (Fin mn) (row_min row) = Fin c →
  F.np_maximum (Fin mx) (row_max row) = Fin d →
  extremes_of (Bs ++ [B]) k c d.
Proof.
  intros Hpos Hrow (Hmn & Hbounds & Hempty) Hc Hd.
  destruct (positive_row_data B row Hpos) as (qs & Hdata & Hqs).
  { by eapply list_elem_of_lookup_2. }
  destruct (row_min_spec row qs Hdata) as [Hmin0 Hmin1].
  destruct (row_max_spec row qs Hdata) as [Hmax0 Hmax1].
  unfold extremes_of. rewrite row_scores_snoc, Hrow. simpl. rewrite Hdata.
  destruct (decide (qs = [])) as [->|Hne].
  - rewrite Hmin0 in Hc by done. rewrite Hmax0 in Hd by done.
    unfold F.big in Hc. unfold F.zero in Hd.
    destruct (np_minimum_Fin mn (Q2Qc 9e99)) as (c' & Hc' & Hcc & Hc1 & Hc2).
    destruct (np_maximum_Fin mx 0) as (d' & Hd' & Hdd & Hd1 & Hd2).
    rewrite Hc in Hc'. rewrite Hd in Hd'. simplify_eq.
    simpl. rewrite app_nil_r. split; [|split].
    + destruct Hcc as [->| ->]; [done|apply big_pos].
    + intros q Hq. destruct (Hbounds q Hq) as [H1 H2].
      split; [exact (Qcle_trans _ _ _ Hc1 H1)|exact (Qcle_trans _ _ _ H2 Hd1)].
    + intros Hnil. destruct (Hempty Hnil) as [Hbig Hzero].
      unfold F.big in Hbig |- *. unfold F.zero in Hzero |- *.
      injection Hbig as Hbig. injection Hzero as Hzero.
      split; f_equal.
      * destruct Hcc as [Hcc|Hcc]; rewrite Hcc; [exact Hbig|reflexivity].
      * destruct Hdd as [Hdd|Hdd]; rewrite Hdd; [exact Hzero|reflexivity].
  - destruct (Hmin1 Hne) as (rmin & Hrmin & Hrmin_in & Hrmin_le).
    destruct (Hmax1 Hne) as (rmax & Hrmax & Hrmax_in & Hrmax_ge).
    rewrite Hrmin in Hc. rewrite Hrmax in Hd.
    destruct (np_minimum_Fin mn rmin) as (c' & Hc' & Hcc & Hc1 & Hc2).
    destruct (np_maximum_Fin mx rmax) as (d' & Hd' & Hdd & Hd1 & Hd2).
    rewrite Hc in Hc'. rewrite Hd in Hd'. simplify_eq.
    split; [|split].
    + destruct Hcc as [->| ->]; [done|].
      by eapply Forall_forall in Hqs.
    + intros q [Hq|Hq]%elem_of_app.
      * destruct (Hbounds q Hq) as [H1 H2].
        split; [exact (Qcle_trans _ _ _ Hc1 H1)|exact (Qcle_trans _ _ _ H2 Hd1)].
      * apply list_elem_of_fmap in Hq as (q' & [= ->] & Hq').
        split; [exact (Qcle_trans _ _ _ Hc2 (Hrmin_le _ Hq'))
               |exact (Qcle_trans _ _ _ (Hrmax_ge _ Hq') Hd2)].
    + intros [_ Hnil]%app_eq_nil. by destruct qs.
Qed.

Lemma row_extremes_spec n (Bs : list lil.matrix) :
  Forall (λ B, lil.shape0 B = n ∧ positive_scores B) Bs →
  ∃ mins maxes,
    row_extremes n Bs = Some (mins, maxes)
    ∧ length mins = n ∧ length maxes = n
    ∧ ∀ k, k < n →
        ∃ mn mx, mins !! k = Some (Fin mn) ∧ maxes !! k = Some (Fin mx)
                 ∧ extremes_of Bs k mn mx.
Proof.
  intros HBs. unfold row_extremes.
  destruct (for_total
    (λ done (acc : list float * list float),
       length acc.1 = n ∧ length acc.2 = n
       ∧ ∀ k, k < n →
           ∃ mn mx, acc.1 !! k = Some (Fin mn) ∧ acc.2 !! k = Some (Fin mx)
                    ∧ extremes_of done k mn mx)
    Bs combine_minmax (replicate n F.big, replicate n F.zero))
    as ([mins maxes] & Hrun & Hl1 & Hl2 & Hk).
  - simpl. rewrite !length_replicate. split; [done|]. split; [done|].
    intros k Hk. exists (Q2Qc 9e99), 0%Qc.
    split; [by apply lookup_replicate_2|].
    split; [by apply lookup_replicate_2|].
    split; [apply big_pos|]. split; [|done]. intros q Hq. inversion Hq.
  - intros done B rest [mins maxes] HBs_eq (Hlen1 & Hlen2 & Hk). simpl in *.
    assert (lil.shape0 B = n ∧ positive_scores B) as [Hshape Hpos].
    { eapply Forall_forall in HBs; [done|]. rewrite HBs_eq.
      apply elem_of_app. right. left. }
    unfold combine_minmax, lil_minmax. simpl.
    unfold lil.shape0 in Hshape.
    rewrite !np_elementwise_same_length by (by rewrite length_fmap; lia).
    eexists; split; [done|]. simpl.
    rewrite !length_zip_with, !length_fmap.
    split; [lia|]. split; [lia|]. intros k Hlt.
    destruct (Hk k Hlt) as (mn & mx & Hmn & Hmx & Hext).
    destruct (lookup_lt_is_Some_2 (lil.rows B) k) as [row Hrow]; [lia|].
    rewrite !lookup_zip_with, !list_lookup_fmap, Hmn, Hmx, Hrow. simpl.
    assert (∃ qs, lil.data row = Fin <$> qs) as [qs Hdata].
    { destruct (positive_row_data B row Hpos) as (qs & ? & _); [|by eauto].
      by eapply list_elem_of_lookup_2. }
    assert (∃ rmin, row_min row = Fin rmin) as [rmin Hrmin].
    { destruct (row_min_spec row qs Hdata) as [H0 H1].
      destruct (decide (qs = [])) as [->|Hne]; [rewrite H0 by done; by eexists|].
      destruct (H1 Hne) as (c & -> & _). by eexists. }
    assert (∃ rmax, row_max row = Fin rmax) as [rmax Hrmax].
    { destruct (row_max_spec row qs Hdata) as [H0 H1].
      destruct (decide (qs = [])) as [->|Hne]; [rewrite H0 by done; by eexists|].
      destruct (H1 Hne) as (c & -> & _). by eexists. }
    destruct (np_minimum_Fin mn rmin) as (c & Hc & _).
    destruct (np_maximum_Fin mx rmax) as (d & Hd & _).
    exists c, d. rewrite Hrmin, Hrmax, Hc, Hd. split; [done|]. split; [done|].
    eapply extremes_of_step; eauto.
    + by rewrite Hrmin.
    + by rewrite Hrmax.
  - exists mins, maxes. split; [done|]. split; [done|]. split; [done|]. apply Hk.
Qed.

(** ** The value written at a site *)

Lemma entry_spec (row : list (nat * float)) j :
  lil.entry row j = F.zero ∨ lil.entry row j ∈ lil.data row.
Proof.
  unfold lil.entry.
  destruct (list_find _ row) as [[k e]|] eqn:Hfind; [|by left].
  right. apply list_find_Some in Hfind as (Hk & _ & _).
  unfold lil.data. apply list_elem_of_fmap. exists e. split; [done|].
  by eapply list_elem_of_lookup_2.
Qed.

Lemma elem_of_row_scores Bs B k row e :
  B ∈ Bs → lil.rows B !! k = Some row → e ∈ lil.data row →
  e ∈ row_scores Bs k.
Proof.
  intros HB Hrow He. unfold row_scores. apply list_elem_of_bind.
  exists B. split; [|done]. by rewrite Hrow.
Qed.

Lemma row_scores_positive Bs k e :
  Forall positive_scores Bs → e ∈ row_scores Bs k → ∃ q, e = Fin q ∧ (0 < q)%Qc.
Proof.
  intros Hpos He. unfold row_scores in He.
  apply list_elem_of_bind in He as (B & He & HB).
  eapply Forall_forall in Hpos; [|done].
  destruct (lil.rows B !! k) as [row|] eqn:Hrow; simpl in He;
    [|by apply elem_of_nil in He].
  apply (Hpos row); [|done]. by eapply list_elem_of_lookup_2.
Qed.

(** The raw score read at a site is zero or one of the scores of the row. *)
Lemma getitem_spec Bs B i j v :
  Forall positive_scores Bs → B ∈ Bs →
  lil.getitem B i j = Some v →
  ∃ raw, v = Fin raw
         ∧ (raw = 0%Qc ∨ ((0 < raw)%Qc ∧ Fin raw ∈ row_scores Bs i)).
Proof.
  intros Hpos HB. unfold lil.getitem.
  destruct (lil.rows B !! i) as [row|] eqn:Hrow; [|done].
  case_decide; [|done]. intros [= <-].
  destruct (entry_spec row j) as [->|He].
  - exists 0%Qc. split; [done|]. by left.
  - pose proof (elem_of_row_scores Bs B i row _ HB Hrow He) as Hin.
    destruct (row_scores_positive Bs i _ Hpos Hin) as (q & Hq & Hpos_q).
    exists q. split; [done|]. right. by rewrite <-Hq.
Qed.

Lemma half_nonneg : (0 ≤ Q2Qc 0.5)%Qc.
Proof. by vm_compute. Qed.

(** With a positive row maximum the value is
    [0.5 * max(raw, mn) / mx], between [0] and [0.5]. *)
Lemma contribution_bounded (raw mn mx : Qc) :
  (0 ≤ raw)%Qc → (raw ≤ mx)%Qc → (0 < mn)%Qc → (mn ≤ mx)%Qc → (0 < mx)%Qc →
  F.mul (F.mul F.half (F.max (Fin raw) (Fin mn))) (F.div F.one (Fin mx))
  = F.div (F.mul F.half (F.max (Fin raw) (Fin mn))) (Fin mx)
  ∧ within_half
      (F.mul (F.mul F.half (F.max (Fin raw) (Fin mn))) (F.div F.one (Fin mx)))
    = true.
Proof.
  intros Hraw Hraw_mx Hmn Hmn_mx Hmx.
  destruct (max_Fin raw mn) as (M & -> & HM & HM1 & HM2).
  assert (M ≤ mx)%Qc as HM_mx by (by destruct HM as [->| ->]).
  assert (0 < M)%Qc as HM_pos by exact (Qclt_le_trans _ _ _ Hmn HM2).
  assert (mx ≠ 0%Qc) as Hmx_ne.
  { intros ->. by apply Qclt_not_eq in Hmx. }
  assert (Qceqb mx 0 = false) as Hmx0.
  { apply not_true_iff_false. by rewrite Qceqb_eq. }
  unfold F.half, F.one. simpl. rewrite Hmx0.
  assert ((Q2Qc 0.5 * M * (1 / mx) = Q2Qc 0.5 * M / mx)%Qc) as Heq.
  { unfold Qcdiv. by rewrite Qcmult_1_l. }
  split; [by rewrite Heq|].
  unfold within_half. simpl. rewrite Heq.
  assert (0 ≤ Q2Qc 0.5 * M / mx)%Qc as Hlo.
  { unfold Qcdiv. apply Qcmult_nonneg_nonneg.
    - apply Qcmult_nonneg_nonneg; [apply half_nonneg|by apply Qclt_le_weak].
    - apply Qclt_le_weak. by apply Qcinv_pos. }
  assert (Q2Qc 0.5 * M / mx ≤ Q2Qc 0.5)%Qc as Hhi.
  { unfold Qcdiv. rewrite <-Qcmult_assoc.
    rewrite <-(Qcmult_1_r (Q2Qc 0.5)) at 2.
    apply Qcmult_le_mono_nonneg_l; [apply half_nonneg|].
    rewrite <-(Qcmult_inv_r mx) by done.
    apply Qcmult_le_mono_nonneg_r; [|done].
    apply Qclt_le_weak. by apply Qcinv_pos. }
  apply Qcltb_ge in Hlo, Hhi. by rewrite Hlo, Hhi.
Qed.

(** With the row maximum at zero the division by zero gives plus
    infinity. *)
Lemma contribution_infinite :
  F.mul (F.mul F.half (F.max F.zero F.big)) (F.div F.one F.zero) = PInf.
Proof. by vm_compute. Qed.

Lemma contribution_Some B mins maxes_inv gi gj v :
  contribution B mins maxes_inv gi gj = Some v
  ↔ ∃ b mn inv,
      lil.getitem B (iSeq gi) (iSeq gj) = Some b
      ∧ mins !! iSeq gi = Some mn ∧ maxes_inv !! iSeq gi = Some inv
      ∧ v = F.mul (F.mul F.half (F.max b mn)) inv.
Proof.
  unfold contribution.
  destruct (lil.getitem B (iSeq gi) (iSeq gj)) as [b|];
    destruct (mins !! iSeq gi) as [mn|];
    destruct (maxes_inv !! iSeq gi) as [inv|];
    (split; [intros [= <-]; eauto 10 | intros (? & ? & ? & ? & ? & ? & ?)]);
    congruence.
Qed.

Lemma contribution_spec n (Bs : list lil.matrix) B mins maxes gi gj v :
  Forall (λ B, lil.shape0 B = n ∧ positive_scores B) Bs → B ∈ Bs →
  row_extremes n Bs = Some (mins, maxes) →
  contribution B mins (F.div F.one <$> maxes) gi gj = Some v →
  ∃ raw mn mx,
    lil.getitem B (iSeq gi) (iSeq gj) = Some (Fin raw)
    ∧ mins !! iSeq gi = Some (Fin mn) ∧ maxes !! iSeq gi = Some (Fin mx)
    ∧ extremes_of Bs (iSeq gi) mn mx
    ∧ ((0 < mx)%Qc
       ∧ v = F.div (F.mul F.half (F.max (Fin raw) (Fin mn))) (Fin mx)
       ∧ within_half v = true
       ∨ row_scores Bs (iSeq gi) = [] ∧ Fin mn = F.big ∧ Fin mx = F.zero
         ∧ v = PInf).
Proof.
  intros HBs HB Hext Hv.
  assert (Forall positive_scores Bs) as Hpos.
  { eapply Forall_impl; [done|]. by intros ? [_ ?]. }
  destruct (row_extremes_spec n Bs HBs) as (mins' & maxes' & Hext' & Hl1 & _ & Hk).
  rewrite Hext in Hext'. simplify_eq.
  apply contribution_Some in Hv as (b & mn0 & inv & Hb & Hmn0 & Hinv & Hv).
  rewrite list_lookup_fmap in Hinv.
  apply fmap_Some in Hinv as (mx0 & Hmx0 & ->). symmetry in Hv.
  assert (iSeq gi < length mins') as Hlt by (by eapply lookup_lt_Some).
  destruct (Hk _ Hlt) as (mn & mx & Hmn & Hmx & Hof).
  rewrite Hmn0 in Hmn. rewrite Hmx0 in Hmx.
  injection Hmn as ->. injection Hmx as ->.
  destruct (getitem_spec Bs B _ _ _ Hpos HB Hb) as (raw & -> & Hraw).
  exists raw, mn, mx. split; [done|]. split; [done|]. split; [done|].
  split; [done|].
  destruct Hof as (Hmn_pos & Hbounds & Hempty).
  destruct (decide (row_scores Bs (iSeq gi) = [])) as [Hnil|Hne].
  - right. destruct (Hempty Hnil) as [Hbig Hzero].
    split; [done|]. split; [done|]. split; [done|].
    destruct Hraw as [->|[_ Hin]]; [|rewrite Hnil in Hin; inversion Hin].
    rewrite <-Hv, Hbig, Hzero. apply contribution_infinite.
  - left. destruct (row_scores Bs (iSeq gi)) as [|e es] eqn:Hscores; [done|].
    destruct (row_scores_positive Bs (iSeq gi) e Hpos) as (q & -> & Hq).
    { rewrite Hscores. left. }
    destruct (Hbounds q) as [Hmn_q Hq_mx]; [left|].
    assert (0 < mx)%Qc as Hmx_pos by exact (Qclt_le_trans _ _ _ Hq Hq_mx).
    assert (mn ≤ mx)%Qc as Hmn_mx by exact (Qcle_trans _ _ _ Hmn_q Hq_mx).
    assert ((0 ≤ raw)%Qc ∧ (raw ≤ mx)%Qc) as [Hraw0 Hraw_mx].
    { destruct Hraw as [->|[Hraw_pos Hin]].
      - split; [apply Qcle_refl|by apply Qclt_le_weak].
      - split; [by apply Qclt_le_weak|]. by apply Hbounds. }
    destruct (contribution_bounded raw mn mx) as [Heq Hin]; try done.
    rewrite <-Hv. by rewrite <-Heq.
Qed.

(** ** The values of the scatter phase *)

Lemma elem_of_read_Bs GetBLAST6Scores speciesToUse sp1 sp2 :
  sp2 ∈ speciesToUse →
  GetBLAST6Scores sp1 sp2 ∈ read_Bs GetBLAST6Scores speciesToUse sp1.
Proof. intros Hsp2. unfold read_Bs. by apply list_elem_of_fmap_2. Qed.

(** What a run of one unit writes, site by site. *)
Lemma unit_writes_spec GetBLAST6Scores speciesToUse (ogs : list orthogroup)
    iiSp sp1 n st st' :
  (∀ sp2, sp2 ∈ speciesToUse →
          lil.shape0 (GetBLAST6Scores sp1 sp2) = n
          ∧ positive_scores (GetBLAST6Scores sp1 sp2)) →
  unit_of_work GetBLAST6Scores speciesToUse
    (make_ogsPerSpecies speciesToUse ogs) (iiSp, sp1, n) st = Some st' →
  ∃ mins maxes,
    row_extremes n (read_Bs GetBLAST6Scores speciesToUse sp1)
    = Some (mins, maxes)
    ∧ ∀ w, w ∈ written st st' ↔
        ∃ sp2 og gi gj raw mn mx,
          sp2 ∈ speciesToUse ∧ speciesToUse !! iiSp = Some (iSp gi)
          ∧ w_og w < length (ogMatrices st)
          ∧ ogs !! w_og w = Some og
          ∧ og !! w_row w = Some gi ∧ og !! w_col w = Some gj ∧ iSp gj = sp2
          ∧ lil.getitem (GetBLAST6Scores sp1 sp2) (iSeq gi) (iSeq gj)
            = Some (Fin raw)
          ∧ mins !! iSeq gi = Some (Fin mn) ∧ maxes !! iSeq gi = Some (Fin mx)
          ∧ extremes_of (read_Bs GetBLAST6Scores speciesToUse sp1)
              (iSeq gi) mn mx
          ∧ contribution (GetBLAST6Scores sp1 sp2) mins
              (F.div F.one <$> maxes) gi gj = Some (w_val w)
          ∧ ((0 < mx)%Qc
             ∧ w_val w
               = F.div (F.mul F.half (F.max (Fin raw) (Fin mn))) (Fin mx)
             ∧ within_half (w_val w) = true
             ∨ row_scores (read_Bs GetBLAST6Scores speciesToUse sp1) (iSeq gi)
               = []
               ∧ Fin mn = F.big ∧ Fin mx = F.zero ∧ w_val w = PInf).
Proof.
  intros HB Hrun.
  destruct (unit_of_work_written _ _ _ _ _ _ _ _ Hrun)
    as (mins & maxes & Hext & Hw & Hok).
  exists mins, maxes. split; [done|].
  assert (Forall (λ B, lil.shape0 B = n ∧ positive_scores B)
                 (read_Bs GetBLAST6Scores speciesToUse sp1)) as HBs.
  { apply Forall_fmap, Forall_forall. intros sp2 Hsp2. by apply HB. }
  intros w. rewrite Hw, list_elem_of_fmap. split.
  - intros (x & -> & Hx).
    pose proof Hx as Hx'. eapply Forall_forall in Hx'; [|exact Hok].
    destruct Hx' as [v Hv].
    apply elem_of_unit_sites in Hx
      as (jjSp & sp2 & sp_ii & iog & og & gi & i & gj & j
          & -> & Hsp2 & Hii & Hlt & Hog & Hi & Hspi & Hj & Hspj).
    simpl in Hv. unfold site_write, site_value. rewrite Hv. simpl.
    assert (sp2 ∈ speciesToUse) as Hin by (by eapply list_elem_of_lookup_2).
    destruct (contribution_spec n _ _ _ _ _ _ _ HBs
                (elem_of_read_Bs GetBLAST6Scores _ sp1 _ Hin) Hext Hv)
      as (raw & mn & mx & Hraw & Hmn & Hmx & Hof & Hcases).
    exists sp2, og, gi, gj, raw, mn, mx. subst sp_ii. done.
  - intros (sp2 & og & gi & gj & raw & mn & mx & Hin & Hii & Hlt & Hog & Hi & Hj
            & Hspj & _ & _ & _ & _ & Hv & _).
    apply list_elem_of_lookup in Hin as [jjSp Hjj].
    exists (jjSp, GetBLAST6Scores sp1 sp2, w_og w, (gi, w_row w), (gj, w_col w)).
    split.
    + unfold site_write, site_value. rewrite Hv. by destruct w.
    + apply elem_of_unit_sites.
      exists jjSp, sp2, (iSp gi), (w_og w), og, gi, (w_row w), gj, (w_col w).
      done.
Qed.

Lemma Fin_zero_not_pos (mx : Qc) : Fin mx = F.zero → ¬ (0 < mx)%Qc.
Proof.
  unfold F.zero. intros [= ->] Hlt. by apply Qclt_not_eq in Hlt.
Qed.


(** ** The example inputs *)

Lemma two_species_scores_positive s00 s01 s10 s11 sp1 sp2 :
  positive_entries s00 → positive_entries s01 →
  positive_entries s10 → positive_entries s11 →
  lil.shape0 (two_species_scores s00 s01 s10 s11 sp1 sp2) = 1
  ∧ positive_scores (two_species_scores s00 s01 s10 s11 sp1 sp2).
Proof.
  intros H00 H01 H10 H11.
  assert (∀ s, positive_entries s → positive_scores (lil.mk [s] 1)) as Hone.
  { intros s Hs row e ->%list_elem_of_singleton He.
    unfold lil.data in He. apply list_elem_of_fmap in He as (x & -> & Hx).
    unfold positive_entries in Hs. by eapply Forall_forall in Hs. }
  destruct sp1 as [|sp1], sp2 as [|sp2]; simpl; split; auto.
Qed.

Lemma positive_entries_nil : positive_entries [].
Proof. constructor. Qed.

Lemma positive_entries_ten : positive_entries [(0, ten)].
Proof. repeat constructor. exists (Q2Qc 10). split; [done|]. by vm_compute. Qed.

Lemma positive_entries_twenty : positive_entries [(0, twenty)].
Proof. repeat constructor. exists (Q2Qc 20). split; [done|]. by vm_compute. Qed.



(** ** A row maximum of zero *)

(** The cells of a gene without any score, after a unit that has run to
    its end. *)
Lemma unit_zero_row_max GetBLAST6Scores speciesToUse
    (ogs : list orthogroup) iiSp sp1 n st st' iog og i gi j gj :
  (∀ sp2, sp2 ∈ speciesToUse →
          lil.shape0 (GetBLAST6Scores sp1 sp2) = n
          ∧ positive_scores (GetBLAST6Scores sp1 sp2)) →
  speciesToUse !! iiSp = Some sp1 →
  length (ogMatrices st) = length ogs →
  unit_of_work GetBLAST6Scores speciesToUse
    (make_ogsPerSpecies speciesToUse ogs) (iiSp, sp1, n) st = Some st' →
  ogs !! iog = Some og →
  og !! i = Some gi → iSp gi = sp1 →
  og !! j = Some gj → iSp gj ∈ speciesToUse →
  row_scores (read_Bs GetBLAST6Scores speciesToUse sp1) (iSeq gi) = [] →
  (∃ mins maxes,
      row_extremes n (read_Bs GetBLAST6Scores speciesToUse sp1)
      = Some (mins, maxes)
      ∧ mins !! iSeq gi = Some F.big ∧ maxes !! iSeq gi = Some F.zero
      ∧ (F.div F.one <$> maxes) !! iSeq gi = Some PInf)
  ∧ mkWrite iog i j PInf ∈ written st st'
  ∧ ∀ w, w ∈ written st st' → cell w = (iog, i, j) → w_val w = PInf.
Proof.
  intros HB Hsp1 Hlen Hrun Hog Hi Hspi Hj Hspj Hnil.
  destruct (unit_writes_spec _ _ _ _ _ _ _ _ HB Hrun)
    as (mins & maxes & Hext & Hw).
  assert (∀ w, w ∈ written st st' → cell w = (iog, i, j) →
               w_val w = PInf ∧ mins !! iSeq gi = Some F.big
               ∧ maxes !! iSeq gi = Some F.zero) as Hcell.
  { intros w Hin Hc. unfold cell in Hc. injection Hc as Hc1 Hc2 Hc3.
    apply Hw in Hin as (sp2 & og' & gi' & gj' & raw & mn & mx & _ & _ & _ & Hog'
                        & Hi' & Hj' & _ & _ & Hmn & Hmx & Hof & _ & Hcases).
    rewrite Hc1 in Hog'. rewrite Hc2 in Hi'. simplify_eq.
    destruct Hcases as [(Hpos & _)|(_ & Hbig & Hzero & Hv)].
    - destruct Hof as (_ & _ & Hempty). destruct (Hempty Hnil) as [_ Hzero].
      by apply Fin_zero_not_pos in Hzero.
    - by rewrite Hmn, Hmx, Hbig, Hzero. }
  assert ((iog, i, j) ∈ cell <$> written st st') as Hwritten.
  { apply (unit_cells _ _ _ _ _ _ _ _ _ _ _ Hsp1 Hrun).
    exists og, gi, gj. repeat split; try done.
    rewrite Hlen. by eapply lookup_lt_Some. }
  apply list_elem_of_fmap in Hwritten as (w & Hc & Hin).
  destruct (Hcell w Hin (eq_sym Hc)) as (Hv & Hmn & Hmx).
  split; [|split].
  - exists mins, maxes. split; [done|]. split; [done|]. split; [done|].
    rewrite list_lookup_fmap, Hmx. reflexivity.
  - destruct w as [a b c v]. unfold cell in Hc. simpl in *. by simplify_eq.
  - intros w' Hin' Hc'. by destruct (Hcell w' Hin' Hc') as [? _].
Qed.

Lemma row_scores_no_hit : row_scores (read_Bs scores_no_hit [0; 1] 1) 0 = [].
Proof. reflexivity. Qed.


(** C4, as the claim has it, fails: the cells whose row gene has a zero row
    maximum do not stay unset, they are written with plus infinity. *)
Lemma zero_row_max_cell_written :
  row_extremes 1 (read_Bs scores_no_hit [0; 1] 1) = Some ([F.big], [F.zero])
  ∧ ∃ st,
      GetOGMatrices_FullParallel scores_no_hit [0; 1] one_seq [two_genes]
      = Some st
      ∧ mkWrite 0 1 0 PInf ∈ trace st
      ∧ (ogMatrices st !! 0) ≫= (λ m, mget m 1 0) = Some PInf
      ∧ (ogMatrices (initial_state [two_genes]) !! 0) ≫= (λ m, mget m 1 0)
        = Some F.zero.
Proof.
  split; [by vm_compute|].
  eexists. split; [by vm_compute|]. split; [|split; by vm_compute].
  apply list_elem_of_lookup. exists 2. by vm_compute.
Qed.

(** ** The matrix of a species against itself *)

(** The part of the matrix of a species against itself in a unit that has
    run to its end. *)
Lemma unit_self_matrix GetBLAST6Scores speciesToUse
    (ogs : list orthogroup) iiSp sp1 n st st' :
  (∀ sp2, sp2 ∈ speciesToUse →
          lil.shape0 (GetBLAST6Scores sp1 sp2) = n
          ∧ positive_scores (GetBLAST6Scores sp1 sp2)) →
  speciesToUse !! iiSp = Some sp1 →
  length (ogMatrices st) = length ogs →
  unit_of_work GetBLAST6Scores speciesToUse
    (make_ogsPerSpecies speciesToUse ogs) (iiSp, sp1, n) st = Some st' →
  GetBLAST6Scores sp1 sp1 ∈ read_Bs GetBLAST6Scores speciesToUse sp1
  ∧ ∃ mins maxes,
      row_extremes n (read_Bs GetBLAST6Scores speciesToUse sp1)
      = Some (mins, maxes)
      ∧ (∀ k row q, lil.rows (GetBLAST6Scores sp1 sp1) !! k = Some row →
                    Fin q ∈ lil.data row →
                    ∃ mn mx, mins !! k = Some (Fin mn)
                             ∧ maxes !! k = Some (Fin mx)
                             ∧ (mn ≤ q)%Qc ∧ (q ≤ mx)%Qc)
      ∧ (∀ iog og i gi j gj,
            ogs !! iog = Some og → og !! i = Some gi → og !! j = Some gj →
            iSp gi = sp1 → iSp gj = sp1 →
            ∃ v, mkWrite iog i j v ∈ written st st'
                 ∧ contribution (GetBLAST6Scores sp1 sp1) mins
                     (F.div F.one <$> maxes) gi gj = Some v).
Proof.
  intros HB Hsp1 Hlen Hrun.
  assert (sp1 ∈ speciesToUse) as Hin1 by (by eapply list_elem_of_lookup_2).
  pose proof (elem_of_read_Bs GetBLAST6Scores _ sp1 _ Hin1) as Hself.
  split; [done|].
  destruct (unit_writes_spec _ _ _ _ _ _ _ _ HB Hrun)
    as (mins & maxes & Hext & Hw).
  exists mins, maxes. split; [done|]. split.
  - intros k row q Hrow Hq.
    assert (Forall (λ B, lil.shape0 B = n ∧ positive_scores B)
                   (read_Bs GetBLAST6Scores speciesToUse sp1)) as HBs.
    { apply Forall_fmap, Forall_forall. intros sp2 Hsp2. by apply HB. }
    destruct (row_extremes_spec n _ HBs) as (mins' & maxes' & Hext' & _ & _ & Hk).
    rewrite Hext in Hext'. simplify_eq.
    assert (k < n) as Hlt.
    { destruct (HB sp1 Hin1) as [<- _]. by eapply lookup_lt_Some. }
    destruct (Hk k Hlt) as (mn & mx & Hmn & Hmx & _ & Hbounds & _).
    exists mn, mx. split; [done|]. split; [done|].
    apply Hbounds. by eapply elem_of_row_scores.
  - intros iog og i gi j gj Hog Hi Hj Hspi Hspj.
    assert ((iog, i, j) ∈ cell <$> written st st') as Hwritten.
    { apply (unit_cells _ _ _ _ _ _ _ _ _ _ _ Hsp1 Hrun).
      exists og, gi, gj. repeat split; try done.
      - rewrite Hlen. by eapply lookup_lt_Some.
      - by rewrite Hspj. }
    apply list_elem_of_fmap in Hwritten as (w & Hc & Hin).
    pose proof Hin as Hin'.
    apply Hw in Hin' as (sp2 & og' & gi' & gj' & raw & mn & mx & _ & _ & _ & Hog'
                         & Hi' & Hj' & Hsp2 & _ & _ & _ & _ & Hv & _).
    unfold cell in Hc. injection Hc as Hc1 Hc2 Hc3.
    rewrite <-Hc1, Hog in Hog'. injection Hog' as <-.
    rewrite <-Hc2, Hi in Hi'. injection Hi' as <-.
    rewrite <-Hc3, Hj in Hj'. injection Hj' as <-.
    exists (w_val w). split.
    + destruct w as [a b c v]. simpl in *. by subst.
    + by rewrite <-Hsp2, Hspj in Hv.
Qed.


(** C8, as the claim has it, fails: [scores_10] and [scores_10_self_20]
    differ in the matrix of species 0 against itself only, and the unit
    for species 0 gets another row maximum (20 for 10) and writes another
    value to the cell of the two genes (0.25 for 0.5). *)
Lemma self_matrix_changes_values :
  (∀ sp1 sp2, sp1 ≠ sp2 → scores_10 sp1 sp2 = scores_10_self_20 sp1 sp2)
  ∧ row_extremes 1 (read_Bs scores_10 [0; 1] 0) = Some ([ten], [ten])
  ∧ row_extremes 1 (read_Bs scores_10_self_20 [0; 1] 0)
    = Some ([ten], [twenty])
  ∧ (λ st, (λ w, (cell w, fmt6 (w_val w))) <$> trace st)
      <$> unit_of_work scores_10 [0; 1]
            (make_ogsPerSpecies [0; 1] [two_genes])
            (0, 0, 1) (initial_state [two_genes])
    = Some [((0, 0, 0), "0.500000"); ((0, 0, 1), "0.500000")]
  ∧ (λ st, (λ w, (cell w, fmt6 (w_val w))) <$> trace st)
      <$> unit_of_work scores_10_self_20 [0; 1]
            (make_ogsPerSpecies [0; 1] [two_genes])
            (0, 0, 1) (initial_state [two_genes])
    = Some [((0, 0, 0), "0.500000"); ((0, 0, 1), "0.250000")].
Proof.
  split.
  - intros [|sp1] [|sp2] Hne; done.
  - repeat split; by vm_compute.
Qed.


(** ** The end-to-end example *)

Lemma square_ext n (m1 m2 : list (list float)) :
  square n m1 → square n m2 →
  (∀ a b, a < n → b < n → mget m1 a b = mget m2 a b) → m1 = m2.
Proof.
  intros [Hl1 Hr1] [Hl2 Hr2] Hcells. apply list_eq. intros a.
  destruct (decide (a < n)) as [Ha|Ha].
  - destruct (lookup_lt_is_Some_2 m1 a) as [r1 H1]; [lia|].
    destruct (lookup_lt_is_Some_2 m2 a) as [r2 H2]; [lia|].
    rewrite H1, H2. f_equal.
    assert (length r1 = n) as Hn1.
    { eapply Forall_forall in Hr1; [done|]. by eapply list_elem_of_lookup_2. }
    assert (length r2 = n) as Hn2.
    { eapply Forall_forall in Hr2; [done|]. by eapply list_elem_of_lookup_2. }
    apply list_eq. intros b. destruct (decide (b < n)) as [Hb|Hb].
    + specialize (Hcells a b Ha Hb). unfold mget in Hcells.
      by rewrite H1, H2 in Hcells.
    + by rewrite !lookup_ge_None_2 by lia.
  - by rewrite !lookup_ge_None_2 by lia.
Qed.

Lemma CompleteAndWriteOGMatrices_single ln (og : orthogroup)
    (m : list (list float)) :
  CompleteAndWriteOGMatrices ln [og] [m]
  = match complete_in_place ln m with
    | Some (m', max_og) =>
        match WritePhylipMatrix m' (ToString <$> og) max_og with
        | Some text => Some ([m'], [(0, text)])
        | None => None
        end
    | None => None
    end.
Proof.
  unfold CompleteAndWriteOGMatrices. simpl.
  destruct (complete_in_place ln m) as [[m' mx]|]; [|done].
  by destruct (WritePhylipMatrix m' (ToString <$> og) mx).
Qed.

Lemma neg_log_one ln :
  ln 1%Qc = 0%Qc → F.neg (np_log ln (F.add F.half F.half)) = F.zero.
Proof.
  intros Hln.
  assert (F.add F.half F.half = Fin 1%Qc) as -> by (unfold F.half; simpl; canon).
  unfold np_log.
  assert (Qcltb 1 0 = false) as -> by (by vm_compute).
  assert (Qceqb 1 0 = false) as -> by (by vm_compute).
  rewrite Hln. unfold F.zero. simpl. canon.
Qed.

Lemma scatter_two_genes :
  ogMatrices
    <$> GetOGMatrices_FullParallel scores_10 [0; 1] one_seq [two_genes]
  = Some [[[F.half; F.half]; [F.half; F.half]]].
Proof. vm_compute. canon. Qed.

Lemma complete_two_genes ln :
  ln 1%Qc = 0%Qc →
  ∃ max_og,
    complete_in_place ln [[F.half; F.half]; [F.half; F.half]]
    = Some ([[F.half; F.zero]; [F.zero; F.half]], max_og).
Proof.
  intros Hln.
  set (m := [[F.half; F.half]; [F.half; F.half]]).
  assert (square 2 m) as Hsq by (split; [done|by repeat constructor]).
  destruct (complete_in_place_spec ln 2 m Hsq) as (m' & mx & Hc & Hsq' & Hval).
  exists mx. rewrite Hc. do 2 f_equal.
  apply (square_ext 2); [done|split; [done|by repeat constructor]|].
  intros a b Ha Hb. rewrite Hval by done.
  destruct a as [|[|a]], b as [|[|b]]; try lia.
  - reflexivity.
  - rewrite decide_False by lia.
    rewrite log_distance_sym, log_distance_lower by lia.
    change (cell_of m 1 0) with F.half. change (cell_of m 0 1) with F.half.
    by rewrite neg_log_one.
  - rewrite decide_False by lia. rewrite log_distance_lower by lia.
    change (cell_of m 1 0) with F.half. change (cell_of m 0 1) with F.half.
    by rewrite neg_log_one.
  - reflexivity.
Qed.

Lemma write_two_genes max_og :
  WritePhylipMatrix [[F.half; F.zero]; [F.zero; F.half]]
    (ToString <$> two_genes) max_og
  = Some ("2" +:+ nl +:+ "0_0 0.500000 0.000000" +:+ nl
          +:+ "1_0 0.000000 0.500000" +:+ nl).
Proof.
  set (m := [[F.half; F.zero]; [F.zero; F.half]]).
  rewrite (WritePhylipMatrix_spec 2);
    [|split; [done|by repeat constructor]|done].
  reflexivity.
Qed.

(** C7, as the code has it.  Two species with one gene each in one
    orthogroup, score 10 in both directions, row minimum and maximum 10 for
    both rows: the scatter phase writes [0.5] to every cell, the diagonal
    included; the transform turns the two cells off the diagonal into
    [-ln(0.5 + 0.5) = 0] and leaves the diagonal; the rows are written as
    ["0_0 0.500000 0.000000"] and ["1_0 0.000000 0.500000"]. *)
Theorem end_to_end_two_genes (ln : Qc → Qc) :
  ln 1%Qc = 0%Qc →
  row_extremes 1 (read_Bs scores_10 [0; 1] 0) = Some ([ten], [ten])
  ∧ row_extremes 1 (read_Bs scores_10 [0; 1] 1) = Some ([ten], [ten])
  ∧ ∃ st,
      GetOGMatrices_FullParallel scores_10 [0; 1] one_seq [two_genes] = Some st
      ∧ ogMatrices st = [[[F.half; F.half]; [F.half; F.half]]]
      ∧ F.neg (np_log ln (F.add F.half F.half)) = F.zero
      ∧ CompleteAndWriteOGMatrices ln [two_genes] (ogMatrices st)
        = Some ([[[F.half; F.zero]; [F.zero; F.half]]],
                [(0, "2" +:+ nl +:+ "0_0 0.500000 0.000000" +:+ nl
                     +:+ "1_0 0.000000 0.500000" +:+ nl)]).
Proof.
  intros Hln. split; [by vm_compute|]. split; [by vm_compute|].
  pose proof scatter_two_genes as Hscatter.
  destruct (GetOGMatrices_FullParallel scores_10 [0; 1] one_seq [two_genes])
    as [st|]; [|done].
  injection Hscatter as Hscatter.
  exists st. split; [done|]. split; [done|]. split; [by apply neg_log_one|].
  rewrite Hscatter, CompleteAndWriteOGMatrices_single.
  destruct (complete_two_genes ln Hln) as [mx ->].
  by rewrite write_two_genes.
Qed.

Lemma ln_tangent_one : ln_tangent 1%Qc = 0%Qc.
Proof. unfold ln_tangent. canon. Qed.

Lemma end_to_end_two_genes_witness :
  ln_tangent 1%Qc = 0%Qc
  ∧ ∃ st,
      GetOGMatrices_FullParallel scores_10 [0; 1] one_seq [two_genes] = Some st
      ∧ CompleteAndWriteOGMatrices ln_tangent [two_genes] (ogMatrices st)
        = Some ([[[F.half; F.zero]; [F.zero; F.half]]],
                [(0, "2" +:+ nl +:+ "0_0 0.500000 0.000000" +:+ nl
                     +:+ "1_0 0.000000 0.500000" +:+ nl)]).
Proof.
  split; [exact ln_tangent_one|].
  destruct (end_to_end_two_genes ln_tangent ln_tangent_one)
    as (_ & _ & st & Hst & _ & _ & Hfile).
  exists st. split; [exact Hst|exact Hfile].
Defined.

(** C7, as the claim has it, fails: the first value of the first row is the
    diagonal cell, written as ["0.500000"], not ["0.000000"]. *)
Lemma end_to_end_diagonal_half :
  (st ← GetOGMatrices_FullParallel scores_10 [0; 1] one_seq [two_genes];
   snd <$> CompleteAndWriteOGMatrices ln_tangent [two_genes] (ogMatrices st))
  = Some [(0, "2" +:+ nl +:+ "0_0 0.500000 0.000000" +:+ nl
              +:+ "1_0 0.000000 0.500000" +:+ nl)]
  ∧ (st ← GetOGMatrices_FullParallel scores_10 [0; 1] one_seq [two_genes];
     snd <$> CompleteAndWriteOGMatrices ln_tangent [two_genes] (ogMatrices st))
    ≠ Some [(0, "2" +:+ nl +:+ "0_0 0.000000 0.000000" +:+ nl
                +:+ "1_0 0.000000 0.000000" +:+ nl)].
Proof. split; by vm_compute. Qed.

(** ** Species distances *)

Lemma enumerate_snoc {A : Type} (l : list A) x :
  enumerate (l ++ [x]) = enumerate l ++ [(length l, x)].
Proof.
  unfold enumerate. rewrite imap_app. simpl. by rewrite Nat.add_0_r.
Qed.

Lemma indices_of_snoc (og : orthogroup) g sp :
  indices_of (og ++ [g]) sp
  = indices_of og sp ++ (if decide (iSp g = sp) then [length og] else []).
Proof.
  unfold indices_of. rewrite enumerate_snoc, omap_app. simpl.
  by destruct (decide (iSp g = sp)).
Qed.

Lemma make_spDict_lookup (og : orthogroup) sp :
  default [] (make_spDict og !! sp) = indices_of og sp.
Proof.
  unfold make_spDict. induction og as [|g og IH] using rev_ind.
  - done.
  - rewrite enumerate_snoc, foldl_app, indices_of_snoc. simpl.
    destruct (decide (iSp g = sp)) as [->|Hne].
    + rewrite lookup_insert_eq. simpl. by rewrite IH.
    + rewrite lookup_insert_ne by done. by rewrite IH, app_nil_r.
Qed.

Lemma elem_of_indices_of (og : orthogroup) sp i :
  i ∈ indices_of og sp ↔ ∃ g, og !! i = Some g ∧ iSp g = sp.
Proof.
  unfold indices_of. rewrite list_elem_of_omap. split.
  - intros ([k g] & Hin & Hsome). apply elem_of_enumerate in Hin.
    case_decide; simplify_eq. eauto.
  - intros (g & Hi & Hsp). exists (i, g). split; [by apply elem_of_enumerate|].
    by rewrite decide_True.
Qed.

Lemma pair_distances_spec (og : orthogroup) (m : list (list float)) sp1 sp2 :
  square (length og) m →
  pair_distances m (make_spDict og) sp1 sp2
  = Some ((λ '(i, j), cell_of m i j)
            <$> cprod (indices_of og sp1) (indices_of og sp2)).
Proof.
  intros Hsq. unfold pair_distances. rewrite !make_spDict_lookup.
  apply mapM_pure. intros [i j] Hij.
  apply list_elem_of_cprod in Hij as [Hi Hj]. simpl in *.
  apply elem_of_indices_of in Hi as (gi & Hi & _).
  apply elem_of_indices_of in Hj as (gj & Hj & _).
  apply (mget_cell_of (length og)); [done|by eapply lookup_lt_Some..].
Qed.

Lemma closest_distance_spec (og : orthogroup) (m : list (list float)) s t :
  square (length og) m →
  (x ← pair_distances m (make_spDict og) s t; Some (F.min_list x))
  = Some (closest_distance s t (og, m)).
Proof. intros Hsq. by rewrite pair_distances_spec. Qed.



(** ** Pairs of species *)





(** ** The median *)









(** ** The scatter phase runs to its end *)

Lemma for_preserves {A S : Type} (P : S → Prop) (l : list A)
    (body : A → S → option S) (s : S) :
  (∀ x s, x ∈ l → P s → ∃ s', body x s = Some s' ∧ P s') →
  P s → ∃ s', for_ l body s = Some s' ∧ P s'.
Proof.
  intros Hbody Hs. apply (for_total (λ _, P)); [done|].
  intros done x rest s1 Hl Hs1. apply Hbody; [|done].
  rewrite Hl. apply elem_of_app. right. left.
Qed.

Lemma row_extremes_total n (Bs : list lil.matrix) :
  Forall (λ B, lil.shape0 B = n) Bs →
  ∃ mins maxes, row_extremes n Bs = Some (mins, maxes)
                ∧ length mins = n ∧ length maxes = n.
Proof.
  intros HBs. unfold row_extremes.
  destruct (for_preserves
    (λ acc : list float * list float, length acc.1 = n ∧ length acc.2 = n)
    Bs combine_minmax (replicate n F.big, replicate n F.zero))
    as ([mins maxes] & Hrun & Hl1 & Hl2).
  - intros B [mins maxes] HB [Hl1 Hl2]. simpl in *.
    eapply Forall_forall in HBs; [|done]. unfold lil.shape0 in HBs.
    unfold combine_minmax, lil_minmax. simpl.
    rewrite !np_elementwise_same_length by (by rewrite length_fmap; lia).
    eexists; split; [done|]. simpl.
    rewrite !length_zip_with, !length_fmap. lia.
  - simpl. by rewrite !length_replicate.
  - by exists mins, maxes.
Qed.

Lemma allocated_initial (ogs : list orthogroup) : allocated ogs (initial_state ogs).
Proof.
  unfold allocated, initial_state. simpl.
  rewrite <-list_fmap_compose. apply Forall2_fmap_r, Forall_Forall2_diag.
  apply Forall_forall. intros og _. simpl. unfold zeros, square.
  rewrite length_replicate. split; [done|].
  apply Forall_replicate. by rewrite length_replicate.
Qed.

Lemma allocated_length ogs st : allocated ogs st → length (ogMatrices st) = length ogs.
Proof. intros H. symmetry. by eapply Forall2_length. Qed.

Lemma store_allocated (ogs : list orthogroup) iog og i j v st :
  allocated ogs st → ogs !! iog = Some og →
  i < length og → j < length og →
  ∃ st', store iog i j v st = Some st' ∧ allocated ogs st'.
Proof.
  intros Hall Hog Hi Hj. unfold store.
  destruct (Forall2_lookup_l _ _ _ _ _ Hall Hog) as (m & Hm & Hsq).
  rewrite Hm.
  destruct (mset_square _ m i j v Hsq Hi Hj) as (m' & -> & Hsq').
  eexists; split; [done|]. unfold allocated. simpl.
  rewrite <-(list_insert_id ogs iog og Hog). by apply Forall2_insert.
Qed.

(** One unit of work, on inputs as the program delivers them, runs to its
    end and leaves the matrices allocated. *)
Lemma unit_of_work_total GetBLAST6Scores speciesToUse nSeqsPerSpecies
    (ogs : list orthogroup) iiSp sp1 st :
  scores_shaped GetBLAST6Scores nSeqsPerSpecies speciesToUse →
  genes_known nSeqsPerSpecies speciesToUse ogs →
  speciesToUse !! iiSp = Some sp1 →
  allocated ogs st →
  ∃ st',
    unit_of_work GetBLAST6Scores speciesToUse
      (make_ogsPerSpecies speciesToUse ogs)
      (iiSp, sp1, nSeqsPerSpecies sp1) st = Some st'
    ∧ allocated ogs st'.
Proof.
  intros Hshape Hgenes Hsp1 Hall. unfold unit_of_work.
  assert (sp1 ∈ speciesToUse) as Hin1 by (by eapply list_elem_of_lookup_2).
  destruct (row_extremes_total (nSeqsPerSpecies sp1)
              (read_Bs GetBLAST6Scores speciesToUse sp1))
    as (mins & maxes & -> & Hl1 & Hl2).
  { apply Forall_fmap, Forall_forall. intros sp2 Hsp2.
    by destruct (Hshape sp1 sp2 Hin1 Hsp2). }
  apply (for_preserves (allocated ogs)); [|done].
  intros [jjSp B] s1 HB Hs1. apply elem_of_enumerate in HB.
  unfold read_Bs in HB. rewrite list_lookup_fmap in HB.
  destruct (speciesToUse !! jjSp) as [sp2|] eqn:Hsp2; simplify_eq/=.
  assert (sp2 ∈ speciesToUse) as Hin2 by (by eapply list_elem_of_lookup_2).
  destruct (Hshape sp1 sp2 Hin1 Hin2) as [Hrows Hcols].
  apply (for_preserves (allocated ogs)); [|done].
  intros [iog ogp] s2 Hogp Hs2.
  apply elem_of_enumerate, lookup_take_make_ogsPerSpecies in Hogp
    as (_ & og & Hog & ->).
  rewrite list_lookup_fmap, Hsp1. simpl.
  assert (og ∈ ogs) as Hog_in by (by eapply list_elem_of_lookup_2).
  apply (for_preserves (allocated ogs)); [|done].
  intros [gi i] s3 Hgi Hs3. apply elem_of_genes_of_species in Hgi as [Hi Hspi].
  rewrite list_lookup_fmap, Hsp2. simpl.
  apply (for_preserves (allocated ogs)); [|done].
  intros [gj j] s4 Hgj Hs4. apply elem_of_genes_of_species in Hgj as [Hj Hspj].
  destruct (Hgenes og gi Hog_in) as [_ Hseq_i]; [by eapply list_elem_of_lookup_2|].
  destruct (Hgenes og gj Hog_in) as [_ Hseq_j]; [by eapply list_elem_of_lookup_2|].
  rewrite Hspi in Hseq_i. rewrite Hspj in Hseq_j.
  assert (is_Some (contribution (GetBLAST6Scores sp1 sp2) mins
                     (F.div F.one <$> maxes) gi gj)) as [v Hv].
  { unfold contribution, lil.getitem.
    destruct (lookup_lt_is_Some_2 (lil.rows (GetBLAST6Scores sp1 sp2)) (iSeq gi))
      as [row ->]; [unfold lil.shape0 in Hrows; lia|].
    rewrite decide_True by lia.
    destruct (lookup_lt_is_Some_2 mins (iSeq gi)) as [mn ->]; [lia|].
    destruct (lookup_lt_is_Some_2 (F.div F.one <$> maxes) (iSeq gi))
      as [inv ->]; [rewrite length_fmap; lia|].
    done. }
  rewrite Hv. apply (store_allocated ogs iog og); [done|done|..];
    by eapply lookup_lt_Some.
Qed.

(** The whole scatter phase runs to its end. *)
Lemma GetOGMatrices_FullParallel_total GetBLAST6Scores speciesToUse
    nSeqsPerSpecies (ogs : list orthogroup) :
  scores_shaped GetBLAST6Scores nSeqsPerSpecies speciesToUse →
  genes_known nSeqsPerSpecies speciesToUse ogs →
  ∃ st,
    GetOGMatrices_FullParallel GetBLAST6Scores speciesToUse nSeqsPerSpecies ogs
    = Some st
    ∧ allocated ogs st.
Proof.
  intros Hshape Hgenes.
  unfold GetOGMatrices_FullParallel,
    Worker_OGMatrices_ReadBLASTAndUpdateDistances.
  apply (for_preserves (allocated ogs)); [|apply allocated_initial].
  intros [[iiSp sp1] n] st [Hsp1 ->]%elem_of_cmd_queue Hst.
  by apply (unit_of_work_total _ _ nSeqsPerSpecies).
Qed.

(** ** The example inputs are inputs as the program delivers them *)

Lemma two_species_scores_shaped s00 s01 s10 s11 speciesToUse :
  scores_shaped (two_species_scores s00 s01 s10 s11) one_seq speciesToUse.
Proof. intros [|sp1] [|sp2] _ _; done. Qed.

Lemma two_genes_known : genes_known one_seq [0; 1] [two_genes].
Proof.
  intros og g ->%list_elem_of_singleton Hg. unfold two_genes in Hg.
  apply elem_of_cons in Hg as [->|Hg].
  - split; [left|unfold one_seq; simpl; lia].
  - apply list_elem_of_singleton in Hg as ->.
    split; [right; left|unfold one_seq; simpl; lia].
Qed.


Lemma scores_no_hit_positive sp1 sp2 : positive_scores (scores_no_hit sp1 sp2).
Proof.
  apply two_species_scores_positive;
    auto using positive_entries_nil, positive_entries_ten.
Qed.

Lemma scores_10_self_20_positive sp1 sp2 :
  positive_scores (scores_10_self_20 sp1 sp2).
Proof.
  apply two_species_scores_positive;
    auto using positive_entries_nil, positive_entries_ten,
               positive_entries_twenty.
Qed.

(** ** The scatter phase, unit by unit *)

Section Scatter_claims.

Variable GetBLAST6Scores : nat → nat → lil.matrix.
Variable speciesToUse : list nat.
Variable nSeqsPerSpecies : nat → nat.
Variable ogs : list orthogroup.

Hypothesis Hshaped : scores_shaped GetBLAST6Scores nSeqsPerSpecies speciesToUse.
Hypothesis Hgenes : genes_known nSeqsPerSpecies speciesToUse ogs.

Lemma shaped_positive sp1 :
  sp1 ∈ speciesToUse →
  (∀ a b, a ∈ speciesToUse → b ∈ speciesToUse →
          positive_scores (GetBLAST6Scores a b)) →
  ∀ sp2, sp2 ∈ speciesToUse →
    lil.shape0 (GetBLAST6Scores sp1 sp2) = nSeqsPerSpecies sp1
    ∧ positive_scores (GetBLAST6Scores sp1 sp2).
Proof.
  intros Hin1 Hpos sp2 Hin2. split; [|by apply Hpos].
  by destruct (Hshaped sp1 sp2 Hin1 Hin2).
Qed.

(** C1.  Two units of work taken from the queue for distinct species run
    to their end and write disjoint sets of cells: the unit for species
    [s] writes the cell [(i, j)] of the matrix of an orthogroup exactly
    when gene [i] of that orthogroup belongs to [s], so no cell is written
    by both. *)
Theorem scatter_writes_disjoint iiSp1 s1 n1 iiSp2 s2 n2 st1 st2 :
  allocated ogs st1 → allocated ogs st2 →
  (iiSp1, s1, n1) ∈ cmd_queue speciesToUse nSeqsPerSpecies →
  (iiSp2, s2, n2) ∈ cmd_queue speciesToUse nSeqsPerSpecies →
  s1 ≠ s2 →
  ∃ st1' st2',
    unit_of_work GetBLAST6Scores speciesToUse
      (make_ogsPerSpecies speciesToUse ogs) (iiSp1, s1, n1) st1 = Some st1'
    ∧ unit_of_work GetBLAST6Scores speciesToUse
        (make_ogsPerSpecies speciesToUse ogs) (iiSp2, s2, n2) st2 = Some st2'
    ∧ (∀ iog i j,
          (iog, i, j) ∈ cell <$> written st1 st1'
          ↔ ∃ og gi, ogs !! iog = Some og ∧ og !! i = Some gi ∧ iSp gi = s1
                     ∧ j < length og)
    ∧ (∀ iog i j,
          (iog, i, j) ∈ cell <$> written st2 st2'
          ↔ ∃ og gi, ogs !! iog = Some og ∧ og !! i = Some gi ∧ iSp gi = s2
                     ∧ j < length og)
    ∧ (∀ c, c ∈ cell <$> written st1 st1' → c ∉ cell <$> written st2 st2').
Proof.
  intros Hst1 Hst2 Hq1 Hq2 Hne.
  pose proof Hq1 as [Hs1 ->]%elem_of_cmd_queue.
  pose proof Hq2 as [Hs2 ->]%elem_of_cmd_queue.
  destruct (unit_of_work_total _ _ _ _ _ _ _ Hshaped Hgenes Hs1 Hst1)
    as (st1' & Hrun1 & _).
  destruct (unit_of_work_total _ _ _ _ _ _ _ Hshaped Hgenes Hs2 Hst2)
    as (st2' & Hrun2 & _).
  exists st1', st2'. split; [done|]. split; [done|].
  assert (∀ og g, og ∈ ogs → g ∈ og → iSp g ∈ speciesToUse) as Hwf.
  { intros og g Hog Hg. by destruct (Hgenes og g Hog Hg). }
  destruct (unit_cells_disjoint GetBLAST6Scores speciesToUse nSeqsPerSpecies ogs
              _ _ _ _ _ _ st1 st1' st2 st2' Hwf (allocated_length _ _ Hst1)
              Hq1 Hq2 Hne Hrun1 Hrun2) as [Hiff1 Hdisj].
  destruct (unit_cells_disjoint GetBLAST6Scores speciesToUse nSeqsPerSpecies ogs
              _ _ _ _ _ _ st2 st2' st1 st1' Hwf (allocated_length _ _ Hst2)
              Hq2 Hq1 (not_eq_sym Hne) Hrun2 Hrun1) as [Hiff2 _].
  done.
Qed.

Hypothesis Hpositive :
  ∀ a b, a ∈ speciesToUse → b ∈ speciesToUse →
         positive_scores (GetBLAST6Scores a b).


(** C4, as the code has it.  The division by a zero row maximum is not
    guarded (only the warning is silenced): for a gene whose row holds no
    score in any matrix of its species the row minimum stays [9e99], the
    row maximum [0] and its inverse is plus infinity, and the unit of its
    species writes every cell whose row gene it is, with plus infinity. *)
Theorem zero_row_max_writes_infinity iiSp sp1 n st iog og i gi j gj :
  allocated ogs st →
  (iiSp, sp1, n) ∈ cmd_queue speciesToUse nSeqsPerSpecies →
  ogs !! iog = Some og →
  og !! i = Some gi → iSp gi = sp1 → og !! j = Some gj →
  row_scores (read_Bs GetBLAST6Scores speciesToUse sp1) (iSeq gi) = [] →
  ∃ st',
    unit_of_work GetBLAST6Scores speciesToUse
      (make_ogsPerSpecies speciesToUse ogs) (iiSp, sp1, n) st = Some st'
    ∧ (∃ mins maxes,
          row_extremes n (read_Bs GetBLAST6Scores speciesToUse sp1)
          = Some (mins, maxes)
          ∧ mins !! iSeq gi = Some F.big ∧ maxes !! iSeq gi = Some F.zero
          ∧ (F.div F.one <$> maxes) !! iSeq gi = Some PInf)
    ∧ mkWrite iog i j PInf ∈ written st st'
    ∧ ∀ w, w ∈ written st st' → cell w = (iog, i, j) → w_val w = PInf.
Proof.
  intros Hst [Hsp1 ->]%elem_of_cmd_queue Hog Hi Hspi Hj Hnil.
  assert (sp1 ∈ speciesToUse) as Hin1 by (by eapply list_elem_of_lookup_2).
  destruct (unit_of_work_total _ _ _ _ _ _ _ Hshaped Hgenes Hsp1 Hst)
    as (st' & Hrun & _).
  exists st'. split; [done|].
  apply (unit_zero_row_max GetBLAST6Scores speciesToUse ogs iiSp sp1
           (nSeqsPerSpecies sp1) st st' iog og i gi j gj); try done.
  - by apply shaped_positive.
  - by apply allocated_length.
  - apply (Hgenes og gj); by eapply list_elem_of_lookup_2.
Qed.

(** C8, as the code has it.  The unit for species [s] reads the score
    matrix of [s] against every species in use, [s] itself included: the
    combined row minimum and maximum bound the scores of the matrix of [s]
    against itself, and the cells whose two genes are both of [s] are
    written with the value computed from that matrix. *)
Theorem self_matrix_contributes iiSp sp1 n st :
  allocated ogs st →
  (iiSp, sp1, n) ∈ cmd_queue speciesToUse nSeqsPerSpecies →
  ∃ st',
    unit_of_work GetBLAST6Scores speciesToUse
      (make_ogsPerSpecies speciesToUse ogs) (iiSp, sp1, n) st = Some st'
    ∧ GetBLAST6Scores sp1 sp1 ∈ read_Bs GetBLAST6Scores speciesToUse sp1
    ∧ ∃ mins maxes,
        row_extremes n (read_Bs GetBLAST6Scores speciesToUse sp1)
        = Some (mins, maxes)
        ∧ (∀ k row q, lil.rows (GetBLAST6Scores sp1 sp1) !! k = Some row →
                      Fin q ∈ lil.data row →
                      ∃ mn mx, mins !! k = Some (Fin mn)
                               ∧ maxes !! k = Some (Fin mx)
                               ∧ (mn ≤ q)%Qc ∧ (q ≤ mx)%Qc)
        ∧ (∀ iog og i gi j gj,
              ogs !! iog = Some og → og !! i = Some gi → og !! j = Some gj →
              iSp gi = sp1 → iSp gj = sp1 →
              ∃ v, mkWrite iog i j v ∈ written st st'
                   ∧ contribution (GetBLAST6Scores sp1 sp1) mins
                       (F.div F.one <$> maxes) gi gj = Some v).
Proof.
  intros Hst [Hsp1 ->]%elem_of_cmd_queue.
  assert (sp1 ∈ speciesToUse) as Hin1 by (by eapply list_elem_of_lookup_2).
  destruct (unit_of_work_total _ _ _ _ _ _ _ Hshaped Hgenes Hsp1 Hst)
    as (st' & Hrun & _).
  exists st'. split; [done|].
  apply (unit_self_matrix GetBLAST6Scores speciesToUse ogs iiSp sp1
           (nSeqsPerSpecies sp1) st st'); try done.
  - by apply shaped_positive.
  - by apply allocated_length.
Qed.

End Scatter_claims.

Lemma scatter_writes_disjoint_witness :
  (0, 0, 1) ∈ cmd_queue [0; 1] one_seq ∧ (1, 1, 1) ∈ cmd_queue [0; 1] one_seq
  ∧ ∃ st1' st2',
      unit_of_work scores_10 [0; 1] (make_ogsPerSpecies [0; 1] [two_genes])
        (0, 0, 1) (initial_state [two_genes]) = Some st1'
      ∧ unit_of_work scores_10 [0; 1] (make_ogsPerSpecies [0; 1] [two_genes])
          (1, 1, 1) (initial_state [two_genes]) = Some st2'
      ∧ ∀ c, c ∈ cell <$> written (initial_state [two_genes]) st1' →
             c ∉ cell <$> written (initial_state [two_genes]) st2'.
Proof.
  assert ((0, 0, 1) ∈ cmd_queue [0; 1] one_seq) as Hq1
    by (by apply elem_of_cmd_queue).
  assert ((1, 1, 1) ∈ cmd_queue [0; 1] one_seq) as Hq2
    by (by apply elem_of_cmd_queue).
  split; [done|]. split; [done|].
  destruct (scatter_writes_disjoint scores_10 [0; 1] one_seq [two_genes]
              (two_species_scores_shaped _ _ _ _ _) two_genes_known
              0 0 1 1 1 1 (initial_state [two_genes]) (initial_state [two_genes])
              (allocated_initial _) (allocated_initial _) Hq1 Hq2 ltac:(done))
    as (st1' & st2' & Hrun1 & Hrun2 & _ & _ & Hdisj).
  by exists st1', st2'.
Defined.


Lemma zero_row_max_writes_infinity_witness :
  row_scores (read_Bs scores_no_hit [0; 1] 1) 0 = []
  ∧ ∃ st',
      unit_of_work scores_no_hit [0; 1] (make_ogsPerSpecies [0; 1] [two_genes])
        (1, 1, 1) (initial_state [two_genes]) = Some st'
      ∧ mkWrite 0 1 0 PInf ∈ written (initial_state [two_genes]) st'.
Proof.
  split; [exact row_scores_no_hit|].
  assert ((1, 1, 1) ∈ cmd_queue [0; 1] one_seq) as Hq
    by (by apply elem_of_cmd_queue).
  destruct (zero_row_max_writes_infinity scores_no_hit [0; 1] one_seq [two_genes]
              (two_species_scores_shaped _ _ _ _ _) two_genes_known
              (λ a b _ _, scores_no_hit_positive a b)
              1 1 1 (initial_state [two_genes]) 0 two_genes 1 (mkSeq 1 0)
              0 (mkSeq 0 0) (allocated_initial _) Hq eq_refl eq_refl eq_refl
              eq_refl row_scores_no_hit)
    as (st' & Hrun & _ & Hin & _).
  by exists st'.
Defined.

Lemma self_matrix_contributes_witness :
  (0, 0, 1) ∈ cmd_queue [0; 1] one_seq
  ∧ ∃ st',
      unit_of_work scores_10_self_20 [0; 1]
        (make_ogsPerSpecies [0; 1] [two_genes])
        (0, 0, 1) (initial_state [two_genes]) = Some st'
      ∧ scores_10_self_20 0 0 ∈ read_Bs scores_10_self_20 [0; 1] 0.
Proof.
  assert ((0, 0, 1) ∈ cmd_queue [0; 1] one_seq) as Hq
    by (by apply elem_of_cmd_queue).
  split; [done|].
  destruct (self_matrix_contributes scores_10_self_20 [0; 1] one_seq [two_genes]
              (two_species_scores_shaped _ _ _ _ _) two_genes_known
              (λ a b _ _, scores_10_self_20_positive a b)
              0 0 1 (initial_state [two_genes]) (allocated_initial _) Hq)
    as (st' & Hrun & Hself & _).
  by exists st'.
Defined.

(** ** The matrices after the scatter phase *)

Lemma cell_value_insert (mats : list (list (list float))) iog i j v m m' c :
  mats !! iog = Some m → mset m i j v = Some m' →
  cell_value (<[iog := m']> mats) c
  = if decide (c = (iog, i, j)) then Some v else cell_value mats c.
Proof.
  intros Hm Hset. destruct c as [[iog' i'] j']. unfold cell_value. simpl.
  destruct (decide (iog' = iog)) as [->|Hne].
  - rewrite list_lookup_insert_eq by (by eapply lookup_lt_Some).
    rewrite Hm, (mget_mset _ _ _ _ _ _ _ Hset).
    destruct (decide (i' = i ∧ j' = j)) as [[-> ->]|Hn].
    + by rewrite decide_True.
    + rewrite decide_False; [done|]. intros [= -> ->]. by apply Hn.
  - rewrite list_lookup_insert_ne by done.
    case_decide; [simplify_eq|done].
Qed.

Lemma last_write_snoc tr w c :
  last_write (tr ++ [w]) c
  = if decide (cell w = c) then Some (w_val w) else last_write tr c.
Proof.
  unfold last_write. rewrite filter_app, filter_cons, filter_nil.
  case_decide.
  - by rewrite last_snoc.
  - by rewrite app_nil_r.
Qed.

Lemma store_consistent mats0 iog i j v st st' :
  consistent mats0 st → store iog i j v st = Some st' → consistent mats0 st'.
Proof.
  unfold store. intros Hc Hst.
  destruct (ogMatrices st !! iog) as [m|] eqn:Hm; [|done].
  destruct (mset m i j v) as [m'|] eqn:Hset; [|done].
  injection Hst as <-. intros c. simpl.
  rewrite (cell_value_insert _ _ _ _ _ _ _ _ Hm Hset), last_write_snoc.
  unfold cell. simpl. rewrite Hc.
  destruct (decide (c = (iog, i, j))) as [->|Hne].
  - by rewrite decide_True.
  - by rewrite decide_False by congruence.
Qed.

(** A loop keeps what each of its passes keeps. *)
Lemma for_keeps {A S : Type} (P : S → Prop) (l : list A)
    (body : A → S → option S) (s s' : S) :
  (∀ x s s', x ∈ l → P s → body x s = Some s' → P s') →
  P s → for_ l body s = Some s' → P s'.
Proof.
  revert s. induction l as [|x l IH]; intros s Hbody Hs Hrun; simpl in *.
  - by simplify_eq.
  - destruct (body x s) as [s1|] eqn:Hx; [|done].
    apply (IH s1); [|by eapply Hbody; [left|..]|done].
    intros y t t' Hy. apply Hbody. by right.
Qed.

Lemma unit_of_work_consistent GetBLAST6Scores speciesToUse ogsPerSpecies
    mats0 item st st' :
  consistent mats0 st →
  unit_of_work GetBLAST6Scores speciesToUse ogsPerSpecies item st = Some st' →
  consistent mats0 st'.
Proof.
  destruct item as [[iiSp sp1] n]. unfold unit_of_work.
  destruct (row_extremes _ _) as [[mins maxes]|]; [|done].
  intros Hc. revert Hc. apply for_keeps. intros [jjSp B] s1 s1' _.
  apply for_keeps. intros [iog og] s2 s2' _.
  destruct (og !! iiSp) as [row_genes|]; [|done].
  apply for_keeps. intros [gi i] s3 s3' _.
  destruct (og !! jjSp) as [col_genes|]; [|done].
  apply for_keeps. intros [gj j] s4 s4' _.
  destruct (contribution _ _ _ _ _) as [v|]; [|done].
  intros Hc. by apply store_consistent.
Qed.

Lemma replay_trace tr st st' :
  replay tr st = Some st' → trace st' = trace st ++ tr.
Proof.
  unfold replay. revert st. induction tr as [|w tr IH]; intros st Hrun; simpl in *.
  - simplify_eq. by rewrite app_nil_r.
  - destruct (store _ _ _ _ st) as [s1|] eqn:Hst; [|done].
    apply store_trace in Hst. rewrite (IH _ Hrun), Hst.
    destruct w. simpl. by rewrite <-app_assoc.
Qed.

Lemma replay_consistent mats0 tr st st' :
  consistent mats0 st → replay tr st = Some st' → consistent mats0 st'.
Proof.
  unfold replay. apply for_keeps. intros w s s' _ Hc. by apply store_consistent.
Qed.

Lemma consistent_initial (ogs : list orthogroup) :
  consistent (ogMatrices (initial_state ogs)) (initial_state ogs).
Proof. intros c. done. Qed.

(** A cell to which every write carries the value [v], and which was
    written, holds [v]. *)
Lemma last_write_Some tr c v :
  (∀ w, w ∈ tr → cell w = c → w_val w = v) →
  (∃ w, w ∈ tr ∧ cell w = c) →
  last_write tr c = Some v.
Proof.
  intros Hval (w & Hw & Hc). unfold last_write.
  destruct (last (filter (λ w, cell w = c) tr)) as [w'|] eqn:Hlast.
  - apply last_Some in Hlast as [l' Hl'].
    assert (w' ∈ filter (λ w, cell w = c) tr) as Hin.
    { rewrite Hl'. apply elem_of_app. right. by left. }
    apply list_elem_of_filter in Hin as [Hc' Hin]. simpl.
    by rewrite (Hval w' Hin Hc').
  - apply last_None in Hlast.
    assert (w ∈ filter (λ w, cell w = c) tr) as Hin
      by by apply list_elem_of_filter.
    rewrite Hlast in Hin. by apply elem_of_nil in Hin.
Qed.

Lemma last_write_None tr c :
  (∀ w, w ∈ tr → cell w ≠ c) → last_write tr c = None.
Proof.
  intros Hno. unfold last_write.
  destruct (last (filter (λ w, cell w = c) tr)) as [w'|] eqn:Hlast; [|done].
  apply last_Some in Hlast as [l' Hl'].
  assert (w' ∈ filter (λ w, cell w = c) tr) as Hin.
  { rewrite Hl'. apply elem_of_app. right. by left. }
  apply list_elem_of_filter in Hin as [Hc' Hin]. by destruct (Hno w' Hin).
Qed.

Lemma allocated_ext (ogs : list orthogroup) st1 st2 :
  allocated ogs st1 → allocated ogs st2 →
  (∀ c, cell_value (ogMatrices st1) c = cell_value (ogMatrices st2) c) →
  ogMatrices st1 = ogMatrices st2.
Proof.
  intros H1 H2 Hcells. apply list_eq. intros iog.
  destruct (ogs !! iog) as [og|] eqn:Hog.
  - destruct (Forall2_lookup_l _ _ _ _ _ H1 Hog) as (m1 & Hm1 & Hsq1).
    destruct (Forall2_lookup_l _ _ _ _ _ H2 Hog) as (m2 & Hm2 & Hsq2).
    rewrite Hm1, Hm2. f_equal. apply (square_ext (length og)); [done..|].
    intros a b _ _. specialize (Hcells (iog, a, b)).
    unfold cell_value in Hcells. simpl in Hcells. by rewrite Hm1, Hm2 in Hcells.
  - apply lookup_ge_None in Hog.
    rewrite !lookup_ge_None_2; [done|..].
    + by rewrite (allocated_length _ _ H2).
    + by rewrite (allocated_length _ _ H1).
Qed.

Section Scatter_result.

Variable GetBLAST6Scores : nat → nat → lil.matrix.
Variable speciesToUse : list nat.
Variable nSeqsPerSpecies : nat → nat.
Variable ogs : list orthogroup.

Hypothesis Hshaped : scores_shaped GetBLAST6Scores nSeqsPerSpecies speciesToUse.
Hypothesis Hgenes : genes_known nSeqsPerSpecies speciesToUse ogs.


Lemma take_make_ogsPerSpecies st :
  allocated ogs st →
  take (length (ogMatrices st)) (make_ogsPerSpecies speciesToUse ogs)
  = make_ogsPerSpecies speciesToUse ogs.
Proof.
  intros Hall. apply take_ge. unfold make_ogsPerSpecies.
  rewrite length_fmap, (allocated_length _ _ Hall). done.
Qed.

(** One unit of the queue: it runs to its end, appends its writes to the
    trace, and each of them carries the value of its cell; every cell whose
    row gene is of the unit's species is written. *)
Lemma unit_of_work_writes iiSp sp1 st :
  speciesToUse !! iiSp = Some sp1 →
  allocated ogs st →
  ∃ st',
    unit_of_work GetBLAST6Scores speciesToUse
      (make_ogsPerSpecies speciesToUse ogs)
      (iiSp, sp1, nSeqsPerSpecies sp1) st = Some st'
    ∧ allocated ogs st'
    ∧ trace st'
      = trace st ++ unit_writes GetBLAST6Scores speciesToUse ogs
                      (iiSp, sp1, nSeqsPerSpecies sp1)
    ∧ (∀ w, w ∈ unit_writes GetBLAST6Scores speciesToUse ogs
                  (iiSp, sp1, nSeqsPerSpecies sp1) →
          carries_cell_value GetBLAST6Scores speciesToUse nSeqsPerSpecies ogs w)
    ∧ (∀ iog og i gi j gj,
          ogs !! iog = Some og → og !! i = Some gi → og !! j = Some gj →
          iSp gi = sp1 →
          ∃ w, w ∈ unit_writes GetBLAST6Scores speciesToUse ogs
                     (iiSp, sp1, nSeqsPerSpecies sp1)
               ∧ cell w = (iog, i, j)).
Proof.
  intros Hsp1 Hall.
  destruct (unit_of_work_total _ _ _ _ _ _ _ Hshaped Hgenes Hsp1 Hall)
    as (st' & Hrun & Hall').
  exists st'. split; [done|]. split; [done|].
  destruct (unit_of_work_written _ _ _ _ _ _ _ _ Hrun)
    as (mins & maxes & Hext & Hw & Hok).
  rewrite (take_make_ogsPerSpecies _ Hall) in Hw, Hok.
  assert (unit_writes GetBLAST6Scores speciesToUse ogs
            (iiSp, sp1, nSeqsPerSpecies sp1) = written st st') as Huw.
  { unfold unit_writes. by rewrite Hext, Hw. }
  rewrite Huw. split; [|split].
  - unfold unit_of_work in Hrun. rewrite Hext in Hrun.
    apply unit_loops_trace in Hrun as [Ht _]. unfold written.
    rewrite Ht. by rewrite drop_app_length.
  - intros w. rewrite Hw. intros (x & -> & Hx)%list_elem_of_fmap.
    eapply Forall_forall in Hok as [v Hv]; [|done].
    rewrite <-(take_ge (make_ogsPerSpecies speciesToUse ogs) (length ogs)) in Hx
      by (unfold make_ogsPerSpecies; by rewrite length_fmap).
    apply elem_of_unit_sites in Hx
      as (jjSp & sp2 & sp_ii & iog & og & gi & i & gj & j
          & -> & Hsp2 & Hii & Hlt & Hog & Hi & Hspi & Hj & Hspj).
    simplify_eq. exists og, gi, gj. simpl. split; [done|]. split; [done|].
    split; [done|]. simpl in Hv. unfold scatter_value.
    rewrite Hext, Hv. done.
  - intros iog og i gi j gj Hog Hi Hj Hspi.
    assert (iSp gj ∈ speciesToUse) as [jjSp Hjj]%list_elem_of_lookup.
    { apply (Hgenes og); [|by eapply list_elem_of_lookup_2].
      by eapply list_elem_of_lookup_2. }
    exists (site_write mins (F.div F.one <$> maxes)
              (jjSp, GetBLAST6Scores sp1 (iSp gj), iog, (gi, i), (gj, j))).
    split; [|done]. rewrite Hw. apply list_elem_of_fmap_2.
    rewrite <-(take_ge (make_ogsPerSpecies speciesToUse ogs) (length ogs))
      by (unfold make_ogsPerSpecies; by rewrite length_fmap).
    apply elem_of_unit_sites.
    exists jjSp, (iSp gj), sp1, iog, og, gi, i, gj, j.
    repeat (split; [done|]). split; [by eapply lookup_lt_Some|]. done.
Qed.

(** The queue, drained in any order [q]: the run ends; its trace is made
    of the writes of the units, in the order of [q]. *)
Lemma worker_any_order q st0 :
  q ⊆ cmd_queue speciesToUse nSeqsPerSpecies →
  allocated ogs st0 → consistent (ogMatrices (initial_state ogs)) st0 →
  (∀ w, w ∈ trace st0 →
          carries_cell_value GetBLAST6Scores speciesToUse nSeqsPerSpecies ogs w) →
  ∃ st,
    Worker_OGMatrices_ReadBLASTAndUpdateDistances GetBLAST6Scores speciesToUse
      q (make_ogsPerSpecies speciesToUse ogs) st0 = Some st
    ∧ allocated ogs st
    ∧ consistent (ogMatrices (initial_state ogs)) st
    ∧ trace st
      = trace st0 ++ (q ≫= unit_writes GetBLAST6Scores speciesToUse ogs)
    ∧ (∀ w, w ∈ trace st →
          carries_cell_value GetBLAST6Scores speciesToUse nSeqsPerSpecies ogs w).
Proof.
  intros Hq Hall0 Hc0 Hgood0.
  unfold Worker_OGMatrices_ReadBLASTAndUpdateDistances.
  destruct (for_total
    (λ done st, allocated ogs st
                ∧ consistent (ogMatrices (initial_state ogs)) st
                ∧ trace st = trace st0
                    ++ (done ≫= unit_writes GetBLAST6Scores speciesToUse ogs)
                ∧ (∀ w, w ∈ trace st →
          carries_cell_value GetBLAST6Scores speciesToUse nSeqsPerSpecies ogs w))
    q (unit_of_work GetBLAST6Scores speciesToUse
         (make_ogsPerSpecies speciesToUse ogs)) st0) as (st & Hrun & HI).
  - repeat (split; [done|]). split; [|done]. simpl. by rewrite app_nil_r.
  - intros done [[iiSp sp1] n] rest s1 Hl (Hall & Hc & Ht & Hgood).
    assert ((iiSp, sp1, n) ∈ cmd_queue speciesToUse nSeqsPerSpecies)
      as [Hsp1 ->]%elem_of_cmd_queue.
    { apply Hq. rewrite Hl. apply elem_of_app. right. left. }
    destruct (unit_of_work_writes iiSp sp1 s1 Hsp1 Hall)
      as (s2 & Hstep & Hall2 & Ht2 & Hgood2 & _).
    exists s2. split; [done|]. split; [done|]. split.
    { by eapply unit_of_work_consistent. }
    split.
    + rewrite Ht2, Ht, bind_app, <-app_assoc. simpl. by rewrite app_nil_r.
    + intros w. rewrite Ht2. intros [Hw|Hw]%elem_of_app; [by apply Hgood|].
      by apply Hgood2.
  - exists st. by destruct HI as (? & ? & ? & ?).
Qed.



Lemma carries_same_value w w' :
  carries_cell_value GetBLAST6Scores speciesToUse nSeqsPerSpecies ogs w →
  carries_cell_value GetBLAST6Scores speciesToUse nSeqsPerSpecies ogs w' →
  cell w = cell w' → w_val w = w_val w'.
Proof.
  intros (og & gi & gj & Hog & Hi & Hj & Hv)
         (og' & gi' & gj' & Hog' & Hi' & Hj' & Hv') Hcell.
  unfold cell in Hcell. injection Hcell as Hc1 Hc2 Hc3.
  rewrite Hc1 in Hog. rewrite Hc2 in Hi. rewrite Hc3 in Hj.
  simplify_eq. congruence.
Qed.

(** Two runs that made the same writes, in whatever order, leave the same
    matrices. *)
Lemma same_writes_same_matrices st1 st2 :
  allocated ogs st1 → allocated ogs st2 →
  consistent (ogMatrices (initial_state ogs)) st1 →
  consistent (ogMatrices (initial_state ogs)) st2 →
  trace st1 ≡ₚ trace st2 →
  (∀ w, w ∈ trace st1 →
          carries_cell_value GetBLAST6Scores speciesToUse nSeqsPerSpecies ogs w) →
  ogMatrices st1 = ogMatrices st2.
Proof.
  intros Hall1 Hall2 Hc1 Hc2 Hperm Hgood.
  apply (allocated_ext ogs); [done..|]. intros c. rewrite Hc1, Hc2.
  destruct (decide (Exists (λ w, cell w = c) (trace st1))) as [Hex|Hno].
  - apply Exists_exists in Hex as (w & Hw & Hcell).
    rewrite (last_write_Some (trace st1) c (w_val w)).
    + rewrite (last_write_Some (trace st2) c (w_val w)); [done| |].
      * intros w' Hw' Hcell'. rewrite <-Hperm in Hw'.
        apply carries_same_value; [by apply Hgood..|congruence].
      * exists w. by rewrite <-Hperm.
    + intros w' Hw' Hcell'.
      apply carries_same_value; [by apply Hgood..|congruence].
    + by exists w.
  - rewrite Exists_exists in Hno.
    rewrite !last_write_None; [done|..].
    + intros w Hw Hcell. apply Hno. exists w. by rewrite Hperm.
    + intros w Hw Hcell. apply Hno. by exists w.
Qed.

Lemma replay_total tr st :
  allocated ogs st → (∀ w, w ∈ tr →
          carries_cell_value GetBLAST6Scores speciesToUse nSeqsPerSpecies ogs w) →
  ∃ st', replay tr st = Some st' ∧ allocated ogs st'.
Proof.
  intros Hall Hgood. unfold replay.
  apply (for_preserves (allocated ogs)); [|done].
  intros w s Hw Hs. destruct (Hgood w Hw) as (og & gi & gj & Hog & Hi & Hj & _).
  apply (store_allocated ogs _ og); [done..| |]; by eapply lookup_lt_Some.
Qed.

(** The whole scatter phase: it runs to its end; the trace is made of the
    writes of the units in the order of the queue, and the matrices hold
    what the trace says. *)
Lemma scatter_run :
  ∃ st,
    GetOGMatrices_FullParallel GetBLAST6Scores speciesToUse nSeqsPerSpecies ogs
    = Some st
    ∧ allocated ogs st
    ∧ consistent (ogMatrices (initial_state ogs)) st
    ∧ trace st
      = cmd_queue speciesToUse nSeqsPerSpecies
          ≫= unit_writes GetBLAST6Scores speciesToUse ogs
    ∧ (∀ w, w ∈ trace st →
          carries_cell_value GetBLAST6Scores speciesToUse nSeqsPerSpecies ogs w).
Proof.
  destruct (worker_any_order (cmd_queue speciesToUse nSeqsPerSpecies)
              (initial_state ogs)) as (st & Hrun & Hall & Hc & Ht & Hgood).
  - by intros x Hx.
  - apply allocated_initial.
  - apply consistent_initial.
  - intros w Hw. by apply elem_of_nil in Hw.
  - by exists st.
Qed.



(** X2: the matrices that the scatter phase leaves do not depend on the
    order in which the items are taken from the queue. *)
Theorem scatter_queue_order_irrelevant q :
  q ≡ₚ cmd_queue speciesToUse nSeqsPerSpecies →
  ∃ st st_q,
    GetOGMatrices_FullParallel GetBLAST6Scores speciesToUse nSeqsPerSpecies ogs
    = Some st
    ∧ Worker_OGMatrices_ReadBLASTAndUpdateDistances GetBLAST6Scores
        speciesToUse q (make_ogsPerSpecies speciesToUse ogs)
        (initial_state ogs) = Some st_q
    ∧ ogMatrices st_q = ogMatrices st.
Proof.
  intros Hq.
  destruct scatter_run as (st & Hrun & Hall & Hc & Ht & Hgood).
  destruct (worker_any_order q (initial_state ogs))
    as (st_q & Hrun_q & Hall_q & Hc_q & Ht_q & Hgood_q);
    [by intros x Hx; rewrite <-Hq|apply allocated_initial
    |apply consistent_initial|by intros w Hw; apply elem_of_nil in Hw|].
  exists st, st_q. split; [done|]. split; [done|].
  apply same_writes_same_matrices; [done..| |done].
  rewrite Ht_q, Ht. simpl. by rewrite Hq.
Qed.

(** X3: the workers only write to the matrices, and all the writes to one
    cell carry the same value: in whatever order the writes of a run reach
    the shared matrices, in particular however the writes of concurrent
    workers interleave, the matrices end up the same. *)
Theorem scatter_write_order_irrelevant :
  ∃ st,
    GetOGMatrices_FullParallel GetBLAST6Scores speciesToUse nSeqsPerSpecies ogs
    = Some st
    ∧ ∀ tr, tr ≡ₚ trace st →
        ∃ st_r, replay tr (initial_state ogs) = Some st_r
                ∧ trace st_r = tr
                ∧ ogMatrices st_r = ogMatrices st.
Proof.
  destruct scatter_run as (st & Hrun & Hall & Hc & Ht & Hgood).
  exists st. split; [done|]. intros tr Htr.
  destruct (replay_total tr (initial_state ogs)) as (st_r & Hrun_r & Hall_r).
  { apply allocated_initial. }
  { intros w Hw. apply Hgood. by rewrite <-Htr. }
  exists st_r. split; [done|].
  pose proof (replay_trace _ _ _ Hrun_r) as Ht_r. simpl in Ht_r.
  split; [done|].
  apply same_writes_same_matrices; [done|done| |done| |].
  - eapply replay_consistent; [|done]. apply consistent_initial.
  - by rewrite Ht_r.
  - intros w Hw. apply Hgood. by rewrite <-Htr, <-Ht_r.
Qed.


End Scatter_result.


Lemma scatter_queue_order_irrelevant_witness :
  [(1, 1, 1); (0, 0, 1)] ≡ₚ cmd_queue [0; 1] one_seq
  ∧ ∃ st st_q,
      GetOGMatrices_FullParallel scores_10 [0; 1] one_seq [two_genes] = Some st
      ∧ Worker_OGMatrices_ReadBLASTAndUpdateDistances scores_10 [0; 1]
          [(1, 1, 1); (0, 0, 1)] (make_ogsPerSpecies [0; 1] [two_genes])
          (initial_state [two_genes]) = Some st_q
      ∧ ogMatrices st_q = ogMatrices st.
Proof.
  assert ([(1, 1, 1); (0, 0, 1)] ≡ₚ cmd_queue [0; 1] one_seq) as Hq
    by apply perm_swap.
  split; [exact Hq|].
  exact (scatter_queue_order_irrelevant scores_10 [0; 1] one_seq [two_genes]
           (two_species_scores_shaped _ _ _ _ _) two_genes_known _ Hq).
Defined.

Lemma scatter_write_order_irrelevant_witness :
  ∃ st,
    GetOGMatrices_FullParallel scores_10 [0; 1] one_seq [two_genes] = Some st
    ∧ ∃ st_r, replay (reverse (trace st)) (initial_state [two_genes])
              = Some st_r
              ∧ ogMatrices st_r = ogMatrices st.
Proof.
  destruct (scatter_write_order_irrelevant scores_10 [0; 1] one_seq [two_genes]
              (two_species_scores_shaped _ _ _ _ _) two_genes_known)
    as (st & Hrun & Hany).
  exists st. split; [exact Hrun|].
  destruct (Hany (reverse (trace st)) (reverse_Permutation _))
    as (st_r & Hr & _ & Heq).
  exists st_r. split; [exact Hr|exact Heq].
Defined.


(** ** Enough orthogroups for STAG *)

Lemma length_filter_fmap {A B : Type} (f : A → B) (P : B → Prop)
    `{∀ y, Decision (P y)} (l : list A) :
  length (filter P (f <$> l)) = length (filter (λ x, P (f x)) l).
Proof.
  induction l as [|x l IH]; [done|].
  rewrite fmap_cons, !filter_cons. case_decide; simpl; by rewrite IH.
Qed.

Lemma length_filter_iff {A : Type} (P Q : A → Prop)
    `{∀ x, Decision (P x)} `{∀ x, Decision (Q x)} (l : list A) :
  (∀ x, x ∈ l → P x ↔ Q x) →
  length (filter P l) = length (filter Q l).
Proof.
  induction l as [|x l IH]; intros HPQ; [done|].
  rewrite !filter_cons.
  assert (length (filter P l) = length (filter Q l)) as Hl.
  { apply IH. intros y Hy. apply HPQ. by right. }
  destruct (HPQ x ltac:(left)) as [H1 H2].
  repeat case_decide; simpl; try rewrite Hl; try done; tauto.
Qed.

Lemma length_filter_le {A : Type} (P : A → Prop) `{∀ x, Decision (P x)}
    (l : list A) :
  length (filter P l) ≤ length l.
Proof.
  induction l as [|x l IH]; [done|].
  rewrite filter_cons. case_decide; simpl; lia.
Qed.

(** An orthogroup whose genes are of species in use has as many species as
    there are in use exactly when it has a gene of each. *)
Lemma species_count_all (speciesToUse : list nat) (og : orthogroup) :
  NoDup speciesToUse →
  (∀ g, g ∈ og → iSp g ∈ speciesToUse) →
  size (list_to_set (iSp <$> og) : gset nat) = length speciesToUse
  ↔ has_all_species speciesToUse og.
Proof.
  intros Hnd Hknown.
  set (S := list_to_set (iSp <$> og) : gset nat).
  set (T := list_to_set speciesToUse : gset nat).
  assert (S ⊆ T) as Hsub.
  { intros sp. unfold S, T. rewrite !elem_of_list_to_set.
    intros (g & -> & Hg)%list_elem_of_fmap. by apply Hknown. }
  assert (size T = length speciesToUse) as HT by by apply size_list_to_set.
  unfold has_all_species. rewrite Forall_forall. split.
  - intros Hsize sp Hsp.
    assert (S = T) as Heq by (apply set_subseteq_size_eq; [done|lia]).
    assert (sp ∈ S) as Hin by (rewrite Heq; by apply elem_of_list_to_set).
    apply elem_of_list_to_set, list_elem_of_fmap in Hin as (g & -> & Hg).
    apply Exists_exists. by exists g.
  - intros Hall.
    cut (S = T); [by intros ->|].
    apply set_eq. intros sp. split; [apply Hsub|].
    unfold S, T. rewrite !elem_of_list_to_set. intros Hsp.
    pose proof (Hall sp Hsp) as Hex.
    apply Exists_exists in Hex as (g & Hg & <-).
    by apply list_elem_of_fmap_2.
Qed.

(** X5: when the species in use are distinct and every gene is of one of
    them, [EnoughOGsForSTAG] holds exactly when at least 100 orthogroups
    have a gene of every species in use.  With fewer than 100 orthogroups
    it never holds. *)
Theorem EnoughOGsForSTAG_all_species (ogs : list orthogroup)
    (speciesToUse : list nat) :
  NoDup speciesToUse →
  (∀ og g, og ∈ ogs → g ∈ og → iSp g ∈ speciesToUse) →
  (EnoughOGsForSTAG ogs speciesToUse = true
   ↔ 100 ≤ length (filter (has_all_species speciesToUse) ogs))
  ∧ (length ogs < 100 → EnoughOGsForSTAG ogs speciesToUse = false).
Proof.
  intros Hnd Hknown. unfold EnoughOGsForSTAG.
  rewrite length_filter_fmap.
  rewrite (length_filter_iff _ (has_all_species speciesToUse)).
  - split; [by rewrite bool_decide_eq_true|].
    intros Hlt. apply bool_decide_eq_false.
    pose proof (length_filter_le (has_all_species speciesToUse) ogs). lia.
  - intros og Hog. apply species_count_all; [done|].
    intros g Hg. by apply (Hknown og).
Qed.

Lemma EnoughOGsForSTAG_all_species_witness :
  NoDup [0; 1]
  ∧ 100 ≤ length (filter (has_all_species [0; 1]) (replicate 100 two_genes))
  ∧ EnoughOGsForSTAG (replicate 100 two_genes) [0; 1] = true.
Proof.
  assert (NoDup [0; 1]) as Hnd by (apply NoDup_ListNoDup; repeat constructor;
    simpl; intuition lia).
  assert (100 ≤ length (filter (has_all_species [0; 1])
                          (replicate 100 two_genes))) as Hlen.
  { assert (length (filter (has_all_species [0; 1])
                      (replicate 100 two_genes)) = 100) as ->
      by (vm_compute; reflexivity).
    lia. }
  split; [exact Hnd|]. split; [exact Hlen|].
  apply (EnoughOGsForSTAG_all_species (replicate 100 two_genes) [0; 1] Hnd).
  - intros og g [-> _]%elem_of_replicate Hg. unfold two_genes in Hg.
    apply elem_of_cons in Hg as [->|Hg]; [left|].
    apply list_elem_of_singleton in Hg as ->. right. left.
  - exact Hlen.
Defined.

(** ** The check of a user-supplied species tree *)

Lemma count_pos (x : string) (l : list string) :
  x ∈ l ↔ 0 < length (filter (λ y, y = x) l).
Proof.
  induction l as [|a l IH].
  - split; [by intros ?%elem_of_nil|simpl; lia].
  - rewrite filter_cons, elem_of_cons. case_decide; simpl.
    + split; [lia|]. intros _. left. done.
    + rewrite <-IH. split; [intros [->|?]; done|by right].
Qed.

Lemma NoDup_count (l : list string) :
  NoDup l ↔ ∀ x, x ∈ l → length (filter (λ y, y = x) l) ≤ 1.
Proof.
  induction l as [|a l IH].
  - split; [by intros _ x ?%elem_of_nil|intros _; constructor].
  - rewrite NoDup_cons, IH. split.
    + intros [Ha Hl] x Hx. rewrite filter_cons. case_decide as Hax.
      * subst x. simpl.
        destruct (decide (0 < length (filter (λ y, y = a) l))) as [Hp|Hp];
          [by apply count_pos in Hp|lia].
      * apply elem_of_cons in Hx as [->|Hx]; [done|]. by apply Hl.
    + intros Hall. split.
      * intros Ha. specialize (Hall a ltac:(left)).
        rewrite filter_cons, decide_True in Hall by done. simpl in Hall.
        apply count_pos in Ha. lia.
      * intros x Hx. specialize (Hall x ltac:(by right)).
        rewrite filter_cons in Hall. case_decide; simpl in Hall; lia.
Qed.

Lemma max_list_le_iff (ns : list nat) (b : nat) :
  max_list ns ≤ b ↔ ∀ n, n ∈ ns → n ≤ b.
Proof.
  induction ns as [|n ns IH]; simpl.
  - split; [by intros _ n ?%elem_of_nil|lia].
  - split.
    + intros Hle m [->|Hm]%elem_of_cons; [lia|]. apply IH; [lia|done].
    + intros Hall. apply Nat.max_lub; [apply Hall; left|].
      apply IH. intros m Hm. apply Hall. by right.
Qed.

(** The largest count is 1 exactly for a list without duplicates that is
    not empty. *)
Lemma most_common_count_1 (l : list string) :
  most_common_count l = Some 1 ↔ l ≠ [] ∧ NoDup l.
Proof.
  destruct l as [|a l]; [split; [done|by intros [? _]]|].
  unfold most_common_count.
  remember ((λ x, length (filter (λ y, y = x) (a :: l))) <$> a :: l)
    as counts eqn:Hcounts.
  assert (∀ n, n ∈ counts
               ↔ ∃ x, n = length (filter (λ y, y = x) (a :: l))
                      ∧ x ∈ a :: l) as Hin.
  { intros n. rewrite Hcounts. apply list_elem_of_fmap. }
  assert (1 ≤ max_list counts) as Hge.
  { assert (length (filter (λ y, y = a) (a :: l)) ≤ max_list counts) as Hle.
    { apply (proj1 (max_list_le_iff counts (max_list counts))); [lia|].
      apply Hin. exists a. split; [done|left]. }
    assert (0 < length (filter (λ y, y = a) (a :: l)))
      by (apply count_pos; left).
    lia. }
  rewrite NoDup_count. split.
  - intros [= Hmax]. split; [done|]. intros x Hx.
    apply (proj1 (max_list_le_iff counts 1)); [lia|].
    apply Hin. by exists x.
  - intros [_ Hall]. f_equal.
    assert (max_list counts ≤ 1); [|lia].
    apply max_list_le_iff. intros n (x & -> & Hx)%Hin. by apply Hall.
Qed.

Lemma most_common_count_None (l : list string) :
  most_common_count l = None ↔ l = [].
Proof. destruct l; split; done. Qed.

Lemma forallb_elem_of (k l : list string) :
  forallb (λ sp, bool_decide (sp ∈ k)) l = true ↔ ∀ x, x ∈ l → x ∈ k.
Proof.
  induction l as [|a l IH]; simpl.
  - split; [by intros _ x ?%elem_of_nil|done].
  - rewrite andb_true_iff, bool_decide_eq_true, IH. split.
    + intros [Ha Hl] x [->|Hx]%elem_of_cons; [done|by apply Hl].
    + intros Hall. split; [apply Hall; left|]. intros x Hx. apply Hall.
      by right.
Qed.

(** The check of a tree that was read. *)
Lemma CheckUserSpeciesTree_read (t : species_tree) (expSpecies : list string) :
  (CheckUserSpeciesTree true (Some t) expSpecies = Returned
   ↔ expSpecies ≠ [] ∧ NoDup expSpecies
     ∧ leaf_names t ≡ₚ expSpecies ∧ n_children t = 2)
  ∧ (CheckUserSpeciesTree true (Some t) expSpecies = Raised
     ↔ leaf_names t = [] ∨ NoDup (leaf_names t) ∧ expSpecies = []).
Proof.
  unfold CheckUserSpeciesTree. simpl.
  destruct (most_common_count (leaf_names t)) as [n|] eqn:Hact.
  - assert (leaf_names t ≠ []) as Hne.
    { intros Hnil. apply most_common_count_None in Hnil. congruence. }
    destruct (decide (1 ≠ n)) as [Hn|Hn].
    + assert (¬ NoDup (leaf_names t)) as Hdup.
      { intros Hnd. apply Hn.
        assert (most_common_count (leaf_names t) = Some 1) as H1
          by by apply most_common_count_1.
        congruence. }
      split; split; [done| |done|].
      * intros (_ & Hnd & Hperm & _). exfalso.
        apply Hdup. by rewrite Hperm.
      * intros [Hnil|[Hnd _]]; done.
    + assert (n = 1) as -> by (destruct (decide (n = 1)); [done|lia]).
      apply most_common_count_1 in Hact as [_ Hnd].
      destruct (most_common_count expSpecies) as [n'|] eqn:Hexp.
      * assert (expSpecies ≠ []) as Hne'.
        { intros Hnil. apply most_common_count_None in Hnil. congruence. }
        destruct (decide (1 ≠ n')) as [Hn'|Hn'].
        { assert (¬ NoDup expSpecies) as Hdup.
          { intros Hnd'. apply Hn'.
            assert (most_common_count expSpecies = Some 1) as H1
              by by apply most_common_count_1.
            congruence. }
          split; split; [done| |done|].
          - by intros (_ & Hnd' & _).
          - intros [Hnil|[_ Hnil]]; done. }
        assert (n' = 1) as -> by (destruct (decide (n' = 1)); [done|lia]).
        apply most_common_count_1 in Hexp as [_ Hnd'].
        destruct (forallb (λ sp, bool_decide (sp ∈ leaf_names t)) expSpecies)
          eqn:Hok1; simpl.
        -- destruct (forallb (λ sp, bool_decide (sp ∈ expSpecies))
                       (leaf_names t)) eqn:Hok2; simpl.
           ++ pose proof (proj1 (forallb_elem_of _ _) Hok1) as Hin1.
              pose proof (proj1 (forallb_elem_of _ _) Hok2) as Hin2.
              assert (leaf_names t ≡ₚ expSpecies) as Hperm.
              { apply NoDup_Permutation; [done..|]. intros x. split; auto. }
              destruct (decide (n_children t ≠ 2)) as [Hc|Hc].
              ** split; split; [done| |done|].
                 --- by intros (_ & _ & _ & ?).
                 --- intros [Hnil|[_ Hnil]]; done.
              ** split; split; [|done|done|].
                 --- intros _. repeat (split; [done|]). lia.
                 --- intros [Hnil|[_ Hnil]]; done.
           ++ split; split; [done| |done|].
              ** intros (_ & _ & Hperm & _). exfalso.
                 assert (forallb (λ sp, bool_decide (sp ∈ expSpecies))
                           (leaf_names t) = true) as Habs; [|congruence].
                 apply forallb_elem_of. intros x Hx. by rewrite <-Hperm.
              ** intros [Hnil|[_ Hnil]]; done.
        -- split; split; [done| |done|].
           ++ intros (_ & _ & Hperm & _). exfalso.
              assert (forallb (λ sp, bool_decide (sp ∈ leaf_names t))
                        expSpecies = true) as Habs; [|congruence].
              apply forallb_elem_of. intros x Hx. by rewrite Hperm.
           ++ intros [Hnil|[_ Hnil]]; done.
      * apply most_common_count_None in Hexp. split; split; [done| | |done].
        -- by intros (? & _).
        -- intros _. by right.
  - apply most_common_count_None in Hact. split; split; [done| | |done].
    + intros (Hne & _ & Hperm & _). exfalso.
      rewrite Hact in Hperm. symmetry in Hperm.
      by apply Permutation_nil_r in Hperm.
    + intros _. by left.
Qed.

(** X6: [CheckUserSpeciesTree] returns exactly when the file exists, the
    tree can be read, the expected species are distinct, the leaves of the
    tree are these species, each once, and the root has two children.  It
    raises an exception of its own, instead of ending with an error
    message, when the tree has no leaf, or when the leaves are distinct and
    no species is expected. *)
Theorem CheckUserSpeciesTree_accepts (file_exists : bool)
    (parsed : option species_tree) (expSpecies : list string) :
  (CheckUserSpeciesTree file_exists parsed expSpecies = Returned
   ↔ file_exists = true
     ∧ ∃ t, parsed = Some t
            ∧ expSpecies ≠ [] ∧ NoDup expSpecies
            ∧ leaf_names t ≡ₚ expSpecies
            ∧ n_children t = 2)
  ∧ (CheckUserSpeciesTree file_exists parsed expSpecies = Raised
     ↔ file_exists = true
       ∧ ∃ t, parsed = Some t
              ∧ (leaf_names t = []
                 ∨ NoDup (leaf_names t) ∧ expSpecies = [])).
Proof.
  destruct file_exists;
    [|split; split; [done|by intros [? _]|done|by intros [? _]]].
  destruct parsed as [t|];
    [|split; split; [done|by intros [_ (? & ? & _)]
                    |done|by intros [_ (? & ? & _)]]].
  destruct (CheckUserSpeciesTree_read t expSpecies) as [Hret Hraise].
  split.
  - rewrite Hret. split.
    + intros H. split; [done|]. by exists t.
    + by intros [_ (t' & [= <-] & H)].
  - rewrite Hraise. split.
    + intros H. split; [done|]. by exists t.
    + by intros [_ (t' & [= <-] & H)].
Qed.

(** ** The conversion of a user-supplied species tree *)

Lemma revDict_fold (l : list (string * string)) (acc : gmap string string)
    (v : string) :
  v ∉ l.*2 →
  foldl (λ acc kv, <[kv.2 := kv.1]> acc) acc l !! v = acc !! v.
Proof.
  revert acc. induction l as [|[k' v'] l IH]; intros acc Hv; [done|].
  simpl. rewrite IH.
  - apply lookup_insert_ne. intros ->. apply Hv. simpl. left.
  - intros Hin. apply Hv. simpl. by right.
Qed.

Lemma revDict_fold_elem (l : list (string * string))
    (acc : gmap string string) (k v : string) :
  NoDup l.*2 → (k, v) ∈ l →
  foldl (λ acc kv, <[kv.2 := kv.1]> acc) acc l !! v = Some k.
Proof.
  revert acc. induction l as [|[k' v'] l IH]; intros acc Hnd Hin.
  - by apply elem_of_nil in Hin.
  - simpl in *. apply NoDup_cons in Hnd as [Hv' Hnd].
    apply elem_of_cons in Hin as [[= -> ->]|Hin].
    + rewrite revDict_fold by done. apply lookup_insert_eq.
    + by apply IH.
Qed.

(** With distinct names, [revDict] sends the name of a species to its
    identifier, and holds nothing else. *)
Lemma revDict_lookup (speciesDict : gmap string string) (k v : string) :
  NoDup (map_to_list speciesDict).*2 →
  revDict speciesDict !! v = Some k ↔ speciesDict !! k = Some v.
Proof.
  intros Hnd. unfold revDict. split.
  - intros Hv. apply elem_of_map_to_list.
    destruct (decide (v ∈ (map_to_list speciesDict).*2)) as [Hin|Hin].
    + apply list_elem_of_fmap in Hin as ([k' v'] & Heq & Hin).
      simpl in Heq. subst v.
      rewrite (revDict_fold_elem _ _ k' v' Hnd Hin) in Hv. by simplify_eq.
    + rewrite revDict_fold in Hv by done. by rewrite lookup_empty in Hv.
  - intros Hin%elem_of_map_to_list. by apply revDict_fold_elem.
Qed.

(** X7: a tree that [CheckUserSpeciesTree] accepts for the names of the
    species, [speciesDict.values()], is converted without a [KeyError]:
    every leaf gets the identifier of the species whose name it carried,
    and every identifier is given to exactly one leaf. *)
Theorem ConvertUserSpeciesTree_after_check (t : species_tree)
    (speciesDict : gmap string string) :
  CheckUserSpeciesTree true (Some t) (map_to_list speciesDict).*2 = Returned →
  ∃ ids,
    ConvertUserSpeciesTree t speciesDict = Some ids
    ∧ Forall2 (λ id name, speciesDict !! id = Some name) ids (leaf_names t)
    ∧ ids ≡ₚ (map_to_list speciesDict).*1.
Proof.
  intros Hcheck.
  apply (proj1 (CheckUserSpeciesTree_read _ _)) in Hcheck
    as (_ & Hnd & Hperm & _).
  set (ids := (λ name, default "" (revDict speciesDict !! name))
                <$> leaf_names t).
  assert (∀ name, name ∈ leaf_names t →
            ∃ id, revDict speciesDict !! name = Some id
                  ∧ speciesDict !! id = Some name) as Hleaf.
  { intros name Hname. rewrite Hperm in Hname.
    apply list_elem_of_fmap in Hname as ([k v] & -> & Hin). simpl.
    exists k. split; [by apply revDict_fold_elem|].
    by apply elem_of_map_to_list. }
  exists ids. split; [|split].
  - unfold ConvertUserSpeciesTree. apply mapM_Some. unfold ids.
    apply Forall2_fmap_r, Forall_Forall2_diag, Forall_forall.
    intros name Hname. destruct (Hleaf name Hname) as (id & Hid & _).
    simpl. by rewrite Hid.
  - unfold ids. apply Forall2_fmap_l, Forall_Forall2_diag, Forall_forall.
    intros name Hname. destruct (Hleaf name Hname) as (id & Hid & Hname').
    simpl. by rewrite Hid.
  - unfold ids. rewrite Hperm, <-list_fmap_compose.
    cut ((λ name, default "" (revDict speciesDict !! name)) ∘ snd
           <$> map_to_list speciesDict
         = (map_to_list speciesDict).*1); [by intros ->|].
    apply list_fmap_ext. intros i [k v] Hin%list_elem_of_lookup_2. simpl.
    unfold revDict. by rewrite (revDict_fold_elem _ _ k v Hnd Hin).
Qed.

Lemma ConvertUserSpeciesTree_after_check_witness :
  CheckUserSpeciesTree true (Some two_leaves) (map_to_list two_names).*2
  = Returned
  ∧ ∃ ids,
      ConvertUserSpeciesTree two_leaves two_names = Some ids
      ∧ Forall2 (λ id name, two_names !! id = Some name) ids
          (leaf_names two_leaves)
      ∧ ids ≡ₚ (map_to_list two_names).*1.
Proof.
  assert (CheckUserSpeciesTree true (Some two_leaves)
            (map_to_list two_names).*2 = Returned) as Hcheck
    by (vm_compute; reflexivity).
  split; [exact Hcheck|].
  exact (ConvertUserSpeciesTree_after_check two_leaves two_names Hcheck).
Defined.

(** ** Row minima and maxima *)

(** X8: [lil_minmax] returns what [lil_min] and [lil_max] return, one
    value per row.  For a row without stored entries these are [9e99] and
    [0], so that the minimum is above the maximum; for a row of stored
    numbers they are stored values of the row, below and above every
    stored value of the row. *)
Theorem lil_minmax_min_max (M : lil.matrix) :
  lil_minmax M = (lil_min M, lil_max M)
  ∧ length (lil_min M) = lil.shape0 M ∧ length (lil_max M) = lil.shape0 M
  ∧ ∀ k row, lil.rows M !! k = Some row →
      (lil.data row = [] →
         lil_min M !! k = Some F.big ∧ lil_max M !! k = Some F.zero
         ∧ F.ltb F.zero F.big = true)
      ∧ ∀ qs : list Qc, lil.data row = Fin <$> qs → qs ≠ [] →
          ∃ mn mx, lil_min M !! k = Some (Fin mn)
                   ∧ lil_max M !! k = Some (Fin mx)
                   ∧ mn ∈ qs ∧ mx ∈ qs
                   ∧ ∀ q, q ∈ qs → (mn ≤ q)%Qc ∧ (q ≤ mx)%Qc.
Proof.
  split; [reflexivity|]. unfold lil_min, lil_max, lil.shape0.
  rewrite !length_fmap. split; [done|]. split; [done|].
  intros k row Hrow. rewrite !list_lookup_fmap, Hrow. simpl.
  fold (row_min row). fold (row_max row). split.
  - intros Hdata.
    destruct (row_min_spec row [] Hdata) as [Hmin _].
    destruct (row_max_spec row [] Hdata) as [Hmax _].
    rewrite Hmin, Hmax by done. split; [done|]. split; [done|].
    unfold F.ltb, F.zero, F.big. apply Qcltb_lt, big_pos.
  - intros qs Hdata Hne.
    destruct (row_min_spec row qs Hdata) as [_ Hmin].
    destruct (row_max_spec row qs Hdata) as [_ Hmax].
    destruct (Hmin Hne) as (mn & -> & Hmn & Hle).
    destruct (Hmax Hne) as (mx & -> & Hmx & Hge).
    exists mn, mx. split; [done|]. split; [done|]. split; [done|].
    split; [done|]. intros q Hq. split; [by apply Hle|by apply Hge].
Qed.
